(** * ScaffoldGraph: the fragmentation engine of [scaffoldgraph.core.fragment]

    A shallow embedding of [src/scaffoldgraph/core/fragment.py].

    The Python module works on RDKit molecules, which are mutable objects
    handed around by reference.  The embedding therefore keeps a store of
    molecules ([heap]); a molecule object is a location in that store, an atom
    or a bond object is a pair of the owning molecule's location and an index
    (as RDKit atoms and bonds are), and every function that mutates a molecule
    takes and returns the store.  Operations of the chemistry toolkit whose
    results depend on chemistry (sanitization, fragment splitting, canonical
    keys, ...) are the fields of the class [ChemEngine]. *)

From Stdlib Require Import ZArith Lia.
From stdpp Require Import base option list sorting gmap sets strings pretty.

(** ** Data model: atoms, bonds, rings, molecules *)

(** [rdkit.Chem.ChiralType] *)
Inductive ChiralType :=
  | CHI_UNSPECIFIED
  | CHI_TETRAHEDRAL_CW
  | CHI_TETRAHEDRAL_CCW
  | CHI_OTHER.

#[global] Instance ChiralType_eq_dec : EqDecision ChiralType.
Proof. solve_decision. Defined.

(** [rdkit.Chem.BondType]; the values the fragmenter can meet. *)
Module BondType.
Inductive t := UNSPECIFIED | SINGLE | DOUBLE | TRIPLE | AROMATIC | OTHER.

#[global] Instance eq_dec : EqDecision t.
Proof. solve_decision. Defined.
End BondType.

(** The part of an RDKit atom the module reads or writes. *)
Record Atom := mkAtom {
  AtomicNum : nat;
  IsAromatic : bool;
  NoImplicit : bool;
  NumExplicitHs : nat;
  ChiralTag : ChiralType
}.

Record Bond := mkBond {
  BeginAtomIdx : nat;
  EndAtomIdx : nat;
  Type_ : BondType.t
}.

(** A ring (or a ring system): the indices of its atoms and of its bonds. *)
Record Ring := mkRing {
  aix : list nat;
  bix : list nat
}.

(** A molecule: atoms and bonds by index, and its [RingInfo] (the perceived
    rings).  Ring information is stored data: it is computed by the toolkit
    and is not touched by edits of atom properties. *)
Record Mol := mkMol {
  atoms : list Atom;
  bonds : list Bond;
  ring_info : list Ring
}.

#[global] Instance Atom_inhabited : Inhabited Atom :=
  populate (mkAtom 0 false false 0 CHI_UNSPECIFIED).
#[global] Instance Bond_inhabited : Inhabited Bond :=
  populate (mkBond 0 0 BondType.UNSPECIFIED).
#[global] Instance Mol_inhabited : Inhabited Mol :=
  populate (mkMol [] [] []).

(** ** The store of molecule objects *)

Definition loc := nat.
Definition heap := list Mol.

(** An atom object: the molecule that owns it and its index there. *)
Record AtomRef := mkAtomRef { atom_mol : loc; atom_idx : nat }.
(** A bond object. *)
Record BondRef := mkBondRef { bond_mol : loc; bond_idx : nat }.

(** Dereferencing.  RDKit raises on an index out of range; the functions of
    this module only use indices they got from the same molecule, and the
    embedding reads a default there. *)
Definition the_mol (h : heap) (l : loc) : Mol := h !!! l.
Definition the_atom (h : heap) (a : AtomRef) : Atom :=
  atoms (the_mol h (atom_mol a)) !!! atom_idx a.
Definition the_bond (h : heap) (b : BondRef) : Bond :=
  bonds (the_mol h (bond_mol b)) !!! bond_idx b.

(** A new molecule object. *)
Definition alloc (m : Mol) (h : heap) : heap * loc := (h ++ [m], length h).

(** In-place update of the molecule at [l]. *)
Definition update_mol (l : loc) (f : Mol → Mol) (h : heap) : heap := alter f l h.

Definition update_atom (a : AtomRef) (f : Atom → Atom) (h : heap) : heap :=
  update_mol (atom_mol a)
    (λ m, mkMol (alter f (atom_idx a) (atoms m)) (bonds m) (ring_info m)) h.

Definition update_bond (b : BondRef) (f : Bond → Bond) (h : heap) : heap :=
  update_mol (bond_mol b)
    (λ m, mkMol (atoms m) (alter f (bond_idx b) (bonds m)) (ring_info m)) h.

(** ** RDKit accessors used by the module *)

Definition GetAtomWithIdx (mol : loc) (i : nat) : AtomRef := mkAtomRef mol i.
Definition GetBondWithIdx (mol : loc) (i : nat) : BondRef := mkBondRef mol i.

Module AtomAPI.
Definition GetIdx (a : AtomRef) : nat := atom_idx a.
Definition GetAtomicNum (h : heap) (a : AtomRef) : nat := AtomicNum (the_atom h a).
Definition GetIsAromatic (h : heap) (a : AtomRef) : bool := IsAromatic (the_atom h a).
Definition GetNoImplicit (h : heap) (a : AtomRef) : bool := NoImplicit (the_atom h a).
Definition GetChiralTag (h : heap) (a : AtomRef) : ChiralType := ChiralTag (the_atom h a).

Definition SetNumExplicitHs (a : AtomRef) (n : nat) : heap → heap :=
    update_atom a (λ x, mkAtom (AtomicNum x) (IsAromatic x) (NoImplicit x) n (ChiralTag x)).
Definition SetNoImplicit (a : AtomRef) (b : bool) : heap → heap :=
    update_atom a (λ x, mkAtom (AtomicNum x) (IsAromatic x) b (NumExplicitHs x) (ChiralTag x)).
Definition SetChiralTag (a : AtomRef) (c : ChiralType) : heap → heap :=
    update_atom a (λ x, mkAtom (AtomicNum x) (IsAromatic x) (NoImplicit x) (NumExplicitHs x) c).
End AtomAPI.

(** Is bond [b] incident to the atom with index [i]? *)
Definition incident (i : nat) (b : Bond) : bool :=
  (BeginAtomIdx b =? i) || (EndAtomIdx b =? i).

(** The indices of the bonds of [m] incident to atom [i], in index order. *)
Definition incident_bonds (m : Mol) (i : nat) : list nat :=
  filter (λ j, incident i (bonds m !!! j) = true) (seq 0 (length (bonds m))).

Module BondAPI.
Definition GetIdx (b : BondRef) : nat := bond_idx b.
Definition GetBeginAtomIdx (h : heap) (b : BondRef) : nat := BeginAtomIdx (the_bond h b).
Definition GetEndAtomIdx (h : heap) (b : BondRef) : nat := EndAtomIdx (the_bond h b).
Definition GetBondType (h : heap) (b : BondRef) : BondType.t := Type_ (the_bond h b).
Definition SetBondType (b : BondRef) (t : BondType.t) : heap → heap :=
    update_bond b (λ x, mkBond (BeginAtomIdx x) (EndAtomIdx x) t).

  (** [bond.GetOtherAtom(atom)]: the end that is not [atom] (RDKit raises when
      [atom] is on neither end; the module only asks for bonds of [atom]). *)
Definition GetOtherAtom (h : heap) (b : BondRef) (a : AtomRef) : AtomRef :=
    let x := the_bond h b in
    if BeginAtomIdx x =? atom_idx a
    then mkAtomRef (bond_mol b) (EndAtomIdx x)
    else mkAtomRef (bond_mol b) (BeginAtomIdx x).
End BondAPI.

(** [atom.GetBonds()], [atom.GetDegree()], [atom.GetNeighbors()] *)
Definition GetBonds (h : heap) (a : AtomRef) : list BondRef :=
  mkBondRef (atom_mol a) <$> incident_bonds (the_mol h (atom_mol a)) (atom_idx a).

Definition GetDegree (h : heap) (a : AtomRef) : nat := length (GetBonds h a).

Definition GetNeighbors (h : heap) (a : AtomRef) : list AtomRef :=
  (λ b, BondAPI.GetOtherAtom h b a) <$> GetBonds h a.

(** [RingInfo.NumAtomRings], [RingInfo.NumBondRings] *)
Definition NumAtomRings (info : list Ring) (i : nat) : nat :=
  length (filter (λ r, i ∈ aix r) info).
Definition NumBondRings (info : list Ring) (i : nat) : nat :=
  length (filter (λ r, i ∈ bix r) info).

(** [atom.IsInRing()], [bond.IsInRing()]: membership in the owning molecule's
    ring information. *)
Definition Atom_IsInRing (h : heap) (a : AtomRef) : bool :=
  negb (NumAtomRings (ring_info (the_mol h (atom_mol a))) (atom_idx a) =? 0).
Definition Bond_IsInRing (h : heap) (b : BondRef) : bool :=
  negb (NumBondRings (ring_info (the_mol h (bond_mol b))) (bond_idx b) =? 0).

(** [RWMol(mol)]: an editable copy, a new object. *)
Definition RWMol (mol : loc) (h : heap) : heap * loc := alloc (the_mol h mol) h.

(** ** The chemistry toolkit *)

(** [rdkit.Chem.SanitizeFlags] *)
Module SanitizeFlags.
Definition SANITIZE_CLEANUP : Z := 0x1.
Definition SANITIZE_PROPERTIES : Z := 0x2.
Definition SANITIZE_SYMMRINGS : Z := 0x4.
Definition SANITIZE_KEKULIZE : Z := 0x8.
Definition SANITIZE_FINDRADICALS : Z := 0x10.
Definition SANITIZE_SETAROMATICITY : Z := 0x20.
Definition SANITIZE_SETCONJUGATION : Z := 0x40.
Definition SANITIZE_SETHYBRIDIZATION : Z := 0x80.
Definition SANITIZE_CLEANUPCHIRALITY : Z := 0x100.
Definition SANITIZE_ADJUSTHS : Z := 0x200.
Definition SANITIZE_ALL : Z := 0xFFFFFFF.
End SanitizeFlags.

(** What [SanitizeMol] does to a molecule: it works in place and either
    returns, or raises a sanitization exception (a [ValueError] in Python).
    Either way the molecule is left in the state carried here. *)
Inductive sanitized :=
  | Sanitized (m : Mol)
  | SanitizeException (m : Mol).

(** The operations the module asks of RDKit whose result is chemistry. *)
Class ChemEngine := {
  (** [RWMol.RemoveBond(i, j)], [RWMol.RemoveAtom(i)] on the molecule value *)
  RemoveBond : nat → nat → Mol → Mol;
  RemoveAtom : nat → Mol → Mol;
  (** [SanitizeMol(mol, sanitizeOps=ops)] *)
  SanitizeMol : Z → Mol → sanitized;
  (** [GetMolFrags(mol, asMols=True, sanitizeFrags=False)]: new molecules *)
  GetMolFrags : Mol → list Mol;
  (** [MurckoScaffold.GetScaffoldForMol], [MurckoScaffold.MakeScaffoldGeneric]:
      new molecules *)
  GetScaffoldForMol : Mol → Mol;
  MakeScaffoldGeneric : Mol → Mol;
  (** [rdmolops.RemoveStereochemistry(mol)], in place *)
  RemoveStereochemistry : Mol → Mol;
  (** the grouping of a molecule's rings into ring systems *)
  GetRingSystems : Mol → list Ring;
  (** the canonical structural key Scaffolds are compared and hashed by *)
  CanonicalKey : Mol → string
}.

(** ** Scaffolds *)

(** Modelled from the spec: class [Scaffold] of [scaffoldgraph.core.scaffold],
    which is not part of the source at hand.  A Scaffold wraps one molecule
    object; its ring set is the molecule's ring information ([rings.info]
    counts memberships in it, [rings.count] and [len(rings)] are its number of
    rings), its ring-system set is the toolkit's grouping of these rings, and
    equality and hashing go by the toolkit's canonical key.  The derived data
    is computed once, from the molecule as it is when the Scaffold is built.
    [removed_ring_idx] is the provenance attribute [fragment] sets. *)
Record Scaffold := mkScaffold {
  mol : loc;
  rings : list Ring;
  ring_systems : list Ring;
  key : string;
  removed_ring_idx : option nat
}.

Definition new_Scaffold `{ChemEngine} (h : heap) (rdmol : loc) : Scaffold :=
  let m := the_mol h rdmol in
  mkScaffold rdmol (ring_info m) (GetRingSystems m) (CanonicalKey m) None.

(** [parent.removed_ring_idx = rix] *)
Definition set_removed_ring_idx (rix : nat) (s : Scaffold) : Scaffold :=
  mkScaffold (mol s) (rings s) (ring_systems s) (key s) (Some rix).

(** [ring.atoms]: the atom objects of the ring, atoms of the Scaffold's own
    molecule. *)
Definition ring_atoms (s : Scaffold) (ring : Ring) : list AtomRef :=
  GetAtomWithIdx (mol s) <$> aix ring.

(** Scaffold [__eq__]. *)
Definition Scaffold_eqb (a b : Scaffold) : bool := bool_decide (key a = key b).

(** A Python [set] of Scaffolds: no two members are equal; adding a Scaffold
    equal to a member changes nothing.  Members are kept in the order they
    were added (a Python set iterates in an order of its own). *)
Definition Scaffold_in (s : Scaffold) (ss : list Scaffold) : bool :=
  existsb (Scaffold_eqb s) ss.
Definition Scaffold_set_add (s : Scaffold) (ss : list Scaffold) : list Scaffold :=
  if Scaffold_in s ss then ss else ss ++ [s].

(** ** Loops *)

(** A [for] loop over [l] threading a state, whose body may fail to return. *)
Fixpoint for_each {A S : Type} (body : A → S → option S) (l : list A) (s : S)
  : option S :=
  match l with
  | [] => Some s
  | x :: l' => s' ← body x s; for_each body l' s'
  end.

(** ** [correct_atom_props] *)

Definition correct_atom_props (atom : AtomRef) (h : heap) : heap :=
  if AtomAPI.GetIsAromatic h atom && negb (AtomAPI.GetAtomicNum h atom =? 6) then
    AtomAPI.SetNumExplicitHs atom 1 h
  else if AtomAPI.GetNoImplicit h atom
          || negb (bool_decide (AtomAPI.GetChiralTag h atom = CHI_UNSPECIFIED)) then
    AtomAPI.SetChiralTag atom CHI_UNSPECIFIED
      (AtomAPI.SetNumExplicitHs atom 0
        (AtomAPI.SetNoImplicit atom false h))
  else h.

(** ** [collect_linker_atoms] *)

(** The variables the closure [collect] works on: the molecule store, the
    caller's [remove_atoms], and the local [visited] and [ring_attachments]. *)
Record Collector := mkCollector {
  c_heap : heap;
  remove_atoms : gset nat;
  visited : gset nat;
  ring_attachments : gset nat
}.

Definition remove_atoms_add (i : nat) (c : Collector) : Collector :=
  mkCollector (c_heap c) ({[i]} ∪ remove_atoms c) (visited c) (ring_attachments c).
Definition remove_atoms_discard (i : nat) (c : Collector) : Collector :=
  mkCollector (c_heap c) (remove_atoms c ∖ {[i]}) (visited c) (ring_attachments c).
Definition visited_add (i : nat) (c : Collector) : Collector :=
  mkCollector (c_heap c) (remove_atoms c) ({[i]} ∪ visited c) (ring_attachments c).
Definition ring_attachments_add (i : nat) (c : Collector) : Collector :=
  mkCollector (c_heap c) (remove_atoms c) (visited c) ({[i]} ∪ ring_attachments c).
Definition on_heap (f : heap → heap) (c : Collector) : Collector :=
  mkCollector (f (c_heap c)) (remove_atoms c) (visited c) (ring_attachments c).

(** The number of neighbours of [other_atom] that are not terminal. *)
Definition non_terminal_branches (h : heap) (other_atom : AtomRef) : nat :=
  length (filter (λ neighbor, GetDegree h neighbor ≠ 1) (GetNeighbors h other_atom)).

(** The branching-point case that links two rings (the last [else] of the
    loop body). *)
Definition collect_hub (origin_atom other_atom : AtomRef) (bond : BondRef)
    (c : Collector) : Collector :=
  let bond_id := BondAPI.GetIdx bond in
  let c :=
    if negb (bool_decide (BondAPI.GetBondType (c_heap c) bond = BondType.DOUBLE)) then
      visited_add bond_id
        (on_heap (correct_atom_props other_atom)
          (remove_atoms_add (AtomAPI.GetIdx origin_atom) c))
    else c in
  if Atom_IsInRing (c_heap c) other_atom then
    ring_attachments_add (AtomAPI.GetIdx other_atom) c
  else c.

(** The body of the loop [for bond in origin_atom.GetBonds()] of the closure
    [collect]; [collect] stands for the recursive call. *)
Definition collect_bond (collect : AtomRef → Collector → option Collector)
    (origin_atom : AtomRef) (bond : BondRef) (c : Collector) : option Collector :=
  let bond_id := BondAPI.GetIdx bond in
  if bool_decide (bond_id ∈ visited c) || Bond_IsInRing (c_heap c) bond then
    Some c (* continue *)
  else
    let other_atom := BondAPI.GetOtherAtom (c_heap c) bond origin_atom in
    let other_degree := GetDegree (c_heap c) other_atom in
    if other_degree =? 1 then
      Some (visited_add bond_id
             (on_heap (correct_atom_props origin_atom)
               (remove_atoms_add (AtomAPI.GetIdx other_atom)
                 (remove_atoms_add (AtomAPI.GetIdx origin_atom) c))))
    else if other_degree =? 2 then
      collect other_atom
        (visited_add bond_id (remove_atoms_add (AtomAPI.GetIdx origin_atom) c))
    else if 2 <? other_degree then
      if non_terminal_branches (c_heap c) other_atom <? 3 then
        collect other_atom
          (visited_add bond_id (remove_atoms_add (AtomAPI.GetIdx origin_atom) c))
      else
        Some (collect_hub origin_atom other_atom bond c)
    else Some c.

(** The closure [collect].  Python recursion has no explicit bound; [fuel]
    bounds the depth of the recursion here, and [None] means it ran out. *)
Fixpoint collect (fuel : nat) (origin_atom : AtomRef) (c : Collector)
  : option Collector :=
  match fuel with
  | O => None
  | S fuel' =>
      for_each (collect_bond (collect fuel') origin_atom)
               (GetBonds (c_heap c) origin_atom) c
  end.

(** Every recursive call follows the marking of a bond not visited before, so
    the recursion is never deeper than the number of bonds of the molecule
    ([collect_enough_fuel] below). *)
Definition collect_depth (h : heap) (origin : AtomRef) : nat :=
  S (length (bonds (the_mol h (atom_mol origin)))).

(** Returns the store, the caller's [remove_atoms] as the call leaves it, and
    the returned [ring_attachments]. *)
Definition collect_linker_atoms (origin : AtomRef) (remove : gset nat)
    (include_origin : bool) (h : heap) : option (heap * gset nat * gset nat) :=
  c ← collect (collect_depth h origin) origin (mkCollector h remove ∅ ∅);
  let c := if negb include_origin then remove_atoms_discard (AtomAPI.GetIdx origin) c
           else c in
  let c := if Atom_IsInRing (c_heap c) origin
           then ring_attachments_add (AtomAPI.GetIdx origin) c else c in
  Some (c_heap c, remove_atoms c, ring_attachments c).

(** ** [partial_sanitization], [get_scaffold_frags] *)

Section Fragmentation.
Context `{ChemEngine}.

(** The exception [partial_sanitization] can leave with. *)
Inductive exn := ValueError.

(** [SanitizeMol] with all operations but cleanup, chirality cleanup and the
    search for radicals; in place. *)
Definition partial_sanitization (mol : loc) (h : heap) : heap * option exn :=
  let sanitizeOps :=
    Z.lxor (Z.lxor (Z.lxor SanitizeFlags.SANITIZE_ALL SanitizeFlags.SANITIZE_CLEANUP)
                   SanitizeFlags.SANITIZE_CLEANUPCHIRALITY)
           SanitizeFlags.SANITIZE_FINDRADICALS in
  match SanitizeMol sanitizeOps (the_mol h mol) with
  | Sanitized m => (update_mol mol (λ _, m) h, None)
  | SanitizeException m => (update_mol mol (λ _, m) h, Some ValueError)
  end.

(** New molecule objects for the values in [ms]; returns their locations. *)
Definition alloc_all (ms : list Mol) (h : heap) : heap * list loc :=
  foldl (λ '(h, ls) m, let '(h, l) := alloc m h in (h, ls ++ [l])) (h, []) ms.

(** The set comprehension [{Scaffold(f) for f in ...}]. *)
Definition Scaffold_set (h : heap) (fs : list loc) : list Scaffold :=
  foldl (λ ss f, Scaffold_set_add (new_Scaffold h f) ss) [] fs.

(** The [except ValueError] branch also logs the exception, which has no
    effect on the store or the result. *)
Definition get_scaffold_frags (frag : loc) (h : heap) : heap * list Scaffold :=
  match partial_sanitization frag h with
  | (h, Some ValueError) => (h, [])
  | (h, None) =>
      let '(h, fs) := alloc_all (GetMolFrags (the_mol h frag)) h in
      (h, Scaffold_set h fs)
  end.

(** ** The fragmenters *)

(** The abstract class [Fragmenter]: an object with a [fragment] method;
    [__call__] is an alias of it. *)
Record Fragmenter := mkFragmenter {
  fragment : Scaffold → heap → option (heap * list Scaffold)
}.
Definition Fragmenter_call (f : Fragmenter) := fragment f.

(** The parts of one round of the loop over the rings, in the order of the
    comments of [MurckoRingFragmenter.fragment]. *)

(** "Collect all removable atoms in the molecule": the body of the loop over
    [zip(ring.aix, ring.atoms)]. *)
Definition removable_atom (info : list Ring) (edit : loc) (x : nat * AtomRef)
    (st : heap * gset nat) : option (heap * gset nat) :=
  let '(index, atom) := x in
  let '(h, remove_atoms) := st in
  if NumAtomRings info index =? 1 then
    if 2 <? GetDegree h atom then
      '(h, remove_atoms, _) ←
        collect_linker_atoms (GetAtomWithIdx edit index) remove_atoms true h;
      Some (h, remove_atoms)
    else Some (h, {[index]} ∪ remove_atoms)
  else Some (correct_atom_props (GetAtomWithIdx edit index) h, remove_atoms).

Definition removable_atoms (scaffold : Scaffold) (ring : Ring) (edit : loc)
    (h : heap) : option (heap * gset nat) :=
  for_each (removable_atom (rings scaffold) edit)
           (zip (aix ring) (ring_atoms scaffold ring)) (h, ∅).

(** "Collect removable bonds": the body of the loop over the bonds of the
    ring that are in one ring only. *)
Definition removable_bond (edit : loc) (remove_atoms : gset nat)
    (st : heap * gset (nat * nat)) (bix : nat) : heap * gset (nat * nat) :=
  let '(h, remove_bonds) := st in
  let bond := GetBondWithIdx edit bix in
  let b_x := BondAPI.GetBeginAtomIdx h bond in
  let b_y := BondAPI.GetEndAtomIdx h bond in
  if bool_decide (b_x ∉ remove_atoms) && bool_decide (b_y ∉ remove_atoms) then
    (correct_atom_props (GetAtomWithIdx edit b_y)
       (correct_atom_props (GetAtomWithIdx edit b_x) h),
     {[(b_x, b_y)]} ∪ remove_bonds)
  else st.

(** The set [{x for x in ring.bix if rings.info.NumBondRings(x) == 1}]. *)
Definition unshared_bonds (info : list Ring) (ring : Ring) : gset nat :=
  list_to_set (filter (λ x, NumBondRings info x = 1) (bix ring)).

Definition removable_bonds (scaffold : Scaffold) (ring : Ring) (edit : loc)
    (remove_atoms : gset nat) (h : heap) : heap * gset (nat * nat) :=
  foldl (removable_bond edit remove_atoms) (h, ∅)
        (elements (unshared_bonds (rings scaffold) ring)).

(** The set [{x for x in ring.bix if rings.info.NumBondRings(x) > 1}]. *)
Definition shared_bonds (info : list Ring) (ring : Ring) : gset nat :=
  list_to_set (filter (λ x, 1 < NumBondRings info x) (bix ring)).

(** "Scheme 4 (scaffold tree rule)"; [len(ring)] is the number of atoms of
    the ring, and [shared.pop()] takes the one member of [shared]. *)
Definition scheme_4 (use_scheme_4 : bool) (scaffold : Scaffold) (ring : Ring)
    (edit : loc) (h : heap) : heap :=
  if use_scheme_4 && (length (aix ring) =? 3) then
    let atomic_nums := AtomAPI.GetAtomicNum h <$> ring_atoms scaffold ring in
    if length (filter (λ a, a ≠ 1 ∧ a ≠ 6) atomic_nums) =? 1 then
      let shared := shared_bonds (rings scaffold) ring in
      if size shared =? 1 then
        match elements shared with
        | x :: _ => BondAPI.SetBondType (GetBondWithIdx edit x) BondType.DOUBLE h
        | [] => h
        end
      else h
    else h
  else h.

(** [sorted(remove_atoms, reverse=True)] *)
Definition sorted_reverse (s : gset nat) : list nat :=
  merge_sort (flip (≤)) (elements s).

(** "Remove collected atoms and bonds" *)
Definition remove_collected (edit : loc) (remove_bonds : gset (nat * nat))
    (remove_atoms : gset nat) (h : heap) : heap :=
  let h := foldl (λ h '(b_x, b_y), update_mol edit (RemoveBond b_x b_y) h)
                 h (elements remove_bonds) in
  foldl (λ h aix, update_mol edit (RemoveAtom aix) h) h (sorted_reverse remove_atoms).

(** "Add new parent scaffolds to parent list": the body of the loop over
    [get_scaffold_frags(edit)].  [count] is the number of rings (ring
    fragmenter) or of ring systems (ring-system fragmenter) of a Scaffold;
    the comparison is Python's, on integers. *)
Definition add_parent (count : Scaffold → nat) (n : nat) (rix : nat)
    (parents : list Scaffold) (parent : Scaffold) : list Scaffold :=
  if bool_decide (Z.of_nat (count parent) = (Z.of_nat n - 1)%Z) then
    parents ++ [set_removed_ring_idx rix parent]
  else parents.

Definition ring_count (s : Scaffold) : nat := length (rings s).
Definition ring_system_count (s : Scaffold) : nat := length (ring_systems s).

(** One round of the loop [for rix, ring in enumerate(rings)] of
    [MurckoRingFragmenter.fragment]. *)
Definition MurckoRingFragmenter_ring (use_scheme_4 : bool) (scaffold : Scaffold)
    (x : nat * Ring) (st : heap * list Scaffold) : option (heap * list Scaffold) :=
  let '(rix, ring) := x in
  let '(h, parents) := st in
  let '(h, edit) := RWMol (mol scaffold) h in
  '(h, remove_atoms) ← removable_atoms scaffold ring edit h;
  let '(h, remove_bonds) := removable_bonds scaffold ring edit remove_atoms h in
  let h := scheme_4 use_scheme_4 scaffold ring edit h in
  let h := remove_collected edit remove_bonds remove_atoms h in
  let '(h, frags) := get_scaffold_frags edit h in
  Some (h, foldl (add_parent ring_count (length (rings scaffold)) rix) parents frags).

(** [enumerate(l)] *)
Definition enumerate {A : Type} (l : list A) : list (nat * A) :=
  zip (seq 0 (length l)) l.

Definition MurckoRingFragmenter_fragment (use_scheme_4 : bool)
    (scaffold : Scaffold) (h : heap) : option (heap * list Scaffold) :=
  for_each (MurckoRingFragmenter_ring use_scheme_4 scaffold)
           (enumerate (rings scaffold)) (h, []).

Definition MurckoRingFragmenter (use_scheme_4 : bool) : Fragmenter :=
  mkFragmenter (MurckoRingFragmenter_fragment use_scheme_4).

(** The loop over the atoms of a ring system of
    [MurckoRingSystemFragmenter.fragment]. *)
Definition system_removable_atom (info : list Ring) (edit : loc) (x : nat * AtomRef)
    (st : heap * gset nat) : option (heap * gset nat) :=
  let '(index, atom) := x in
  let '(h, remove_atoms) := st in
  if NumAtomRings info index =? 1 then
    if 2 <? GetDegree h atom then
      '(h, remove_atoms, _) ←
        collect_linker_atoms (GetAtomWithIdx edit index) remove_atoms true h;
      Some (h, remove_atoms)
    else Some (h, {[index]} ∪ remove_atoms)
  else Some (h, {[index]} ∪ remove_atoms).

Definition MurckoRingSystemFragmenter_ring (scaffold : Scaffold)
    (x : nat * Ring) (st : heap * list Scaffold) : option (heap * list Scaffold) :=
  let '(rix, ring) := x in
  let '(h, parents) := st in
  let info := rings scaffold in
  let '(h, edit) := RWMol (mol scaffold) h in
  '(h, remove_atoms) ←
    for_each (system_removable_atom info edit)
             (zip (aix ring) (ring_atoms scaffold ring)) (h, ∅);
  let h := foldl (λ h aix, update_mol edit (RemoveAtom aix) h) h
                 (sorted_reverse remove_atoms) in
  let '(h, frags) := get_scaffold_frags edit h in
  Some (h, foldl (add_parent ring_system_count (length (ring_systems scaffold)) rix)
                 parents frags).

Definition MurckoRingSystemFragmenter_fragment (scaffold : Scaffold) (h : heap)
  : option (heap * list Scaffold) :=
  let rings := ring_systems scaffold in
  if length rings =? 1 then Some (h, [])
  else for_each (MurckoRingSystemFragmenter_ring scaffold) (enumerate rings) (h, []).

Definition MurckoRingSystemFragmenter : Fragmenter :=
  mkFragmenter MurckoRingSystemFragmenter_fragment.

(** ** Entry points *)

Definition get_murcko_scaffold (mol : loc) (generic : bool) (h : heap) : heap * loc :=
  let '(h, murcko) := alloc (GetScaffoldForMol (the_mol h mol)) h in
  if generic then alloc (MakeScaffoldGeneric (the_mol h murcko)) h
  else (h, murcko).

(** [set(l)] *)
Definition to_Scaffold_set (l : list Scaffold) : list Scaffold :=
  foldl (λ ss s, Scaffold_set_add s ss) [] l.

Definition get_next_murcko_fragments (murcko_scaffold : loc)
    (break_fused_rings : bool) (h : heap) : option (heap * list loc) :=
  let fragmenter :=
    if break_fused_rings then MurckoRingFragmenter false
    else MurckoRingSystemFragmenter in
  '(h, parents) ← fragment fragmenter (new_Scaffold h murcko_scaffold) h;
  Some (h, mol <$> to_Scaffold_set parents).

(** The closure [recursive_generation] of [get_all_murcko_fragments], on the
    store and the set [parents].  [fuel] bounds the depth of the recursion;
    [None] means it ran out. *)
Definition visit_parent
    (recursive_generation : Scaffold → heap * list Scaffold → option (heap * list Scaffold))
    (parent : Scaffold) (st : heap * list Scaffold) : option (heap * list Scaffold) :=
  let '(h, parents) := st in
  if Scaffold_in parent parents then Some st (* continue *)
  else recursive_generation parent (h, parents ++ [parent]).

Fixpoint recursive_generation (fragmenter : Fragmenter) (fuel : nat)
    (child : Scaffold) (st : heap * list Scaffold) : option (heap * list Scaffold) :=
  match fuel with
  | O => None
  | S fuel' =>
      let '(h, parents) := st in
      '(h, next) ← fragment fragmenter child h;
      for_each (visit_parent (recursive_generation fragmenter fuel')) next (h, parents)
  end.

Definition get_all_murcko_fragments (fuel : nat) (mol_ : loc)
    (break_fused_rings : bool) (h : heap) : option (heap * list loc) :=
  let fragmenter :=
    if break_fused_rings then MurckoRingFragmenter false
    else MurckoRingSystemFragmenter in
  let '(h, mol_) := get_murcko_scaffold mol_ false h in
  let h := update_mol mol_ RemoveStereochemistry h in
  let scaffold := new_Scaffold h mol_ in
  match recursive_generation fragmenter fuel scaffold (h, [scaffold]) with
  | Some (h, parents) => Some (h, mol <$> parents)
  | None => None
  end.

End Fragmentation.

(** ** [get_annotated_murcko_scaffold] *)

(** The two toolkit operations only [get_annotated_murcko_scaffold] asks for. *)
Class DepictionEngine := {
  (** [rdmolops.ReplaceSidechains(mol, coreQuery)]: a new molecule, or
      [None] when the core does not match *)
  ReplaceSidechains : Mol → Mol → option Mol;
  (** [MolToSmiles(mol)] *)
  MolToSmiles : Mol → string
}.

(** What [get_annotated_murcko_scaffold] returns: a molecule object, [None],
    or a string. *)
Inductive annotation :=
  | AsMol (l : loc)
  | AsNone
  | AsSmiles (s : string).

Section Annotation.
Context `{ChemEngine} `{DepictionEngine}.

(** [scaffold] is the optional template ([None] by default; a molecule object
    is true in Python, so [not scaffold] holds for [None] only). *)
Definition get_annotated_murcko_scaffold (mol : loc) (scaffold : option loc)
    (as_mol : bool) (h : heap) : heap * annotation :=
  let '(h, scaffold) :=
    match scaffold with
    | Some scaffold => (h, scaffold)
    | None => alloc (GetScaffoldForMol (the_mol h mol)) h
    end in
  match ReplaceSidechains (the_mol h mol) (the_mol h scaffold) with
  | Some m =>
      let '(h, annotated) := alloc m h in
      if as_mol then (h, AsMol annotated)
      else (h, AsSmiles (MolToSmiles (the_mol h annotated)))
  | None =>
      if as_mol then (h, AsNone)
      else (h, AsSmiles EmptyString)
  end.

End Annotation.

(** * Predicates the theorems are stated with *)

#[global] Instance AtomRef_eq_dec : EqDecision AtomRef.
Proof. solve_decision. Defined.
#[global] Instance BondRef_eq_dec : EqDecision BondRef.
Proof. solve_decision. Defined.

(** The atom object [a] exists in the store [h]. *)
Definition valid_atom (h : heap) (a : AtomRef) : Prop :=
  atom_mol a < length h ∧ atom_idx a < length (atoms (the_mol h (atom_mol a))).

#[global] Instance valid_atom_dec h a : Decision (valid_atom h a).
Proof. unfold valid_atom. apply _. Defined.

(** The atom as the spec says the Atom Property Corrector leaves it (spec
    4.2): explicit-hydrogen count 1 for an aromatic atom that is not carbon;
    otherwise suppression flag cleared, explicit-hydrogen count 0 and chirality
    unspecified when the atom suppresses implicit hydrogens or has a chirality
    tag; otherwise unchanged. *)
Definition corrected_atom (a : Atom) : Atom :=
  if IsAromatic a && negb (AtomicNum a =? 6) then
    mkAtom (AtomicNum a) (IsAromatic a) (NoImplicit a) 1 (ChiralTag a)
  else if NoImplicit a || negb (bool_decide (ChiralTag a = CHI_UNSPECIFIED)) then
    mkAtom (AtomicNum a) (IsAromatic a) false 0 CHI_UNSPECIFIED
  else a.

(** [h'] is [h] but for the atoms of the molecule at [l]: the same objects,
    all other molecules as they were, and the molecule at [l] with the bonds
    and the ring information it had. *)
Record edits_atoms_at (l : loc) (h h' : heap) : Prop := {
  eaa_length : length h' = length h;
  eaa_others : ∀ l', l' ≠ l → h' !! l' = h !! l';
  eaa_bonds : bonds (the_mol h' l) = bonds (the_mol h l);
  eaa_rings : ring_info (the_mol h' l) = ring_info (the_mol h l)
}.

(** [h'] is [h] but for hydrogen counts, suppression flags and chirality
    tags of atoms of the molecule at [l]: every molecule has the atoms it
    had, with their elements and aromaticity, and its bonds and rings. *)
Record keeps_graph (l : loc) (h h' : heap) : Prop := {
  kg_edits : edits_atoms_at l h h';
  kg_atoms : ∀ l', length (atoms (the_mol h' l')) = length (atoms (the_mol h l'));
  kg_elements : ∀ a, AtomicNum (the_atom h' a) = AtomicNum (the_atom h a) ∧
                     IsAromatic (the_atom h' a) = IsAromatic (the_atom h a)
}.

(** The closure state [c'] comes after [c] in a run of [collect] on the
    molecule at [l]: the store differs in atoms of that molecule only, and the
    three sets have only grown. *)
Record collector_le (l : loc) (c c' : Collector) : Prop := {
  cle_heap : edits_atoms_at l (c_heap c) (c_heap c');
  cle_remove : remove_atoms c ⊆ remove_atoms c';
  cle_visited : visited c ⊆ visited c';
  cle_attach : ring_attachments c ⊆ ring_attachments c'
}.

(** The number of bonds of the molecule at [l] that [collect] has not marked
    as visited. *)
Definition unvisited (l : loc) (c : Collector) : nat :=
  size (set_seq 0 (length (bonds (the_mol (c_heap c) l))) ∖ visited c : gset nat).

(** The number of ring bonds at atom [i]. *)
Definition ring_degree (m : Mol) (i : nat) : nat :=
  length (filter (λ j, NumBondRings (ring_info m) j ≠ 0) (incident_bonds m i)).

(** The ring information of [m] fits its graph, as perceived rings do: an
    atom of a ring has two ring bonds or more, and the bonds of a ring join
    atoms of that ring. *)
Definition ring_info_wf (m : Mol) : Prop :=
  Forall (λ r, Forall (λ i, 2 ≤ ring_degree m i) (aix r)) (ring_info m) ∧
  Forall (λ r, Forall (λ j, BeginAtomIdx (bonds m !!! j) ∈ aix r ∧
                            EndAtomIdx (bonds m !!! j) ∈ aix r) (bix r))
         (ring_info m).

#[global] Instance ring_info_wf_dec m : Decision (ring_info_wf m).
Proof. unfold ring_info_wf. apply _. Defined.

(** What a run of [collect] from the atom [x] of the molecule at [l] adds:
    to [remove_atoms], [x] itself or atoms of no ring; to [visited], bonds of
    no ring. *)
Record spares_rings (l : loc) (x : nat) (c c' : Collector) : Prop := {
  sr_le : collector_le l c c';
  sr_atoms : ∀ a, a ∈ remove_atoms c' →
    a ∈ remove_atoms c ∨ a = x ∨ NumAtomRings (ring_info (the_mol (c_heap c) l)) a = 0;
  sr_bonds : ∀ b, b ∈ visited c' →
    b ∈ visited c ∨ NumBondRings (ring_info (the_mol (c_heap c) l)) b = 0
}.

(** [h'] is [h] but for the molecule at [l]. *)
Definition edits_at (l : loc) (h h' : heap) : Prop :=
  length h' = length h ∧ ∀ l', l' ≠ l → h' !! l' = h !! l'.

(** Every molecule object of [h] is in [h'], as it was. *)
Definition heap_extends (h h' : heap) : Prop :=
  ∀ l m, h !! l = Some m → h' !! l = Some m.

(** What a run of [recursive_generation] does to the store and to the set
    [parents]: the store keeps its molecules, the set keeps its members in
    place, and no two members become equal. *)
Definition generation_grows (st st' : heap * list Scaffold) : Prop :=
  heap_extends st.1 st'.1 ∧ (∃ k, st'.2 = st.2 ++ k) ∧
  (NoDup (key <$> st.2) → NoDup (key <$> st'.2)).

(** [p] is what a fragmenter returns as a parent on a store that was [h]
    before the call and is [h'] now: the Scaffold of a molecule object made
    since, tagged with the index of one of the [n] rings (or ring systems) of
    the child. *)
Definition parent_of `{ChemEngine} (h h' : heap) (n : nat) (p : Scaffold) : Prop :=
  length h ≤ mol p < length h' ∧
  ∃ rix, rix < n ∧ p = set_removed_ring_idx rix (new_Scaffold h' (mol p)).

(** [p] is a Scaffold of the molecule object at [mol p] of the store [h]:
    its rings, ring systems and key are those of that molecule. *)
Definition Scaffold_of `{ChemEngine} (h : heap) (p : Scaffold) : Prop :=
  mol p < length h ∧
  rings p = ring_info (the_mol h (mol p)) ∧
  ring_systems p = GetRingSystems (the_mol h (mol p)) ∧
  key p = CanonicalKey (the_mol h (mol p)).

(** * A reference toolkit

    An instance of [ChemEngine] to run the module on worked examples: graph
    edits that renumber as RDKit's do, a sanitization that checks valences
    only, connected components by label propagation, ring systems as the rings
    that share atoms, and a key made of the atom and bond counts by kind.  It
    keeps ring information up to date through removals (a ring that loses an
    atom or a bond is a ring no more), where RDKit perceives rings again on
    sanitization. *)
Module Reference.

(** The index of an item once the item at [k] is gone. *)
Definition shift (k i : nat) : nat := if k <? i then i - 1 else i.

Definition connects (x y : nat) (b : Bond) : bool :=
  (BeginAtomIdx b =? x) && (EndAtomIdx b =? y)
  || (BeginAtomIdx b =? y) && (EndAtomIdx b =? x).

Definition drop_bond (j : nat) (m : Mol) : Mol :=
  mkMol (atoms m) (delete j (bonds m))
        ((λ r, mkRing (aix r) (shift j <$> bix r))
           <$> filter (λ r, j ∉ bix r) (ring_info m)).

Definition RemoveBond (x y : nat) (m : Mol) : Mol :=
  match list_find (λ b, connects x y b = true) (bonds m) with
  | Some (j, _) => drop_bond j m
  | None => m
  end.

Definition RemoveAtom (i : nat) (m : Mol) : Mol :=
  let m := foldl (λ m j, drop_bond j m) m (reverse (incident_bonds m i)) in
  mkMol (delete i (atoms m))
        ((λ b, mkBond (shift i (BeginAtomIdx b)) (shift i (EndAtomIdx b)) (Type_ b))
           <$> bonds m)
        ((λ r, mkRing (shift i <$> aix r) (bix r))
           <$> filter (λ r, i ∉ aix r) (ring_info m)).

Definition bond_order (t : BondType.t) : nat :=
  match t with
  | BondType.DOUBLE => 2
  | BondType.TRIPLE => 3
  | _ => 1
  end.

Definition valence (m : Mol) (i : nat) : nat :=
  sum_list ((λ j, bond_order (Type_ (bonds m !!! j))) <$> incident_bonds m i).

Definition max_valence (z : nat) : nat :=
  match z with
  | 1 => 1
  | 6 => 4
  | 7 => 4
  | 8 => 3
  | _ => 8
  end.

Definition valences_ok (m : Mol) : bool :=
  forallb (λ i, valence m i <=? max_valence (AtomicNum (atoms m !!! i)))
          (seq 0 (length (atoms m))).

Definition SanitizeMol (ops : Z) (m : Mol) : sanitized :=
  if valences_ok m then Sanitized m else SanitizeException m.

(** One sweep over the bonds: both ends of a bond take the smaller label. *)
Definition relabel (bs : list Bond) (lab : list nat) : list nat :=
  foldl (λ lab b,
           let x := BeginAtomIdx b in
           let y := EndAtomIdx b in
           let l := (lab !!! x) `min` (lab !!! y) in
           <[x:=l]> (<[y:=l]> lab))
        lab bs.

(** The smallest atom index of each atom's component. *)
Definition component_labels (m : Mol) : list nat :=
  Nat.iter (length (atoms m)) (relabel (bonds m)) (seq 0 (length (atoms m))).

(** The position in [kept] of the item [i]. *)
Definition position (kept : list nat) (i : nat) : nat :=
  length (filter (λ k, k < i) kept).

Definition component (m : Mol) (lab : list nat) (c : nat) : Mol :=
  let members := filter (λ i, lab !!! i = c) (seq 0 (length (atoms m))) in
  let kept := filter (λ j, lab !!! BeginAtomIdx (bonds m !!! j) = c)
                     (seq 0 (length (bonds m))) in
  mkMol ((λ i, atoms m !!! i) <$> members)
        ((λ j, let b := bonds m !!! j in
               mkBond (position members (BeginAtomIdx b))
                      (position members (EndAtomIdx b)) (Type_ b)) <$> kept)
        ((λ r, mkRing (position members <$> aix r) (position kept <$> bix r))
           <$> filter (λ r, Forall (λ i, lab !!! i = c) (aix r)) (ring_info m)).

Definition GetMolFrags (m : Mol) : list Mol :=
  let lab := component_labels m in
  component m lab <$> filter (λ c, lab !!! c = c) (seq 0 (length (atoms m))).

Definition is_side_atom (m : Mol) (i : nat) : bool :=
  match incident_bonds m i with
  | [] => true
  | [j] => negb (bool_decide (Type_ (bonds m !!! j) = BondType.DOUBLE))
  | _ => false
  end.

Definition strip_side_atom (m : Mol) : Mol :=
  match list_find (λ i, is_side_atom m i = true) (seq 0 (length (atoms m))) with
  | Some (_, i) => RemoveAtom i m
  | None => m
  end.

Definition GetScaffoldForMol (m : Mol) : Mol :=
  Nat.iter (length (atoms m)) strip_side_atom m.

Definition MakeScaffoldGeneric (m : Mol) : Mol :=
  mkMol ((λ a, mkAtom 6 false (NoImplicit a) (NumExplicitHs a) (ChiralTag a)) <$> atoms m)
        ((λ b, mkBond (BeginAtomIdx b) (EndAtomIdx b) BondType.SINGLE) <$> bonds m)
        (ring_info m).

Definition RemoveStereochemistry (m : Mol) : Mol :=
  mkMol ((λ a, mkAtom (AtomicNum a) (IsAromatic a) (NoImplicit a) (NumExplicitHs a)
                      CHI_UNSPECIFIED) <$> atoms m)
        (bonds m) (ring_info m).

Definition share_atom (r s : Ring) : bool :=
  existsb (λ i, bool_decide (i ∈ aix s)) (aix r).

Definition merge_rings (r s : Ring) : Ring :=
  mkRing (list_union (aix s) (aix r)) (list_union (bix s) (bix r)).

Definition add_ring (systems : list Ring) (r : Ring) : list Ring :=
  filter (λ s, share_atom s r = false) systems
  ++ [foldl merge_rings r (filter (λ s, share_atom s r = true) systems)].

Definition GetRingSystems (m : Mol) : list Ring :=
  foldl add_ring [] (ring_info m).

(** One number for an atom: element, degree, aromaticity, rings. *)
Definition atom_code (m : Mol) (i : nat) : nat :=
  let a := atoms m !!! i in
  AtomicNum a * 1000 + length (incident_bonds m i) * 100
  + (if IsAromatic a then 10 else 0) + NumAtomRings (ring_info m) i.

Definition bond_code (b : Bond) : nat :=
  match Type_ b with
  | BondType.SINGLE => 1
  | BondType.DOUBLE => 2
  | BondType.TRIPLE => 3
  | BondType.AROMATIC => 4
  | _ => 0
  end.

Definition CanonicalKey (m : Mol) : string :=
  let codes := merge_sort (≤) (atom_code m <$> seq 0 (length (atoms m)))
               ++ 0 :: merge_sort (≤) (bond_code <$> bonds m) in
  foldr (λ n s, pretty n +:+ "." +:+ s) EmptyString codes.

Definition engine : ChemEngine :=
  Build_ChemEngine RemoveBond RemoveAtom SanitizeMol GetMolFrags GetScaffoldForMol
    MakeScaffoldGeneric RemoveStereochemistry GetRingSystems CanonicalKey.

End Reference.

(** * Worked examples: molecules *)
Module Examples.

Definition c_arom : Atom := mkAtom 6 true false 0 CHI_UNSPECIFIED.
Definition C_ : Atom := mkAtom 6 false false 0 CHI_UNSPECIFIED.
Definition N_ : Atom := mkAtom 7 false false 0 CHI_UNSPECIFIED.
Definition O_ : Atom := mkAtom 8 false false 0 CHI_UNSPECIFIED.

Definition single (x y : nat) : Bond := mkBond x y BondType.SINGLE.
Definition double (x y : nat) : Bond := mkBond x y BondType.DOUBLE.
Definition aromatic (x y : nat) : Bond := mkBond x y BondType.AROMATIC.

(** Two benzene rings joined by a single bond (atoms 0 and 6). *)
Definition biphenyl : Mol :=
  mkMol (replicate 12 c_arom)
    [aromatic 0 1; aromatic 1 2; aromatic 2 3; aromatic 3 4; aromatic 4 5; aromatic 5 0;
     aromatic 6 7; aromatic 7 8; aromatic 8 9; aromatic 9 10; aromatic 10 11;
     aromatic 11 6; single 0 6]
    [mkRing [0; 1; 2; 3; 4; 5] [0; 1; 2; 3; 4; 5];
     mkRing [6; 7; 8; 9; 10; 11] [6; 7; 8; 9; 10; 11]].

(** Two fused benzene rings; the bond 4 (atoms 4 and 5) is shared. *)
Definition naphthalene : Mol :=
  mkMol (replicate 10 c_arom)
    [aromatic 0 1; aromatic 1 2; aromatic 2 3; aromatic 3 4; aromatic 4 5; aromatic 5 0;
     aromatic 4 6; aromatic 6 7; aromatic 7 8; aromatic 8 9; aromatic 9 5]
    [mkRing [0; 1; 2; 3; 4; 5] [0; 1; 2; 3; 4; 5];
     mkRing [4; 6; 7; 8; 9; 5] [6; 7; 8; 9; 10; 4]].

(** Two cyclohexane rings joined by a double bond (atoms 0 and 6). *)
Definition bicyclohexylidene : Mol :=
  mkMol (replicate 12 C_)
    [single 0 1; single 1 2; single 2 3; single 3 4; single 4 5; single 5 0;
     single 6 7; single 7 8; single 8 9; single 9 10; single 10 11; single 11 6;
     double 0 6]
    [mkRing [0; 1; 2; 3; 4; 5] [0; 1; 2; 3; 4; 5];
     mkRing [6; 7; 8; 9; 10; 11] [6; 7; 8; 9; 10; 11]].

(** An epoxide fused to cyclohexane (7-oxabicyclo[4.1.0]heptane): atom 0 is
    the oxygen, the bond 2 (atoms 1 and 2) is shared by the two rings. *)
Definition cyclohexene_oxide : Mol :=
  mkMol (O_ :: replicate 6 C_)
    [single 0 1; single 0 2; single 1 2; single 2 3; single 3 4; single 4 5;
     single 5 6; single 6 1]
    [mkRing [0; 1; 2] [0; 2; 1]; mkRing [1; 2; 3; 4; 5; 6] [2; 3; 4; 5; 6; 7]].

(** An aziridine fused to cyclohexane whose nitrogen (atom 0) carries a
    phenyl ring (7-phenyl-7-azabicyclo[4.1.0]heptane); the bond 2 (atoms 1
    and 2) is shared by the three- and the six-membered ring. *)
Definition phenyl_azabicycloheptane : Mol :=
  mkMol (N_ :: replicate 6 C_ ++ replicate 6 c_arom)
    [single 0 1; single 0 2; single 1 2; single 2 3; single 3 4; single 4 5;
     single 5 6; single 6 1; single 0 7;
     aromatic 7 8; aromatic 8 9; aromatic 9 10; aromatic 10 11; aromatic 11 12;
     aromatic 12 7]
    [mkRing [0; 1; 2] [0; 2; 1]; mkRing [1; 2; 3; 4; 5; 6] [2; 3; 4; 5; 6; 7];
     mkRing [7; 8; 9; 10; 11; 12] [9; 10; 11; 12; 13; 14]].

(** A carbon with five bonds: no valid molecule. *)
Definition pentavalent : Mol :=
  mkMol (replicate 6 C_) [single 0 1; single 0 2; single 0 3; single 0 4; single 0 5] [].

(** A toolkit whose [ReplaceSidechains] finds no match, whatever the core. *)
Definition no_match : DepictionEngine :=
  Build_DepictionEngine (λ _ _, None) (λ _, EmptyString).

(** The Scaffold of the molecule at [l] of the store [h], with the reference
    toolkit. *)
Definition scaffold_at (h : heap) (l : loc) : Scaffold :=
  new_Scaffold (H := Reference.engine) h l.

End Examples.

(** * Loops *)

Lemma for_each_inv {A S : Type} (R : S → S → Prop) (body : A → S → option S) l :
  (∀ s, R s s) →
  (∀ s1 s2 s3, R s1 s2 → R s2 s3 → R s1 s3) →
  (∀ x s s', x ∈ l → body x s = Some s' → R s s') →
  ∀ s s', for_each body l s = Some s' → R s s'.
Proof.
  intros Hrefl Htrans. induction l as [|x l IH]; simpl; intros Hbody s s' Hrun.
  - injection Hrun as <-. apply Hrefl.
  - destruct (body x s) as [s1|] eqn:Hx; simpl in Hrun; [|discriminate].
    eapply Htrans.
    + eapply Hbody; [left|exact Hx].
    + apply IH; [|exact Hrun]. intros y t t' Hy. apply Hbody. by right.
Qed.

Lemma for_each_is_Some {A S : Type} (I : S → Prop) (body : A → S → option S) l :
  (∀ x s, x ∈ l → I s → ∃ s', body x s = Some s' ∧ I s') →
  ∀ s, I s → ∃ s', for_each body l s = Some s' ∧ I s'.
Proof.
  induction l as [|x l IH]; simpl; intros Hbody s Hs.
  - eauto.
  - destruct (Hbody x s) as (s1 & -> & H1); [left|done|]. simpl.
    apply IH; [|done]. intros y t Hy. apply Hbody. by right.
Qed.

(** * The store *)

Lemma the_mol_update_mol l f h l' :
  the_mol (update_mol l f h) l' =
    if decide (l = l' ∧ l < length h) then f (the_mol h l) else the_mol h l'.
Proof. unfold the_mol, update_mol. apply list_lookup_total_alter. Qed.

Lemma the_mol_alloc h m : the_mol (h ++ [m]) (length h) = m.
Proof. unfold the_mol. apply list_lookup_total_correct. by apply list_lookup_middle. Qed.

Lemma length_update_mol l f h : length (update_mol l f h) = length h.
Proof. apply length_alter. Qed.

Lemma lookup_update_mol_ne l f h l' : l ≠ l' → update_mol l f h !! l' = h !! l'.
Proof. apply list_lookup_alter_ne. Qed.

Lemma edits_atoms_at_refl l h : edits_atoms_at l h h.
Proof. by split. Qed.

Lemma edits_atoms_at_trans l h1 h2 h3 :
  edits_atoms_at l h1 h2 → edits_atoms_at l h2 h3 → edits_atoms_at l h1 h3.
Proof.
  intros [L1 O1 B1 R1] [L2 O2 B2 R2]. split; [congruence| |congruence|congruence].
  intros l' Hl'. rewrite O2, O1; done.
Qed.

Lemma update_atom_edits a f h : edits_atoms_at (atom_mol a) h (update_atom a f h).
Proof.
  unfold update_atom. split.
  - apply length_update_mol.
  - intros l' Hl'. by apply lookup_update_mol_ne.
  - rewrite the_mol_update_mol. by case_decide.
  - rewrite the_mol_update_mol. by case_decide.
Qed.

Lemma correct_atom_props_edits a h :
  edits_atoms_at (atom_mol a) h (correct_atom_props a h).
Proof.
  unfold correct_atom_props, AtomAPI.SetNumExplicitHs, AtomAPI.SetChiralTag,
    AtomAPI.SetNoImplicit.
  repeat case_match; eauto using edits_atoms_at_refl, edits_atoms_at_trans, update_atom_edits.
Qed.

Lemma the_atom_update_atom a f h a' :
  the_atom (update_atom a f h) a' =
    if decide (a = a' ∧ valid_atom h a) then f (the_atom h a) else the_atom h a'.
Proof.
  unfold the_atom, update_atom, valid_atom. rewrite the_mol_update_mol.
  destruct a as [l i], a' as [l' i']; simpl.
  repeat case_decide; simpl; try rewrite list_lookup_total_alter;
    repeat case_decide; naive_solver.
Qed.

Lemma valid_atom_update_atom a f h a' :
  valid_atom (update_atom a f h) a' ↔ valid_atom h a'.
Proof.
  unfold valid_atom, update_atom. rewrite length_update_mol, the_mol_update_mol.
  case_decide as Hd; simpl.
  - destruct Hd as [-> Hd]. rewrite length_alter. tauto.
  - tauto.
Qed.

(** C7. After [correct_atom_props atom] the atom [atom] is what the spec's
    rule makes of it: explicit-hydrogen count 1 when it is aromatic and not
    carbon; otherwise suppression flag cleared, explicit-hydrogen count 0 and
    chirality unspecified when it suppressed implicit hydrogens or had a
    chirality tag; otherwise as it was.  Every other atom is as it was, and so
    are the bonds, the ring information and the other molecules. *)
Theorem correct_atom_props_spec (atom : AtomRef) (h : heap) :
  (∀ a, the_atom (correct_atom_props atom h) a =
        if decide (a = atom) then corrected_atom (the_atom h atom) else the_atom h a)
  ∧ edits_atoms_at (atom_mol atom) h (correct_atom_props atom h).
Proof.
  split; [|apply correct_atom_props_edits].
  intros a. unfold correct_atom_props, corrected_atom, AtomAPI.GetIsAromatic,
    AtomAPI.GetAtomicNum, AtomAPI.GetNoImplicit, AtomAPI.GetChiralTag,
    AtomAPI.SetNumExplicitHs, AtomAPI.SetChiralTag, AtomAPI.SetNoImplicit.
  destruct (decide (valid_atom h atom)) as [Hv|Hv].
  - destruct (decide (a = atom)) as [->|Hne].
    + repeat case_match; rewrite ?the_atom_update_atom;
        repeat (rewrite decide_True; [|split; [done|]; rewrite ?valid_atom_update_atom; done]);
        simpl; try done.
    + repeat case_match; rewrite ?the_atom_update_atom;
        repeat (rewrite decide_False; [|intros [? _]; congruence]); done.
  - assert (the_atom h atom = inhabitant) as Hdef.
    { unfold valid_atom in Hv. unfold the_atom, the_mol in *.
      destruct (decide (atom_mol atom < length h)).
      - rewrite (list_lookup_total_alt (atoms _)), lookup_ge_None_2; [done|]. lia.
      - rewrite (list_lookup_total_alt h), lookup_ge_None_2 by lia. done. }
    unfold correct_atom_props, AtomAPI.GetIsAromatic, AtomAPI.GetAtomicNum,
      AtomAPI.GetNoImplicit, AtomAPI.GetChiralTag.
    rewrite Hdef. simpl. case_decide as Ha; [|done]. by rewrite Ha, Hdef.
Qed.

(** * Reading the graph after edits of atoms *)

Section Readers.
Context (l : loc) (h h' : heap) (Hed : edits_atoms_at l h h').

Lemma the_bond_edits b : bond_mol b = l → the_bond h' b = the_bond h b.
Proof. intros <-. unfold the_bond. by rewrite (eaa_bonds _ _ _ Hed). Qed.

Lemma GetBonds_edits a : atom_mol a = l → GetBonds h' a = GetBonds h a.
Proof.
  intros <-. unfold GetBonds, incident_bonds. by rewrite (eaa_bonds _ _ _ Hed).
Qed.

Lemma GetDegree_edits a : atom_mol a = l → GetDegree h' a = GetDegree h a.
Proof. intros Ha. unfold GetDegree. by rewrite GetBonds_edits. Qed.

Lemma GetOtherAtom_edits b a :
  bond_mol b = l → BondAPI.GetOtherAtom h' b a = BondAPI.GetOtherAtom h b a.
Proof. intros Hb. unfold BondAPI.GetOtherAtom. by rewrite the_bond_edits. Qed.

Lemma GetBondType_edits b :
  bond_mol b = l → BondAPI.GetBondType h' b = BondAPI.GetBondType h b.
Proof. intros Hb. unfold BondAPI.GetBondType. by rewrite the_bond_edits. Qed.

Lemma Bond_IsInRing_edits b : bond_mol b = l → Bond_IsInRing h' b = Bond_IsInRing h b.
Proof. intros <-. unfold Bond_IsInRing. by rewrite (eaa_rings _ _ _ Hed). Qed.

Lemma Atom_IsInRing_edits a : atom_mol a = l → Atom_IsInRing h' a = Atom_IsInRing h a.
Proof. intros <-. unfold Atom_IsInRing. by rewrite (eaa_rings _ _ _ Hed). Qed.

End Readers.

Lemma GetBonds_owner h a b : b ∈ GetBonds h a → bond_mol b = atom_mol a.
Proof. unfold GetBonds. intros (j & -> & _)%list_elem_of_fmap. done. Qed.

Lemma GetBonds_lt h a b :
  b ∈ GetBonds h a → bond_idx b < length (bonds (the_mol h (atom_mol a))).
Proof.
  unfold GetBonds, incident_bonds. intros (j & -> & Hj)%list_elem_of_fmap.
  apply list_elem_of_filter in Hj as [_ Hj]. apply elem_of_seq in Hj. simpl. lia.
Qed.

Lemma GetOtherAtom_owner h b a : atom_mol (BondAPI.GetOtherAtom h b a) = bond_mol b.
Proof. unfold BondAPI.GetOtherAtom. by case_match. Qed.

(** * The closure [collect]: what it may change, and that it returns *)

Lemma collector_le_refl l c : collector_le l c c.
Proof. split; [apply edits_atoms_at_refl|done..]. Qed.

Lemma collector_le_trans l c1 c2 c3 :
  collector_le l c1 c2 → collector_le l c2 c3 → collector_le l c1 c3.
Proof.
  intros [H1 R1 V1 A1] [H2 R2 V2 A2].
  split; [by eapply edits_atoms_at_trans|set_solver..].
Qed.

Lemma remove_atoms_add_le l i c : collector_le l c (remove_atoms_add i c).
Proof. split; simpl; [apply edits_atoms_at_refl|set_solver..]. Qed.
Lemma visited_add_le l i c : collector_le l c (visited_add i c).
Proof. split; simpl; [apply edits_atoms_at_refl|set_solver..]. Qed.
Lemma ring_attachments_add_le l i c : collector_le l c (ring_attachments_add i c).
Proof. split; simpl; [apply edits_atoms_at_refl|set_solver..]. Qed.
Lemma correct_atom_props_le a c :
  collector_le (atom_mol a) c (on_heap (correct_atom_props a) c).
Proof. split; simpl; [apply correct_atom_props_edits|done..]. Qed.

(** Peels the updates of the closure state off the right-hand side. *)
Ltac collector_le_peel :=
  repeat first
    [ apply collector_le_refl
    | eapply collector_le_trans; [|apply visited_add_le]
    | eapply collector_le_trans; [|apply remove_atoms_add_le]
    | eapply collector_le_trans; [|apply ring_attachments_add_le]
    | eapply collector_le_trans; [|apply correct_atom_props_le] ].

Lemma collect_hub_le o other b c :
  collector_le (atom_mol other) c (collect_hub o other b c).
Proof.
  unfold collect_hub.
  destruct (negb _); (destruct (Atom_IsInRing _ _); collector_le_peel).
Qed.

Lemma collect_bond_le rec o b c c' :
  bond_mol b = atom_mol o →
  (∀ x s s', atom_mol x = atom_mol o → rec x s = Some s' →
             collector_le (atom_mol o) s s') →
  collect_bond rec o b c = Some c' → collector_le (atom_mol o) c c'.
Proof.
  intros Hb Hrec. unfold collect_bond.
  pose proof (GetOtherAtom_owner (c_heap c) b o) as Ho. rewrite Hb in Ho.
  destruct (_ || _); [intros [= <-]; apply collector_le_refl|].
  destruct (_ =? 1); [intros [= <-]; collector_le_peel|].
  destruct (_ =? 2).
  { intros Hc'. eapply collector_le_trans; [|eapply Hrec; [exact Ho|exact Hc']].
    collector_le_peel. }
  destruct (2 <? _); [|intros [= <-]; apply collector_le_refl].
  destruct (_ <? 3).
  { intros Hc'. eapply collector_le_trans; [|eapply Hrec; [exact Ho|exact Hc']].
    collector_le_peel. }
  intros [= <-]. rewrite <- Ho. apply collect_hub_le.
Qed.

Lemma collect_le n o c c' :
  collect n o c = Some c' → collector_le (atom_mol o) c c'.
Proof.
  revert o c c'. induction n as [|n IH]; simpl; intros o c c' Hrun; [done|].
  eapply (for_each_inv (collector_le (atom_mol o))); [..|exact Hrun].
  - apply collector_le_refl.
  - apply collector_le_trans.
  - intros b s s' Hb. apply collect_bond_le.
    + by eapply GetBonds_owner.
    + intros x t t' Hx Ht. rewrite <- Hx. by apply IH.
Qed.

Lemma unvisited_mono l c c' : collector_le l c c' → unvisited l c' ≤ unvisited l c.
Proof.
  intros [Hh _ Hv _]. unfold unvisited. rewrite (eaa_bonds _ _ _ Hh).
  apply subseteq_size. set_solver.
Qed.

Lemma unvisited_visited_add l b i c :
  b < length (bonds (the_mol (c_heap c) l)) → b ∉ visited c →
  unvisited l (visited_add b (remove_atoms_add i c)) < unvisited l c.
Proof.
  intros Hb Hv. unfold unvisited. simpl. apply subset_size.
  apply strict_spec_alt. split; [set_solver|].
  intros Heq. assert (b ∈ (set_seq 0 (length (bonds (the_mol (c_heap c) l))) ∖ visited c : gset nat)) as Hin.
  { apply elem_of_difference. split; [|done]. apply elem_of_set_seq. lia. }
  rewrite <- Heq in Hin. set_solver.
Qed.

(** With more fuel than bonds not yet visited, [collect] returns. *)
Lemma collect_is_Some n o c :
  unvisited (atom_mol o) c < n → is_Some (collect n o c).
Proof.
  revert o c. induction n as [|n IH]; intros o c Hn; [lia|]. cbn [collect].
  cut (∀ b s, b ∈ GetBonds (c_heap c) o → collector_le (atom_mol o) c s →
         ∃ s', collect_bond (collect n) o b s = Some s' ∧ collector_le (atom_mol o) c s').
  { intros Hbody.
    destruct (for_each_is_Some (collector_le (atom_mol o) c) _ _ Hbody c)
      as (c' & -> & _); [apply collector_le_refl|done]. }
  intros b s Hb Hs.
  assert (∀ x s1, atom_mol x = atom_mol o → collector_le (atom_mol o) s s1 →
                  unvisited (atom_mol o) s1 < unvisited (atom_mol o) s →
                  ∃ s', collect n x s1 = Some s' ∧ collector_le (atom_mol o) c s') as Hrec.
  { intros x s1 Hx Hs1 Hlt.
    destruct (IH x s1) as [s' Hs'].
    - rewrite Hx. pose proof (unvisited_mono _ _ _ Hs). lia.
    - exists s'. split; [done|].
      apply collect_le in Hs'. rewrite Hx in Hs'.
      eauto using collector_le_trans. }
  pose proof (GetBonds_owner _ _ _ Hb) as Hbo.
  pose proof (GetBonds_lt _ _ _ Hb) as Hblt.
  rewrite <- (eaa_bonds _ _ _ (cle_heap _ _ _ Hs)) in Hblt.
  pose proof (GetOtherAtom_owner (c_heap s) b o) as Ho. rewrite Hbo in Ho.
  unfold collect_bond.
  destruct (bool_decide _ || _) eqn:Hskip; [eauto|].
  apply orb_false_iff in Hskip as [Hvis%bool_decide_eq_false _].
  destruct (_ =? 1).
  { eexists; split; [done|]. eapply collector_le_trans; [exact Hs|]. collector_le_peel. }
  destruct (_ =? 2).
  { apply Hrec; [done|collector_le_peel|by apply unvisited_visited_add]. }
  destruct (2 <? _); [|eauto].
  destruct (_ <? 3).
  { apply Hrec; [done|collector_le_peel|by apply unvisited_visited_add]. }
  eexists; split; [done|]. eapply collector_le_trans; [exact Hs|].
  rewrite <- Ho. apply collect_hub_le.
Qed.

Lemma unvisited_le l c : unvisited l c ≤ length (bonds (the_mol (c_heap c) l)).
Proof.
  unfold unvisited. etrans; [apply subseteq_size, subseteq_difference_l; reflexivity|].
  by rewrite size_set_seq.
Qed.

(** [collect_linker_atoms] returns: the depth it allows [collect] is enough. *)
Lemma collect_enough_fuel h origin remove :
  is_Some (collect (collect_depth h origin) origin (mkCollector h remove ∅ ∅)).
Proof.
  apply collect_is_Some. unfold collect_depth.
  pose proof (unvisited_le (atom_mol origin) (mkCollector h remove ∅ ∅)). simpl in *. lia.
Qed.

(** More fuel does not change what [collect] returns. *)
Lemma for_each_ext_Some {A S : Type} (f g : A → S → option S) l s s' :
  (∀ x t t', f x t = Some t' → g x t = Some t') →
  for_each f l s = Some s' → for_each g l s = Some s'.
Proof.
  intros Hfg. revert s. induction l as [|x l IH]; simpl; intros s; [done|].
  destruct (f x s) as [t|] eqn:Hf; simpl; [|done].
  rewrite (Hfg _ _ _ Hf). simpl. apply IH.
Qed.

Lemma collect_bond_mono (r1 r2 : AtomRef → Collector → option Collector) o b c c' :
  (∀ x t t', r1 x t = Some t' → r2 x t = Some t') →
  collect_bond r1 o b c = Some c' → collect_bond r2 o b c = Some c'.
Proof. intros Hr. unfold collect_bond. repeat case_match; eauto. Qed.

Lemma collect_fuel_mono n m o c c' :
  n ≤ m → collect n o c = Some c' → collect m o c = Some c'.
Proof.
  revert m o c c'. induction n as [|n IH]; intros m o c c' Hnm; [done|].
  destruct m as [|m]; [lia|]. simpl.
  apply for_each_ext_Some. intros b t t'. apply collect_bond_mono.
  intros x s s'. apply IH. lia.
Qed.

Lemma collect_linker_atoms_is_Some origin remove include_origin h :
  is_Some (collect_linker_atoms origin remove include_origin h).
Proof.
  unfold collect_linker_atoms.
  destruct (collect_enough_fuel h origin remove) as [c ->]. simpl. eauto.
Qed.

Lemma collect_linker_atoms_edits origin remove include_origin h h' remove' att :
  collect_linker_atoms origin remove include_origin h = Some (h', remove', att) →
  edits_atoms_at (atom_mol origin) h h'.
Proof.
  unfold collect_linker_atoms.
  destruct (collect _ _ _) as [c|] eqn:Hc; simpl; [|done].
  apply collect_le in Hc as [Hh _ _ _]. simpl in Hh.
  intros [= <- _ _]. by repeat case_match.
Qed.

(** * Counting in filtered lists *)

Lemma length_filter_mono {A} (P Q : A → Prop)
    `{!∀ x, Decision (P x), !∀ x, Decision (Q x)} (l : list A) :
  (∀ x, x ∈ l → P x → Q x) → length (filter P l) ≤ length (filter Q l).
Proof.
  induction l as [|x l IH]; intros HPQ; [done|].
  rewrite !filter_cons.
  assert (length (filter P l) ≤ length (filter Q l)) as Hl.
  { apply IH. intros y Hy. apply HPQ. by right. }
  destruct (decide (P x)) as [HP|HP].
  - rewrite decide_True by (apply HPQ; [left|done]). simpl. lia.
  - destruct (decide (Q x)); simpl; lia.
Qed.

Lemma length_filter_extra {A} (P Q : A → Prop)
    `{!∀ x, Decision (P x), !∀ x, Decision (Q x)} (l : list A) j :
  (∀ x, x ∈ l → P x → Q x) → j ∈ l → ¬P j → Q j →
  length (filter P l) < length (filter Q l).
Proof.
  induction l as [|x l IH]; intros HPQ Hj HPj HQj; [by apply elem_of_nil in Hj|].
  rewrite !filter_cons.
  assert (∀ y, y ∈ l → P y → Q y) as HPQ' by (intros y Hy; apply HPQ; by right).
  apply elem_of_cons in Hj as [<-|Hj].
  - rewrite decide_False, decide_True by done. simpl.
    pose proof (length_filter_mono P Q l HPQ'). lia.
  - specialize (IH HPQ' Hj HPj HQj).
    destruct (decide (P x)) as [HP|HP].
    + rewrite decide_True by (apply HPQ; [left|done]). simpl. lia.
    + destruct (decide (Q x)); simpl; lia.
Qed.

Lemma length_filter_fmap {A B} (f : A → B) (P : B → Prop)
    `{!∀ x, Decision (P x)} (l : list A) :
  length (filter P (f <$> l)) = length (filter (λ x, P (f x)) l).
Proof.
  induction l as [|x l IH]; [done|]. rewrite fmap_cons, !filter_cons.
  destruct (decide (P (f x))); simpl; lia.
Qed.

(** * Ring membership *)

Lemma NumAtomRings_ne_0 info i : NumAtomRings info i ≠ 0 ↔ ∃ r, r ∈ info ∧ i ∈ aix r.
Proof.
  unfold NumAtomRings. split.
  - intros Hn. destruct (filter _ info) as [|r k] eqn:Hf; [done|].
    assert (r ∈ filter (λ r, i ∈ aix r) info) as Hr by (rewrite Hf; left).
    apply list_elem_of_filter in Hr. exists r. tauto.
  - intros (r & Hr & Hi).
    assert (r ∈ filter (λ r, i ∈ aix r) info) as Hin by (by apply list_elem_of_filter).
    destruct (filter _ info); [by apply elem_of_nil in Hin|done].
Qed.

Lemma ring_atom_degree m i :
  ring_info_wf m → NumAtomRings (ring_info m) i ≠ 0 → 2 ≤ ring_degree m i.
Proof.
  intros [Hw _] (r & Hr & Hi)%NumAtomRings_ne_0.
  rewrite Forall_forall in Hw. specialize (Hw r Hr).
  rewrite Forall_forall in Hw. by apply Hw.
Qed.

Lemma ring_degree_le m i : ring_degree m i ≤ length (incident_bonds m i).
Proof. apply length_filter. Qed.

Lemma NumBondRings_ne_0 info j : NumBondRings info j ≠ 0 ↔ ∃ r, r ∈ info ∧ j ∈ bix r.
Proof.
  unfold NumBondRings. split.
  - intros Hn. destruct (filter _ info) as [|r k] eqn:Hf; [done|].
    assert (r ∈ filter (λ r, j ∈ bix r) info) as Hr by (rewrite Hf; left).
    apply list_elem_of_filter in Hr. exists r. tauto.
  - intros (r & Hr & Hi).
    assert (r ∈ filter (λ r, j ∈ bix r) info) as Hin by (by apply list_elem_of_filter).
    destruct (filter _ info); [by apply elem_of_nil in Hin|done].
Qed.

Lemma ring_bond_in_ring m r j :
  ring_info_wf m → r ∈ ring_info m → j ∈ bix r →
  BeginAtomIdx (bonds m !!! j) ∈ aix r ∧ EndAtomIdx (bonds m !!! j) ∈ aix r.
Proof.
  intros [_ Hw] Hr Hj. rewrite Forall_forall in Hw. specialize (Hw r Hr).
  rewrite Forall_forall in Hw. by apply Hw.
Qed.

Lemma ring_bond_ends m j :
  ring_info_wf m → NumBondRings (ring_info m) j ≠ 0 →
  NumAtomRings (ring_info m) (BeginAtomIdx (bonds m !!! j)) ≠ 0 ∧
  NumAtomRings (ring_info m) (EndAtomIdx (bonds m !!! j)) ≠ 0.
Proof.
  intros Hwf (r & Hr & Hj)%NumBondRings_ne_0.
  destruct (ring_bond_in_ring m r j Hwf Hr Hj).
  split; apply NumAtomRings_ne_0; eauto.
Qed.

Lemma incident_bonds_spec m i j :
  j ∈ incident_bonds m i ↔ j < length (bonds m) ∧ incident i (bonds m !!! j) = true.
Proof.
  unfold incident_bonds. rewrite list_elem_of_filter, elem_of_seq. split; intros []; split; auto; lia.
Qed.

Lemma GetDegree_incident h a :
  GetDegree h a = length (incident_bonds (the_mol h (atom_mol a)) (atom_idx a)).
Proof. unfold GetDegree, GetBonds. apply length_fmap. Qed.

Lemma ring_atom_GetDegree h a :
  ring_info_wf (the_mol h (atom_mol a)) → Atom_IsInRing h a = true → 2 ≤ GetDegree h a.
Proof.
  intros Hwf Hin. rewrite GetDegree_incident.
  etrans; [|apply ring_degree_le]. apply ring_atom_degree; [done|].
  unfold Atom_IsInRing in Hin. apply negb_true_iff, Nat.eqb_neq in Hin. done.
Qed.

(** A ring atom reached over a bond that is in no ring, from an atom that is
    not terminal, is a branching point with three non-terminal neighbours or
    more: [collect] does not recurse into it. *)
Lemma ring_neighbour_is_hub h o b :
  ring_info_wf (the_mol h (atom_mol o)) →
  b ∈ GetBonds h o → Bond_IsInRing h b = false → GetDegree h o ≠ 1 →
  Atom_IsInRing h (BondAPI.GetOtherAtom h b o) = true →
  2 < GetDegree h (BondAPI.GetOtherAtom h b o) ∧
  3 ≤ non_terminal_branches h (BondAPI.GetOtherAtom h b o).
Proof.
  intros Hwf Hb Hnr Hdeg Hring.
  destruct o as [l i]. simpl in *.
  unfold GetBonds in Hb. simpl in Hb.
  apply list_elem_of_fmap in Hb as (j & -> & Hj).
  set (m := the_mol h l) in *.
  set (other := BondAPI.GetOtherAtom h (mkBondRef l j) (mkAtomRef l i)) in *.
  assert (atom_mol other = l) as Hol by apply GetOtherAtom_owner.
  pose proof Hj as Hj'. apply incident_bonds_spec in Hj' as [Hjlt Hinc].
  assert (j ∈ incident_bonds m (atom_idx other) ∧
          BondAPI.GetOtherAtom h (mkBondRef l j) other = mkAtomRef l i) as [Hjo Hback].
  { unfold other, BondAPI.GetOtherAtom, the_bond, incident in *. simpl. fold m.
    rewrite incident_bonds_spec. unfold incident.
    destruct (BeginAtomIdx (bonds m !!! j) =? i) eqn:E1; simpl in *.
    - apply Nat.eqb_eq in E1.
      rewrite Nat.eqb_refl, orb_true_r.
      destruct (BeginAtomIdx (bonds m !!! j) =? EndAtomIdx (bonds m !!! j)) eqn:E2.
      + apply Nat.eqb_eq in E2. split; [done|]. congruence.
      + split; [done|]. congruence.
    - apply Nat.eqb_eq in Hinc. rewrite !Nat.eqb_refl. simpl. split; [done|]. congruence. }
  set (P := λ k : nat, NumBondRings (ring_info m) k ≠ 0).
  set (Q := λ k : nat, GetDegree h (BondAPI.GetOtherAtom h (mkBondRef l k) other) ≠ 1).
  assert (length (filter P (incident_bonds m (atom_idx other)))
          < length (filter Q (incident_bonds m (atom_idx other)))) as Hlt.
  { apply length_filter_extra with (j := j); [|done| |].
    - intros k Hk HPk. unfold Q.
      destruct (ring_bond_ends m k Hwf HPk) as [Hb1 Hb2].
      assert (Atom_IsInRing h (BondAPI.GetOtherAtom h (mkBondRef l k) other) = true) as Hk2.
      { unfold Atom_IsInRing, BondAPI.GetOtherAtom, the_bond. simpl. fold m.
        apply negb_true_iff, Nat.eqb_neq. by case_match. }
      apply ring_atom_GetDegree in Hk2; [lia|].
      by rewrite GetOtherAtom_owner.
    - unfold P, Bond_IsInRing in *. simpl in Hnr. fold m in Hnr.
      apply negb_false_iff, Nat.eqb_eq in Hnr. lia.
    - unfold Q. by rewrite Hback. }
  assert (2 ≤ length (filter P (incident_bonds m (atom_idx other)))) as H2.
  { apply (ring_atom_degree m); [done|].
    unfold Atom_IsInRing in Hring. rewrite Hol in Hring. fold m in Hring.
    by apply negb_true_iff, Nat.eqb_neq in Hring. }
  assert (non_terminal_branches h other
          = length (filter Q (incident_bonds m (atom_idx other)))) as Hntb.
  { unfold non_terminal_branches, GetNeighbors, GetBonds.
    rewrite !length_filter_fmap, Hol. done. }
  rewrite Hntb, GetDegree_incident, Hol. fold m.
  pose proof (length_filter Q (incident_bonds m (atom_idx other))). lia.
Qed.

Lemma for_each_preserves {A S : Type} (I : S → Prop) (body : A → S → option S) l :
  (∀ x s s', x ∈ l → I s → body x s = Some s' → I s') →
  ∀ s s', I s → for_each body l s = Some s' → I s'.
Proof.
  induction l as [|x l IH]; simpl; intros Hbody s s' Hs Hrun.
  - by injection Hrun as <-.
  - destruct (body x s) as [s1|] eqn:Hx; simpl in Hrun; [|done].
    eapply IH; [|eapply Hbody; [left|exact Hs|exact Hx]|exact Hrun].
    intros y t t' Hy. apply Hbody. by right.
Qed.

(** * The Linker Collector keeps out of rings *)

Lemma ring_info_wf_edits l h h' :
  edits_atoms_at l h h' → ring_info_wf (the_mol h l) → ring_info_wf (the_mol h' l).
Proof.
  intros [_ _ Hb Hr]. unfold ring_info_wf, ring_degree, incident_bonds.
  by rewrite Hb, Hr.
Qed.

Lemma spares_rings_refl l x c : spares_rings l x c c.
Proof. split; [apply collector_le_refl|auto..]. Qed.

Lemma spares_rings_trans l x c1 c2 c3 :
  spares_rings l x c1 c2 → spares_rings l x c2 c3 → spares_rings l x c1 c3.
Proof.
  intros [L1 A1 B1] [L2 A2 B2].
  pose proof (eaa_rings _ _ _ (cle_heap _ _ _ L1)) as Hr. rewrite Hr in A2, B2.
  split; [by eapply collector_le_trans| |].
  - intros a Ha. destruct (A2 a Ha) as [?|[?|?]]; auto.
  - intros b Hb. destruct (B2 b Hb) as [?|?]; auto.
Qed.

(** A run from an atom of no ring adds atoms of no ring only, whatever the
    atom the enclosing run started from. *)
Lemma spares_rings_from_chain l x y c c' :
  NumAtomRings (ring_info (the_mol (c_heap c) l)) y = 0 →
  spares_rings l y c c' → spares_rings l x c c'.
Proof.
  intros Hy [L A B]. split; [done| |done].
  intros a Ha. destruct (A a Ha) as [?|[->|?]]; auto.
Qed.

Lemma Atom_IsInRing_false h a :
  Atom_IsInRing h a = false →
  NumAtomRings (ring_info (the_mol h (atom_mol a))) (atom_idx a) = 0.
Proof. unfold Atom_IsInRing. by intros ?%negb_false_iff%Nat.eqb_eq. Qed.

Lemma Bond_IsInRing_false h b :
  Bond_IsInRing h b = false →
  NumBondRings (ring_info (the_mol h (bond_mol b))) (bond_idx b) = 0.
Proof. unfold Bond_IsInRing. by intros ?%negb_false_iff%Nat.eqb_eq. Qed.

Lemma collect_hub_remove_atoms o other b c :
  remove_atoms (collect_hub o other b c) ⊆ {[AtomAPI.GetIdx o]} ∪ remove_atoms c.
Proof.
  unfold collect_hub.
  destruct (negb _); (destruct (Atom_IsInRing _ _); simpl; set_solver).
Qed.

Lemma collect_hub_visited o other b c :
  visited (collect_hub o other b c) ⊆ {[BondAPI.GetIdx b]} ∪ visited c.
Proof.
  unfold collect_hub.
  destruct (negb _); (destruct (Atom_IsInRing _ _); simpl; set_solver).
Qed.

Lemma collect_bond_spares_rings rec o b c c' :
  ring_info_wf (the_mol (c_heap c) (atom_mol o)) →
  GetDegree (c_heap c) o ≠ 1 →
  b ∈ GetBonds (c_heap c) o →
  (∀ x s s', atom_mol x = atom_mol o →
             ring_info_wf (the_mol (c_heap s) (atom_mol o)) →
             GetDegree (c_heap s) x ≠ 1 →
             rec x s = Some s' → spares_rings (atom_mol o) (atom_idx x) s s') →
  collect_bond rec o b c = Some c' →
  spares_rings (atom_mol o) (atom_idx o) c c'.
Proof.
  intros Hwf Hdeg Hb Hrec. unfold collect_bond.
  pose proof (GetBonds_owner _ _ _ Hb) as Hbo.
  pose proof (GetOtherAtom_owner (c_heap c) b o) as Ho. rewrite Hbo in Ho.
  set (other := BondAPI.GetOtherAtom (c_heap c) b o) in *.
  destruct (bool_decide _ || _) eqn:Hskip; [intros [= <-]; apply spares_rings_refl|].
  apply orb_false_iff in Hskip as [_ Hnr].
  pose proof (Bond_IsInRing_false _ _ Hnr) as Hnr0. rewrite Hbo in Hnr0.
  (* the state both recursive calls start from *)
  assert (spares_rings (atom_mol o) (atom_idx o) c
            (visited_add (BondAPI.GetIdx b) (remove_atoms_add (AtomAPI.GetIdx o) c)))
    as Hstep.
  { split; [collector_le_peel|simpl..].
    - intros a [->%elem_of_singleton|?]%elem_of_union; auto.
    - intros k [->%elem_of_singleton|?]%elem_of_union; auto. }
  assert (Atom_IsInRing (c_heap c) other = true →
          2 < GetDegree (c_heap c) other ∧ 3 ≤ non_terminal_branches (c_heap c) other)
    as Hhub by (by apply ring_neighbour_is_hub).
  assert (∀ s', GetDegree (c_heap c) other ≠ 1 →
            Atom_IsInRing (c_heap c) other = false →
            rec other (visited_add (BondAPI.GetIdx b) (remove_atoms_add (AtomAPI.GetIdx o) c))
              = Some s' →
            spares_rings (atom_mol o) (atom_idx o) c s') as Hcall.
  { intros s' Hd Hno Hs'. eapply spares_rings_trans; [exact Hstep|].
    apply spares_rings_from_chain with (y := atom_idx other).
    - simpl. rewrite <- Ho. by apply Atom_IsInRing_false.
    - by apply Hrec. }
  destruct (GetDegree (c_heap c) other =? 1) eqn:E1.
  { apply Nat.eqb_eq in E1. intros [= <-].
    split; [collector_le_peel|simpl..].
    - intros a [->%elem_of_singleton|[->%elem_of_singleton|?]%elem_of_union]%elem_of_union;
        auto.
      right; right. rewrite <- Ho. apply Atom_IsInRing_false.
      destruct (Atom_IsInRing (c_heap c) other) eqn:E; [|done].
      specialize (Hhub eq_refl). lia.
    - intros k [->%elem_of_singleton|?]%elem_of_union; auto. }
  apply Nat.eqb_neq in E1.
  destruct (GetDegree (c_heap c) other =? 2) eqn:E2.
  { apply Nat.eqb_eq in E2. intros Hs'. apply Hcall; [done| |done].
    destruct (Atom_IsInRing (c_heap c) other) eqn:E; [|done]. specialize (Hhub eq_refl). lia. }
  destruct (2 <? GetDegree (c_heap c) other); [|intros [= <-]; apply spares_rings_refl].
  destruct (non_terminal_branches (c_heap c) other <? 3) eqn:E3.
  { apply Nat.ltb_lt in E3. intros Hs'. apply Hcall; [done| |done].
    destruct (Atom_IsInRing (c_heap c) other) eqn:E; [|done]. specialize (Hhub eq_refl). lia. }
  intros [= <-]. split.
  - rewrite <- Ho. apply collect_hub_le.
  - intros a Ha. apply collect_hub_remove_atoms in Ha.
    apply elem_of_union in Ha as [->%elem_of_singleton|?]; auto.
  - intros k Hk. apply collect_hub_visited in Hk.
    apply elem_of_union in Hk as [->%elem_of_singleton|?]; auto.
Qed.

Lemma collect_spares_rings n o c c' :
  ring_info_wf (the_mol (c_heap c) (atom_mol o)) →
  GetDegree (c_heap c) o ≠ 1 →
  collect n o c = Some c' →
  spares_rings (atom_mol o) (atom_idx o) c c'.
Proof.
  revert o c c'. induction n as [|n IH]; intros o c c' Hwf Hdeg; [done|].
  cbn [collect]. intros Hrun.
  eapply (for_each_preserves (spares_rings (atom_mol o) (atom_idx o) c));
    [|apply spares_rings_refl|exact Hrun].
  intros b s s' Hb Hs Hbody.
  pose proof (cle_heap _ _ _ (sr_le _ _ _ _ Hs)) as Hed.
  eapply spares_rings_trans; [exact Hs|].
  eapply collect_bond_spares_rings; [..|exact Hbody].
  - by eapply ring_info_wf_edits.
  - by rewrite (GetDegree_edits _ _ _ Hed).
  - by rewrite (GetBonds_edits _ _ _ Hed).
  - intros x t t' Hx Hwt Hdt Ht. rewrite <- Hx in *. by apply IH.
Qed.

(** * What a fragmentation round does to the store *)

Lemma edits_at_refl l h : edits_at l h h.
Proof. by split. Qed.

Lemma edits_at_trans l h1 h2 h3 : edits_at l h1 h2 → edits_at l h2 h3 → edits_at l h1 h3.
Proof.
  intros [L1 O1] [L2 O2]. split; [congruence|].
  intros l' Hl'. by rewrite O2, O1.
Qed.

Lemma edits_atoms_at_edits_at l h h' : edits_atoms_at l h h' → edits_at l h h'.
Proof. intros [L O _ _]. by split. Qed.

Lemma update_mol_edits_at l f h : edits_at l h (update_mol l f h).
Proof.
  split; [apply length_update_mol|]. intros l' Hl'. by apply lookup_update_mol_ne.
Qed.

Lemma foldl_edits_at {A S} (π : S → heap) l (f : S → A → S) xs s :
  (∀ s x, edits_at l (π s) (π (f s x))) → edits_at l (π s) (π (foldl f s xs)).
Proof.
  intros Hf. revert s. induction xs as [|x xs IH]; intros s; simpl.
  - apply edits_at_refl.
  - eapply edits_at_trans; [apply Hf|apply IH].
Qed.

Lemma heap_extends_refl h : heap_extends h h.
Proof. by intros l m. Qed.

Lemma heap_extends_trans h1 h2 h3 :
  heap_extends h1 h2 → heap_extends h2 h3 → heap_extends h1 h3.
Proof. intros H12 H23 l m Hl. eauto. Qed.

Lemma heap_extends_app h k : heap_extends h (h ++ k).
Proof. intros l m Hl. by apply lookup_app_l_Some. Qed.

Lemma heap_extends_length h h' : heap_extends h h' → length h ≤ length h'.
Proof.
  intros He. destruct (decide (length h ≤ length h')) as [|Hn]; [done|].
  destruct (lookup_lt_is_Some_2 h (length h')) as [m Hm]; [lia|].
  apply He, lookup_lt_Some in Hm. lia.
Qed.

(** Editing an object that [h0] does not have keeps [h0]'s objects. *)
Lemma heap_extends_edits_at h0 l h1 h2 :
  length h0 ≤ l → heap_extends h0 h1 → edits_at l h1 h2 → heap_extends h0 h2.
Proof.
  intros Hl H01 [_ O] l' m Hm. rewrite O; [by apply H01|].
  apply lookup_lt_Some in Hm. lia.
Qed.

Lemma heap_extends_the_mol h h' l :
  heap_extends h h' → l < length h → the_mol h' l = the_mol h l.
Proof.
  intros He Hl. destruct (lookup_lt_is_Some_2 h l Hl) as [m Hm].
  unfold the_mol. by rewrite (list_lookup_total_correct _ _ _ Hm),
    (list_lookup_total_correct _ _ _ (He _ _ Hm)).
Qed.

Section Store_of_fragmentation.
Context `{ChemEngine}.

Lemma alloc_all_spec ms h : alloc_all ms h = (h ++ ms, seq (length h) (length ms)).
Proof.
  unfold alloc_all.
  cut (∀ ls h0, foldl (λ '(h, ls) m, let '(h, l) := alloc m h in (h, ls ++ [l])) (h0, ls) ms
               = (h0 ++ ms, ls ++ seq (length h0) (length ms))).
  { intros Hc. by rewrite Hc. }
  induction ms as [|m ms IH]; intros ls h0; simpl.
  - by rewrite !app_nil_r.
  - rewrite IH. rewrite <- !app_assoc, length_app. simpl.
    by rewrite Nat.add_1_r.
Qed.

Lemma partial_sanitization_edits_at l h :
  edits_at l h (partial_sanitization l h).1.
Proof.
  unfold partial_sanitization. destruct (SanitizeMol _ _); apply update_mol_edits_at.
Qed.

(** [get_scaffold_frags] edits the molecule it is given and makes new ones. *)
Lemma get_scaffold_frags_store frag h :
  ∃ h1 k, edits_at frag h h1 ∧ (get_scaffold_frags frag h).1 = h1 ++ k.
Proof.
  unfold get_scaffold_frags.
  pose proof (partial_sanitization_edits_at frag h) as He.
  destruct (partial_sanitization frag h) as [h1 [[]|]]; simpl in *.
  - exists h1, []. by rewrite app_nil_r.
  - rewrite alloc_all_spec. eauto.
Qed.

Lemma get_scaffold_frags_extends h0 frag h :
  length h0 ≤ frag → heap_extends h0 h → heap_extends h0 (get_scaffold_frags frag h).1.
Proof.
  intros Hl He. destruct (get_scaffold_frags_store frag h) as (h1 & k & Hed & ->).
  eapply heap_extends_trans; [|apply heap_extends_app].
  by eapply heap_extends_edits_at.
Qed.

Lemma removable_atom_edits_at info edit x st st' :
  removable_atom info edit x st = Some st' → edits_at edit st.1 st'.1.
Proof.
  unfold removable_atom. destruct x as [index atom], st as [h ra].
  repeat case_match; simplify_eq/=.
  - destruct (collect_linker_atoms _ _ _ _) as [[[h1 ra1] att]|] eqn:Hc; simpl; [|done].
    intros [= <-]. simpl.
    apply collect_linker_atoms_edits in Hc. by apply edits_atoms_at_edits_at in Hc.
  - intros [= <-]. apply edits_at_refl.
  - intros [= <-]. simpl.
    apply (edits_atoms_at_edits_at _ _ _ (correct_atom_props_edits (GetAtomWithIdx edit index) h)).
Qed.

Lemma system_removable_atom_edits_at info edit x st st' :
  system_removable_atom info edit x st = Some st' → edits_at edit st.1 st'.1.
Proof.
  unfold system_removable_atom. destruct x as [index atom], st as [h ra].
  repeat case_match; simplify_eq/=.
  - destruct (collect_linker_atoms _ _ _ _) as [[[h1 ra1] att]|] eqn:Hc; simpl; [|done].
    intros [= <-]. simpl.
    apply collect_linker_atoms_edits in Hc. by apply edits_atoms_at_edits_at in Hc.
  - intros [= <-]. apply edits_at_refl.
  - intros [= <-]. apply edits_at_refl.
Qed.

Lemma removable_atom_is_Some info edit x st : is_Some (removable_atom info edit x st).
Proof.
  unfold removable_atom. destruct x as [index atom], st as [h ra].
  repeat case_match; eauto.
  destruct (collect_linker_atoms_is_Some (GetAtomWithIdx edit index) ra true h)
    as [[[h1 ra1] att] ->]. simpl. eauto.
Qed.

Lemma system_removable_atom_is_Some info edit x st :
  is_Some (system_removable_atom info edit x st).
Proof.
  unfold system_removable_atom. destruct x as [index atom], st as [h ra].
  repeat case_match; eauto.
  destruct (collect_linker_atoms_is_Some (GetAtomWithIdx edit index) ra true h)
    as [[[h1 ra1] att] ->]. simpl. eauto.
Qed.

Lemma for_each_total {A S : Type} (body : A → S → option S) l s :
  (∀ x t, is_Some (body x t)) → is_Some (for_each body l s).
Proof.
  intros Hb. destruct (for_each_is_Some (λ _, True) body l) with (s := s)
    as (s' & -> & _); [|done|done].
  intros x t _ _. destruct (Hb x t) as [t' ->]. eauto.
Qed.

Lemma removable_bond_edits_at edit ra st bix :
  edits_at edit st.1 (removable_bond edit ra st bix).1.
Proof.
  unfold removable_bond. destruct st as [h rb]. case_match; simpl; [|apply edits_at_refl].
  set (x := GetAtomWithIdx edit (BondAPI.GetBeginAtomIdx h (GetBondWithIdx edit bix))).
  set (y := GetAtomWithIdx edit (BondAPI.GetEndAtomIdx h (GetBondWithIdx edit bix))).
  eapply edits_at_trans.
  - apply edits_atoms_at_edits_at, (correct_atom_props_edits x).
  - apply edits_atoms_at_edits_at, (correct_atom_props_edits y).
Qed.

Lemma removable_bonds_edits_at scaffold ring edit ra h :
  edits_at edit h (removable_bonds scaffold ring edit ra h).1.
Proof.
  unfold removable_bonds.
  apply (foldl_edits_at fst edit (removable_bond edit ra) _ (h, ∅)).
  intros s x. apply removable_bond_edits_at.
Qed.

Lemma update_bond_edits_at b f h : edits_at (bond_mol b) h (update_bond b f h).
Proof. apply update_mol_edits_at. Qed.

Lemma scheme_4_edits_at u scaffold ring edit h :
  edits_at edit h (scheme_4 u scaffold ring edit h).
Proof.
  unfold scheme_4. repeat case_match; try apply edits_at_refl.
  apply (update_bond_edits_at (GetBondWithIdx edit _)).
Qed.

Lemma remove_atoms_edits_at edit xs h :
  edits_at edit h (foldl (λ h aix, update_mol edit (RemoveAtom aix) h) h xs).
Proof. apply (foldl_edits_at id). intros. apply update_mol_edits_at. Qed.

Lemma remove_collected_edits_at edit rb ra h :
  edits_at edit h (remove_collected edit rb ra h).
Proof.
  unfold remove_collected. eapply edits_at_trans; [|apply remove_atoms_edits_at].
  apply (foldl_edits_at id). intros h0 [x y]. apply update_mol_edits_at.
Qed.

Lemma for_each_edits_at {A S : Type} (body : A → S → option S) (π : S → heap) l edit s s' :
  (∀ x t t', body x t = Some t' → edits_at edit (π t) (π t')) →
  for_each body l s = Some s' → edits_at edit (π s) (π s').
Proof.
  intros Hb. apply (for_each_inv (λ t t', edits_at edit (π t) (π t'))).
  - intros. apply edits_at_refl.
  - intros ???. apply edits_at_trans.
  - intros x t t' _. apply Hb.
Qed.

Lemma removable_atoms_edits_at scaffold ring edit h h' ra :
  removable_atoms scaffold ring edit h = Some (h', ra) → edits_at edit h h'.
Proof.
  unfold removable_atoms. intros Hr.
  apply (for_each_edits_at _ fst _ edit) in Hr; [done|].
  intros x t t'. apply removable_atom_edits_at.
Qed.

(** One round of the ring fragmenter returns, and keeps every molecule the
    store had: what it edits is the copy it made. *)
Lemma MurckoRingFragmenter_ring_run u scaffold x h parents :
  ∃ h' frags, MurckoRingFragmenter_ring u scaffold x (h, parents)
      = Some (h', foldl (add_parent ring_count (length (rings scaffold)) x.1) parents frags)
    ∧ heap_extends h h'.
Proof.
  unfold MurckoRingFragmenter_ring, RWMol, alloc. destruct x as [rix ring].
  cbn beta iota. unfold removable_atoms at 1.
  match goal with |- context [for_each ?b ?l ?s] =>
    destruct (for_each_total b l s) as [[h1 ra] Hra]; [apply removable_atom_is_Some|]
  end.
  rewrite Hra. cbn beta iota. simpl mbind.
  pose proof (removable_atoms_edits_at _ _ _ _ _ _ Hra) as E1.
  pose proof (removable_bonds_edits_at scaffold ring (length h) ra h1) as E2.
  destruct (removable_bonds scaffold ring (length h) ra h1) as [h2 rb]. simpl in E2.
  pose proof (scheme_4_edits_at u scaffold ring (length h) h2) as E3.
  pose proof (remove_collected_edits_at (length h) rb ra
                (scheme_4 u scaffold ring (length h) h2)) as E4.
  set (h4 := remove_collected _ _ _ _) in *.
  pose proof (get_scaffold_frags_extends h (length h) h4) as E5.
  destruct (get_scaffold_frags (length h) h4) as [h5 frags]. simpl in E5.
  eexists _, _. split; [done|]. apply E5; [done|].
  eapply heap_extends_edits_at; [reflexivity|apply heap_extends_app|].
  eauto using edits_at_trans.
Qed.

Lemma MurckoRingSystemFragmenter_ring_run scaffold x h parents :
  ∃ h' frags, MurckoRingSystemFragmenter_ring scaffold x (h, parents)
      = Some (h', foldl (add_parent ring_system_count (length (ring_systems scaffold)) x.1)
                        parents frags)
    ∧ heap_extends h h'.
Proof.
  unfold MurckoRingSystemFragmenter_ring, RWMol, alloc. destruct x as [rix ring].
  cbn beta iota.
  match goal with |- context [for_each ?b ?l ?s] =>
    destruct (for_each_total b l s) as [[h1 ra] Hra]; [apply system_removable_atom_is_Some|]
  end.
  rewrite Hra. cbn beta iota. simpl mbind.
  apply (for_each_edits_at _ fst _ (length h)) in Hra;
    [|intros ???; apply system_removable_atom_edits_at]. simpl in Hra.
  pose proof (remove_atoms_edits_at (length h) (sorted_reverse ra) h1) as E2.
  set (h2 := foldl _ h1 _) in *.
  pose proof (get_scaffold_frags_extends h (length h) h2) as E5.
  destruct (get_scaffold_frags (length h) h2) as [h5 frags]. simpl in E5.
  eexists _, _. split; [done|]. apply E5; [done|].
  eapply heap_extends_edits_at; [reflexivity|apply heap_extends_app|].
  eauto using edits_at_trans.
Qed.

(** ** The parents a fragmenter keeps *)

Lemma add_parents_spec (count : Scaffold → nat) n rix parents frags p :
  p ∈ foldl (add_parent count n rix) parents frags →
  p ∈ parents ∨
  ∃ f, f ∈ frags ∧ p = set_removed_ring_idx rix f ∧ Z.of_nat (count f) = (Z.of_nat n - 1)%Z.
Proof.
  revert parents. induction frags as [|f frags IH]; intros parents; simpl; [auto|].
  intros [Hp|(g & Hg & -> & Hc)]%IH.
  - unfold add_parent in Hp. case_bool_decide as Hc; [|auto].
    apply elem_of_app in Hp as [?| ->%list_elem_of_singleton]; [auto|].
    right. exists f. split; [left|done].
  - right. exists g. split; [by right|done].
Qed.

(** The ring fragmenter returns; it keeps every molecule the store had; and
    each parent it returns has one ring less than the scaffold. *)
Lemma MurckoRingFragmenter_fragment_run u scaffold h :
  ∃ h' parents, MurckoRingFragmenter_fragment u scaffold h = Some (h', parents)
    ∧ heap_extends h h'
    ∧ ∀ p, p ∈ parents → Z.of_nat (ring_count p) = (Z.of_nat (ring_count scaffold) - 1)%Z.
Proof.
  unfold MurckoRingFragmenter_fragment.
  destruct (for_each_is_Some
    (λ st : heap * list Scaffold, heap_extends h st.1 ∧
       ∀ p, p ∈ st.2 → Z.of_nat (ring_count p) = (Z.of_nat (ring_count scaffold) - 1)%Z)
    (MurckoRingFragmenter_ring u scaffold) (enumerate (rings scaffold)))
    with (s := (h, @nil Scaffold)) as ([h' ps] & Hrun & He & Hps).
  - intros x [h1 ps1] _ [He Hps]. simpl in *.
    destruct (MurckoRingFragmenter_ring_run u scaffold x h1 ps1) as (h2 & frags & -> & He2).
    eexists. split; [done|]. simpl. split; [by eapply heap_extends_trans|].
    intros p [?|(f & _ & -> & Hc)]%add_parents_spec; [auto|]. done.
  - split; [apply heap_extends_refl|]. intros p Hp. by apply elem_of_nil in Hp.
  - eauto.
Qed.

Lemma MurckoRingSystemFragmenter_fragment_run scaffold h :
  ∃ h' parents, MurckoRingSystemFragmenter_fragment scaffold h = Some (h', parents)
    ∧ heap_extends h h'
    ∧ ∀ p, p ∈ parents →
        Z.of_nat (ring_system_count p) = (Z.of_nat (ring_system_count scaffold) - 1)%Z.
Proof.
  unfold MurckoRingSystemFragmenter_fragment.
  destruct (length (ring_systems scaffold) =? 1).
  { exists h, []. split; [done|]. split; [apply heap_extends_refl|].
    intros p Hp. by apply elem_of_nil in Hp. }
  destruct (for_each_is_Some
    (λ st : heap * list Scaffold, heap_extends h st.1 ∧
       ∀ p, p ∈ st.2 →
         Z.of_nat (ring_system_count p) = (Z.of_nat (ring_system_count scaffold) - 1)%Z)
    (MurckoRingSystemFragmenter_ring scaffold) (enumerate (ring_systems scaffold)))
    with (s := (h, @nil Scaffold)) as ([h' ps] & Hrun & He & Hps).
  - intros x [h1 ps1] _ [He Hps]. simpl in *.
    destruct (MurckoRingSystemFragmenter_ring_run scaffold x h1 ps1)
      as (h2 & frags & -> & He2).
    eexists. split; [done|]. simpl. split; [by eapply heap_extends_trans|].
    intros p [?|(f & _ & -> & Hc)]%add_parents_spec; [auto|]. done.
  - split; [apply heap_extends_refl|]. intros p Hp. by apply elem_of_nil in Hp.
  - eauto.
Qed.
End Store_of_fragmentation.

(** * The enumeration of the hierarchy *)

Lemma Scaffold_in_spec s ss : Scaffold_in s ss = true ↔ key s ∈ key <$> ss.
Proof.
  unfold Scaffold_in, Scaffold_eqb. rewrite existsb_exists, list_elem_of_fmap.
  split.
  - intros (x & Hx%list_elem_of_In & Hk%bool_decide_eq_true). eauto.
  - intros (x & Hk & Hx%list_elem_of_In). exists x. by rewrite bool_decide_eq_true.
Qed.

Lemma Scaffold_set_add_NoDup s ss :
  NoDup (key <$> ss) → NoDup (key <$> Scaffold_set_add s ss).
Proof.
  intros Hnd. unfold Scaffold_set_add.
  destruct (Scaffold_in s ss) eqn:Hin; [done|].
  rewrite fmap_app. apply NoDup_app. split; [done|]. split.
  - intros k Hk [->|[]%elem_of_nil]%elem_of_cons.
    apply Scaffold_in_spec in Hk. congruence.
  - apply NoDup_singleton.
Qed.

Section Enumeration.
Context `{ChemEngine}.
Context (fragmenter : Fragmenter) (level : Scaffold → nat).
(** The fragmenter is hierarchical: it returns, it keeps the molecules the
    store has, and its parents are on a lower level than the child. *)
Context (Hfragment : ∀ child h, ∃ h' parents,
  fragment fragmenter child h = Some (h', parents) ∧ heap_extends h h' ∧
  ∀ p, p ∈ parents → level p < level child).

Lemma generation_grows_refl st : generation_grows st st.
Proof.
  split; [apply heap_extends_refl|]. split; [|done]. exists []. by rewrite app_nil_r.
Qed.

Lemma generation_grows_trans st1 st2 st3 :
  generation_grows st1 st2 → generation_grows st2 st3 → generation_grows st1 st3.
Proof.
  intros (E1 & [k1 K1] & N1) (E2 & [k2 K2] & N2). split; [by eapply heap_extends_trans|].
  split; [|auto]. exists (k1 ++ k2). by rewrite K2, K1, app_assoc.
Qed.

Lemma recursive_generation_run fuel child st :
  level child < fuel →
  ∃ st', recursive_generation fragmenter fuel child st = Some st' ∧ generation_grows st st'.
Proof.
  revert child st. induction fuel as [|fuel IH]; intros child [h parents] Hfuel; [lia|].
  cbn [recursive_generation].
  destruct (Hfragment child h) as (h1 & next & -> & He & Hnext). simpl mbind.
  destruct (for_each_is_Some (generation_grows (h, parents))
              (visit_parent (recursive_generation fragmenter fuel)) next)
    with (s := (h1, parents)) as (st' & Hst' & Hgrow).
  - intros p [h2 ps] Hp Hgr. unfold visit_parent.
    destruct (Scaffold_in p ps) eqn:Hin; [eauto|].
    destruct (IH p (h2, ps ++ [p])) as (st' & -> & Hgr'); [specialize (Hnext p Hp); lia|].
    exists st'. split; [done|].
    eapply generation_grows_trans; [exact Hgr|].
    eapply generation_grows_trans; [|exact Hgr'].
    split; [apply heap_extends_refl|]. split; [by exists [p]|]. simpl.
    intros Hnd. pose proof (Scaffold_set_add_NoDup p ps Hnd) as Hadd.
    unfold Scaffold_set_add in Hadd. by rewrite Hin in Hadd.
  - split; [done|]. split; [|done]. exists []. by rewrite app_nil_r.
  - eauto.
Qed.

Lemma visit_parent_mono (r1 r2 : Scaffold → heap * list Scaffold → option (heap * list Scaffold))
    p st st' :
  (∀ x t t', r1 x t = Some t' → r2 x t = Some t') →
  visit_parent r1 p st = Some st' → visit_parent r2 p st = Some st'.
Proof. intros Hr. unfold visit_parent. destruct st. case_match; eauto. Qed.

(** More fuel does not change what [recursive_generation] returns. *)
Lemma recursive_generation_fuel_mono n m child st st' :
  n ≤ m → recursive_generation fragmenter n child st = Some st' →
  recursive_generation fragmenter m child st = Some st'.
Proof.
  revert m child st st'. induction n as [|n IH]; intros m child [h ps] st' Hnm; [done|].
  destruct m as [|m]; [lia|]. cbn [recursive_generation].
  destruct (fragment fragmenter child h) as [[h1 next]|]; simpl mbind; [|done].
  apply for_each_ext_Some. intros p t t'. apply visit_parent_mono.
  intros x s s'. apply IH. lia.
Qed.
End Enumeration.

(** * Sets of Scaffolds *)

Lemma Scaffold_set_add_elem s ss x :
  x ∈ Scaffold_set_add s ss → x ∈ ss ∨ x = s.
Proof.
  unfold Scaffold_set_add. destruct (Scaffold_in s ss); [auto|].
  intros [?| ->%list_elem_of_singleton]%elem_of_app; auto.
Qed.

Lemma Scaffold_set_add_keys s ss :
  key s ∈ key <$> Scaffold_set_add s ss ∧ ∀ k, k ∈ key <$> ss → k ∈ key <$> Scaffold_set_add s ss.
Proof.
  unfold Scaffold_set_add. destruct (Scaffold_in s ss) eqn:Hin.
  - split; [by apply Scaffold_in_spec|done].
  - rewrite fmap_app. split; [|intros k Hk]; apply elem_of_app; [right; left|by left].
Qed.

(** The set built by adding the images of [xs] one by one. *)
Lemma Scaffold_set_fold {A} (g : A → Scaffold) xs init :
  let ss := foldl (λ ss x, Scaffold_set_add (g x) ss) init xs in
  (∀ s, s ∈ ss → s ∈ init ∨ ∃ x, x ∈ xs ∧ s = g x) ∧
  (∀ x, x ∈ xs → key (g x) ∈ key <$> ss) ∧
  (∀ k, k ∈ key <$> init → k ∈ key <$> ss) ∧
  (NoDup (key <$> init) → NoDup (key <$> ss)).
Proof.
  revert init. induction xs as [|x xs IH]; intros init; simpl.
  - repeat split; auto. intros y Hy. by apply elem_of_nil in Hy.
  - destruct (IH (Scaffold_set_add (g x) init)) as (I1 & I2 & I3 & I4).
    destruct (Scaffold_set_add_keys (g x) init) as [K1 K2].
    repeat split.
    + intros s [[?| ->]%Scaffold_set_add_elem|(y & Hy & ->)]%I1; [auto|right..].
      * exists x. split; [left|done].
      * exists y. split; [by right|done].
    + intros y [->|Hy]%elem_of_cons; [by apply I3|by apply I2].
    + intros k Hk. by apply I3, K2.
    + intros Hnd. by apply I4, Scaffold_set_add_NoDup.
Qed.

(** * The properties of the specification *)

(** C4 (amended). At a hub, a neighbour with three non-terminal neighbours
    or more reached over an unvisited bond that is in no ring: if the bond is
    not a double bond, the current atom is added to the delete set, the hub
    is property-corrected and the bond is marked visited; if the bond is a
    double bond, the delete set, the store and the visited set stay as they
    are; in both cases the hub is added to the ring attachments exactly when
    it is in a ring. *)
Theorem collect_bond_hub (collect : AtomRef → Collector → option Collector)
    (origin_atom : AtomRef) (bond : BondRef) (c : Collector) :
  let other_atom := BondAPI.GetOtherAtom (c_heap c) bond origin_atom in
  bond_idx bond ∉ visited c →
  Bond_IsInRing (c_heap c) bond = false →
  2 < GetDegree (c_heap c) other_atom →
  3 ≤ non_terminal_branches (c_heap c) other_atom →
  ∃ c', collect_bond collect origin_atom bond c = Some c' ∧
    (if decide (BondAPI.GetBondType (c_heap c) bond = BondType.DOUBLE) then
       remove_atoms c' = remove_atoms c ∧ visited c' = visited c ∧ c_heap c' = c_heap c
     else
       remove_atoms c' = {[atom_idx origin_atom]} ∪ remove_atoms c ∧
       visited c' = {[bond_idx bond]} ∪ visited c ∧
       c_heap c' = correct_atom_props other_atom (c_heap c)) ∧
    ring_attachments c' =
      (if Atom_IsInRing (c_heap c) other_atom
       then {[atom_idx other_atom]} ∪ ring_attachments c else ring_attachments c).
Proof.
  intros other_atom Hvis Hnr Hdeg Hntb. unfold collect_bond. fold other_atom.
  rewrite Hnr, orb_false_r, bool_decide_eq_false_2 by done.
  destruct (GetDegree (c_heap c) other_atom =? 1) eqn:E1; [apply Nat.eqb_eq in E1; lia|].
  destruct (GetDegree (c_heap c) other_atom =? 2) eqn:E2; [apply Nat.eqb_eq in E2; lia|].
  destruct (2 <? GetDegree (c_heap c) other_atom) eqn:E3; [|apply Nat.ltb_ge in E3; lia].
  destruct (non_terminal_branches (c_heap c) other_atom <? 3) eqn:E4;
    [apply Nat.ltb_lt in E4; lia|].
  eexists. split; [done|]. unfold collect_hub.
  destruct (decide (BondAPI.GetBondType (c_heap c) bond = BondType.DOUBLE)) as [Hd|Hd].
  - rewrite bool_decide_eq_true_2 by done. simpl.
    destruct (Atom_IsInRing (c_heap c) other_atom); done.
  - rewrite bool_decide_eq_false_2 by done. simpl.
    rewrite (Atom_IsInRing_edits _ _ _ (correct_atom_props_edits other_atom (c_heap c)))
      by done.
    destruct (Atom_IsInRing (c_heap c) other_atom); done.
Qed.

(** C5. A run of the Linker Collector as the fragmenters start it, from a
    ring atom with more than two neighbours in a molecule whose ring
    information fits its graph, returns; every atom it adds to the delete set
    is the origin itself or an atom of no ring, so an added atom is on no ring
    but those the origin is on; and every bond it marks, the bonds it crosses
    among them, is in no ring. *)
Theorem collect_linker_atoms_spares_rings (origin : AtomRef) (remove : gset nat)
    (include_origin : bool) (h : heap) :
  let info := ring_info (the_mol h (atom_mol origin)) in
  ring_info_wf (the_mol h (atom_mol origin)) →
  2 < GetDegree h origin →
  ∃ c h' remove' attachments,
    collect (collect_depth h origin) origin (mkCollector h remove ∅ ∅) = Some c ∧
    collect_linker_atoms origin remove include_origin h = Some (h', remove', attachments) ∧
    (∀ a, a ∈ remove' → a ∈ remove ∨ a = atom_idx origin ∨ NumAtomRings info a = 0) ∧
    (∀ a, a ∈ remove' → a ∉ remove →
       ∀ r, r ∈ info → a ∈ aix r → atom_idx origin ∈ aix r) ∧
    (∀ b, b ∈ visited c → NumBondRings info b = 0).
Proof.
  intros info Hwf Hdeg.
  destruct (collect_enough_fuel h origin remove) as [c Hc].
  pose proof (collect_spares_rings _ origin (mkCollector h remove ∅ ∅) c Hwf
                ltac:(simpl; lia) Hc) as [_ Ha Hb].
  simpl in Ha, Hb. fold info in Ha, Hb.
  assert (∀ remove', remove' ⊆ remove_atoms c →
            ∀ a, a ∈ remove' → a ∈ remove ∨ a = atom_idx origin ∨ NumAtomRings info a = 0)
    as Hsub by (intros remove' Hs a Hin; apply Ha, Hs, Hin).
  unfold collect_linker_atoms. rewrite Hc. simpl.
  eexists c, _, _, _. split; [done|]. split; [done|].
  match goal with |- (∀ a, a ∈ ?r → _) ∧ _ =>
    assert (∀ a, a ∈ r → a ∈ remove ∨ a = atom_idx origin ∨ NumAtomRings info a = 0) as Hr
  end.
  { apply Hsub. destruct include_origin; simpl;
      (destruct (Atom_IsInRing _ _); simpl; set_solver). }
  split; [exact Hr|]. split.
  - intros a Hin Hnew r Hrin Har. destruct (Hr a Hin) as [?|[->|H0]]; [done..|].
    exfalso. revert H0. apply NumAtomRings_ne_0. eauto.
  - intros b Hin. destruct (Hb b Hin) as [[]%elem_of_empty|?]. done.
Qed.

Section Claims.
Context `{ChemEngine}.

(** C1. Every Scaffold in the list the Ring Fragmenter's [fragment] returns
    has a ring count exactly one less than the input scaffold's; and
    [fragment] does return a list, for every scaffold and store. *)
Theorem MurckoRingFragmenter_one_ring_less (use_scheme_4 : bool)
    (scaffold : Scaffold) (h : heap) :
  ∃ h' parents,
    fragment (MurckoRingFragmenter use_scheme_4) scaffold h = Some (h', parents) ∧
    ∀ parent, parent ∈ parents →
      Z.of_nat (length (rings parent)) = (Z.of_nat (length (rings scaffold)) - 1)%Z.
Proof.
  destruct (MurckoRingFragmenter_fragment_run use_scheme_4 scaffold h)
    as (h' & parents & Hrun & _ & Hcount).
  exists h', parents. split; [exact Hrun|]. intros parent Hp. by apply Hcount.
Qed.

(** C2. When the input scaffold has exactly one ring system, the Ring-System
    Fragmenter's [fragment] returns the empty list, whatever the ring count,
    and leaves the store as it is. *)
Theorem MurckoRingSystemFragmenter_single_system (scaffold : Scaffold) (h : heap) :
  length (ring_systems scaffold) = 1 →
  fragment MurckoRingSystemFragmenter scaffold h = Some (h, []).
Proof.
  intros Hone. simpl. unfold MurckoRingSystemFragmenter_fragment. by rewrite Hone.
Qed.

(** C9. Whichever of the two fragmenters runs, every molecule object the
    store held before the call, the scaffold's own among them, is in the
    store after the call exactly as it was: the edits go to the copies. *)
Theorem fragment_keeps_the_store (fragmenter : Fragmenter) (scaffold : Scaffold)
    (h h' : heap) (parents : list Scaffold) :
  (fragmenter = MurckoRingSystemFragmenter ∨
   ∃ use_scheme_4, fragmenter = MurckoRingFragmenter use_scheme_4) →
  fragment fragmenter scaffold h = Some (h', parents) →
  heap_extends h h' ∧
  (mol scaffold < length h → the_mol h' (mol scaffold) = the_mol h (mol scaffold)).
Proof.
  intros Hf Hrun.
  assert (heap_extends h h') as He.
  { destruct Hf as [->|[u ->]]; simpl in Hrun.
    - destruct (MurckoRingSystemFragmenter_fragment_run scaffold h)
        as (h1 & ps & Hrun1 & He & _).
      rewrite Hrun1 in Hrun. by injection Hrun as <- <-.
    - destruct (MurckoRingFragmenter_fragment_run u scaffold h)
        as (h1 & ps & Hrun1 & He & _).
      rewrite Hrun1 in Hrun. by injection Hrun as <- <-. }
  split; [exact He|]. by apply heap_extends_the_mol.
Qed.

(** Both fragmenters are hierarchical: on the level they count (rings, ring
    systems), each parent is strictly below the child. *)
Lemma fragmenter_hierarchical (break_fused_rings : bool) child h :
  let fragmenter := if break_fused_rings then MurckoRingFragmenter false
                    else MurckoRingSystemFragmenter in
  let level := if break_fused_rings then ring_count else ring_system_count in
  ∃ h' parents, fragment fragmenter child h = Some (h', parents) ∧ heap_extends h h' ∧
    ∀ p, p ∈ parents → level p < level child.
Proof.
  destruct break_fused_rings; simpl.
  - destruct (MurckoRingFragmenter_fragment_run false child h) as (h' & ps & Hr & He & Hc).
    exists h', ps. repeat split; [done..|]. intros p Hp. specialize (Hc p Hp). lia.
  - destruct (MurckoRingSystemFragmenter_fragment_run child h) as (h' & ps & Hr & He & Hc).
    exists h', ps. repeat split; [done..|]. intros p Hp. specialize (Hc p Hp). lia.
Qed.

(** The enumeration from the seed of [get_all_murcko_fragments]: with fuel
    above the seed's level it returns, the same for any such fuel. *)
Lemma get_all_murcko_fragments_run (mol_ : loc) (break_fused_rings : bool) (h : heap) :
  let fragmenter := if break_fused_rings then MurckoRingFragmenter false
                    else MurckoRingSystemFragmenter in
  let level := if break_fused_rings then ring_count else ring_system_count in
  let seed := length h in
  let h0 := update_mol seed RemoveStereochemistry (h ++ [GetScaffoldForMol (the_mol h mol_)]) in
  let scaffold := new_Scaffold h0 seed in
  ∃ h' k,
    heap_extends h0 h' ∧ NoDup (key <$> scaffold :: k) ∧
    ∀ fuel, level scaffold < fuel →
      recursive_generation fragmenter fuel scaffold (h0, [scaffold]) = Some (h', scaffold :: k) ∧
      get_all_murcko_fragments fuel mol_ break_fused_rings h = Some (h', mol <$> scaffold :: k).
Proof.
  intros fragmenter level seed h0 scaffold.
  destruct (recursive_generation_run fragmenter level
              (fragmenter_hierarchical break_fused_rings)
              (S (level scaffold)) scaffold (h0, [scaffold]))
    as ([h' ps] & Hrun & He & [k Hk] & Hnd); [lia|]. simpl in He, Hk, Hnd. subst ps.
  exists h', k. split; [done|]. split; [apply Hnd, NoDup_singleton|].
  intros fuel Hfuel.
  assert (recursive_generation fragmenter fuel scaffold (h0, [scaffold])
          = Some (h', scaffold :: k)) as Hfuel_run.
  { eapply recursive_generation_fuel_mono; [|exact Hrun]. lia. }
  split; [done|].
  unfold get_all_murcko_fragments, get_murcko_scaffold, alloc. cbn beta iota.
  fold seed. fold h0. fold scaffold. fold fragmenter. by rewrite Hfuel_run.
Qed.

(** C10. The list the enumeration entry point returns contains the seed, the
    Murcko scaffold of the input with its stereochemistry removed, and the
    seed molecule is in the store as the entry point made it. *)
Theorem get_all_murcko_fragments_has_seed (mol_ : loc) (break_fused_rings : bool)
    (h : heap) :
  let seed := (get_murcko_scaffold mol_ false h).2 in
  ∃ bound, ∀ fuel, bound ≤ fuel →
    ∃ h' result,
      get_all_murcko_fragments fuel mol_ break_fused_rings h = Some (h', result) ∧
      seed ∈ result ∧
      the_mol h' seed = RemoveStereochemistry (GetScaffoldForMol (the_mol h mol_)).
Proof.
  intros seed.
  destruct (get_all_murcko_fragments_run mol_ break_fused_rings h) as (h' & k & He & _ & Hrun).
  exists (S ((if break_fused_rings then ring_count else ring_system_count) (new_Scaffold (update_mol (length h) RemoveStereochemistry
             (h ++ [GetScaffoldForMol (the_mol h mol_)])) (length h)))).
  intros fuel Hfuel.
  destruct (Hrun fuel) as [_ Hall]; [lia|].
  eexists h', _. split; [exact Hall|]. split; [left|].
  unfold seed, get_murcko_scaffold, alloc. simpl.
  rewrite (heap_extends_the_mol _ _ _ He).
  - rewrite the_mol_update_mol, decide_True; [|split; [done|rewrite length_app; simpl; lia]].
    by rewrite the_mol_alloc.
  - rewrite length_update_mol, length_app. simpl. lia.
Qed.
(** C3. When the partial sanitization of an edited graph raises, the
    Candidate Validator returns the empty set (a value: nothing is raised to
    its caller); when it succeeds, the validator returns Scaffolds of the
    connected components only, a Scaffold equal to each component's, and no
    two equal Scaffolds. *)
Theorem get_scaffold_frags_spec (frag : loc) (h : heap) :
  match partial_sanitization frag h with
  | (h1, Some ValueError) => get_scaffold_frags frag h = (h1, [])
  | (h1, None) =>
      let components := GetMolFrags (the_mol h1 frag) in
      ∃ frags, get_scaffold_frags frag h = (h1 ++ components, frags) ∧
        (∀ s, s ∈ frags → ∃ i m, components !! i = Some m ∧
           s = mkScaffold (length h1 + i) (ring_info m) (GetRingSystems m)
                          (CanonicalKey m) None) ∧
        (∀ m, m ∈ components → ∃ s, s ∈ frags ∧ key s = CanonicalKey m) ∧
        NoDup (key <$> frags)
  end.
Proof.
  unfold get_scaffold_frags.
  destruct (partial_sanitization frag h) as [h1 [[]|]]; [done|]. simpl.
  rewrite alloc_all_spec. eexists. split; [done|].
  set (components := GetMolFrags (the_mol h1 frag)).
  assert (∀ i m, components !! i = Some m →
            new_Scaffold (h1 ++ components) (length h1 + i)
            = mkScaffold (length h1 + i) (ring_info m) (GetRingSystems m)
                         (CanonicalKey m) None) as Hnew.
  { intros i m Him. unfold new_Scaffold.
    assert (the_mol (h1 ++ components) (length h1 + i) = m) as ->; [|done].
    unfold the_mol. apply list_lookup_total_correct.
    rewrite lookup_app_r by lia. by replace (length h1 + i - length h1) with i by lia. }
  destruct (Scaffold_set_fold (new_Scaffold (h1 ++ components))
              (seq (length h1) (length components)) []) as (S1 & S2 & _ & S4).
  unfold Scaffold_set. repeat split.
  - intros s [[]%elem_of_nil|(x & Hx & ->)]%S1.
    apply elem_of_seq in Hx. exists (x - length h1).
    destruct (lookup_lt_is_Some_2 components (x - length h1)) as [m Hm]; [lia|].
    exists m. split; [done|].
    rewrite <- (Hnew _ _ Hm). f_equal. lia.
  - intros m (i & Hi)%list_elem_of_lookup.
    pose proof (lookup_lt_Some _ _ _ Hi) as Hlt.
    assert (length h1 + i ∈ seq (length h1) (length components)) as Hin
      by (apply elem_of_seq; lia).
    apply S2, list_elem_of_fmap in Hin as (s & Hk & Hs).
    exists s. split; [exact Hs|]. by rewrite <- Hk, (Hnew _ _ Hi).
  - apply S4. simpl. apply NoDup_nil_2.
Qed.

End Claims.

(** * Bond edits *)

Lemma the_bond_update_bond b f h b' :
  the_bond (update_bond b f h) b' =
    if decide (b = b' ∧ bond_mol b < length h
               ∧ bond_idx b < length (bonds (the_mol h (bond_mol b))))
    then f (the_bond h b) else the_bond h b'.
Proof.
  unfold the_bond, update_bond. rewrite the_mol_update_mol.
  destruct b as [l i], b' as [l' i']; simpl.
  repeat case_decide; simpl; try rewrite list_lookup_total_alter;
    repeat case_decide; naive_solver.
Qed.

Lemma the_atom_update_bond b f h a : the_atom (update_bond b f h) a = the_atom h a.
Proof.
  unfold the_atom, update_bond. rewrite the_mol_update_mol. by case_decide as Hd; [destruct Hd as [<- _]|].
Qed.

Lemma shared_not_unshared info ring x :
  x ∈ shared_bonds info ring → x ∉ unshared_bonds info ring.
Proof.
  unfold shared_bonds, unshared_bonds.
  rewrite !elem_of_list_to_set, !list_elem_of_filter. intros [? _] [? _]. lia.
Qed.

(** The small-ring rule on a ring of three atoms, one of them neither
    hydrogen nor carbon, with one bond [x] shared with another ring: the rule
    sets the type of the edit copy's bond [x] to double and changes nothing
    else. *)
Lemma scheme_4_sets_double (scaffold : Scaffold) (ring : Ring)
    (edit : loc) (h : heap) (x : nat) :
  let info := rings scaffold in
  let bond := GetBondWithIdx edit x in
  let h' := scheme_4 true scaffold ring edit h in
  length (aix ring) = 3 →
  length (filter (λ a, a ≠ 1 ∧ a ≠ 6)
                 (AtomAPI.GetAtomicNum h <$> ring_atoms scaffold ring)) = 1 →
  size (shared_bonds info ring) = 1 →
  x ∈ shared_bonds info ring →
  edit < length h →
  x < length (bonds (the_mol h edit)) →
  h' = BondAPI.SetBondType bond BondType.DOUBLE h ∧
  BondAPI.GetBondType h' bond = BondType.DOUBLE ∧
  BondAPI.GetBeginAtomIdx h' bond = BondAPI.GetBeginAtomIdx h bond ∧
  BondAPI.GetEndAtomIdx h' bond = BondAPI.GetEndAtomIdx h bond ∧
  (∀ b, b ≠ bond → the_bond h' b = the_bond h b) ∧
  (∀ a, the_atom h' a = the_atom h a) ∧
  x ∉ unshared_bonds info ring.
Proof.
  intros info bond h' Hlen Hhet Hsize Hin Hedit Hx.
  assert (h' = BondAPI.SetBondType bond BondType.DOUBLE h) as E.
  { unfold h', scheme_4. rewrite Hlen. simpl. rewrite Hhet. simpl.
    fold info. rewrite Hsize. simpl.
    apply size_1_elem_of in Hsize as [y Hy]. apply leibniz_equiv in Hy.
    rewrite Hy in Hin |- *. apply elem_of_singleton in Hin as ->.
    by rewrite elements_singleton. }
  split; [exact E|]. rewrite E.
  unfold BondAPI.GetBondType, BondAPI.GetBeginAtomIdx, BondAPI.GetEndAtomIdx,
    BondAPI.SetBondType.
  rewrite !the_bond_update_bond. rewrite decide_True by done. simpl.
  repeat split; [| |by apply shared_not_unshared].
  - intros b Hb. rewrite the_bond_update_bond, decide_False; [done|]. intros [? _]. congruence.
  - intros a. apply the_atom_update_bond.
Qed.

(** C6, as the spec has it, fails on 7-phenyl-7-azabicyclo[4.1.0]heptane:
    the aziridine ring (ring 0) has three atoms, one heteroatom and one shared
    bond, yet with the rule enabled [fragment] returns parents for the rings
    1 and 2 only.  Removing the nitrogen leaves cyclohexene and benzene apart,
    one ring each, where a parent needs two. *)
Lemma scheme_4_ring_without_parent :
  let h := [Examples.phenyl_azabicycloheptane] in
  let scaffold := Examples.scaffold_at h 0 in
  let ring := mkRing [0; 1; 2] [0; 2; 1] in
  rings scaffold !! 0 = Some ring ∧
  length (aix ring) = 3 ∧
  length (filter (λ a, a ≠ 1 ∧ a ≠ 6)
                 (AtomAPI.GetAtomicNum h <$> ring_atoms scaffold ring)) = 1 ∧
  size (shared_bonds (rings scaffold) ring) = 1 ∧
  ∃ h' parents,
    fragment (@MurckoRingFragmenter Reference.engine true) scaffold h = Some (h', parents) ∧
    removed_ring_idx <$> parents = [Some 1; Some 2].
Proof.
  split; [reflexivity|]. split; [reflexivity|].
  split; [vm_compute; reflexivity|]. split; [vm_compute; reflexivity|].
  eexists _, _. split; vm_compute; reflexivity.
Qed.

(** C4, as the spec has it, fails on bicyclohexylidene: from atom 0 the
    bond 12 is a double bond to the hub atom 6, and the run leaves it out of
    [visited]; the delete set stays empty and the hub is recorded as a ring
    attachment. *)
Lemma collect_bond_hub_double_bond_not_visited :
  let h := [Examples.bicyclohexylidene] in
  let c := mkCollector h ∅ ∅ ∅ in
  let origin_atom := GetAtomWithIdx 0 0 in
  let bond := GetBondWithIdx 0 12 in
  let other_atom := BondAPI.GetOtherAtom h bond origin_atom in
  Bond_IsInRing h bond = false ∧
  GetDegree h other_atom = 3 ∧
  non_terminal_branches h other_atom = 3 ∧
  BondAPI.GetBondType h bond = BondType.DOUBLE ∧
  ∃ c', collect_bond (collect (collect_depth h origin_atom)) origin_atom bond c = Some c' ∧
        visited c' = ∅ ∧ remove_atoms c' = ∅ ∧ ring_attachments c' = {[6]}.
Proof.
  repeat (split; [vm_compute; reflexivity|]).
  eexists. split; [vm_compute; reflexivity|]. simpl. done.
Qed.

(** The hub case on biphenyl: from atom 0 over the single bond 12 to atom 6. *)
Lemma collect_bond_hub_witness :
  let h := [Examples.biphenyl] in
  let c := mkCollector h ∅ ∅ ∅ in
  let origin_atom := GetAtomWithIdx 0 0 in
  let bond := GetBondWithIdx 0 12 in
  let other_atom := BondAPI.GetOtherAtom h bond origin_atom in
  (bond_idx bond ∉ visited c ∧ Bond_IsInRing h bond = false ∧
   2 < GetDegree h other_atom ∧ 3 ≤ non_terminal_branches h other_atom) ∧
  ∃ c', collect_bond (collect 0) origin_atom bond c = Some c' ∧
    (if decide (BondAPI.GetBondType h bond = BondType.DOUBLE) then
       remove_atoms c' = remove_atoms c ∧ visited c' = visited c ∧ c_heap c' = c_heap c
     else
       remove_atoms c' = {[atom_idx origin_atom]} ∪ remove_atoms c ∧
       visited c' = {[bond_idx bond]} ∪ visited c ∧
       c_heap c' = correct_atom_props other_atom h) ∧
    ring_attachments c' =
      (if Atom_IsInRing h other_atom
       then {[atom_idx other_atom]} ∪ ring_attachments c else ring_attachments c).
Proof.
  split.
  - split; [apply not_elem_of_empty|]. split; [reflexivity|]. split; vm_compute; lia.
  - apply (collect_bond_hub (collect 0) (GetAtomWithIdx 0 0) (GetBondWithIdx 0 12)
             (mkCollector [Examples.biphenyl] ∅ ∅ ∅));
      [apply not_elem_of_empty|reflexivity|vm_compute; lia|vm_compute; lia].
Defined.

(** A run of the Linker Collector on biphenyl, from atom 0. *)
Lemma collect_linker_atoms_spares_rings_witness :
  let h := [Examples.biphenyl] in
  let origin := GetAtomWithIdx 0 0 in
  let info := ring_info (the_mol h 0) in
  (ring_info_wf (the_mol h 0) ∧ 2 < GetDegree h origin) ∧
  ∃ c h' remove' attachments,
    collect (collect_depth h origin) origin (mkCollector h ∅ ∅ ∅) = Some c ∧
    collect_linker_atoms origin ∅ true h = Some (h', remove', attachments) ∧
    (∀ a, a ∈ remove' → a ∈ (∅ : gset nat) ∨ a = atom_idx origin ∨ NumAtomRings info a = 0) ∧
    (∀ a, a ∈ remove' → a ∉ (∅ : gset nat) →
       ∀ r, r ∈ info → a ∈ aix r → atom_idx origin ∈ aix r) ∧
    (∀ b, b ∈ visited c → NumBondRings info b = 0).
Proof.
  assert (ring_info_wf (the_mol [Examples.biphenyl] 0)) as Hwf.
  { apply (bool_decide_unpack _). vm_compute. exact I. }
  split.
  - split; [exact Hwf|]. vm_compute. lia.
  - apply (collect_linker_atoms_spares_rings (GetAtomWithIdx 0 0) ∅ true
             [Examples.biphenyl]); [exact Hwf|vm_compute; lia].
Defined.

(** Naphthalene: two rings, one ring system. *)
Lemma MurckoRingSystemFragmenter_single_system_witness :
  let h := [Examples.naphthalene] in
  let scaffold := Examples.scaffold_at h 0 in
  (length (ring_systems scaffold) = 1 ∧ length (rings scaffold) = 2) ∧
  fragment (@MurckoRingSystemFragmenter Reference.engine) scaffold h = Some (h, []).
Proof.
  split.
  - split; vm_compute; reflexivity.
  - apply (@MurckoRingSystemFragmenter_single_system Reference.engine
             (Examples.scaffold_at [Examples.naphthalene] 0) [Examples.naphthalene]).
    vm_compute. reflexivity.
Defined.

(** The ring fragmenter on biphenyl: two parents, and the store keeps biphenyl. *)
Lemma fragment_keeps_the_store_witness :
  let h := [Examples.biphenyl] in
  let scaffold := Examples.scaffold_at h 0 in
  let fragmenter := @MurckoRingFragmenter Reference.engine false in
  ∃ h' parents,
    fragment fragmenter scaffold h = Some (h', parents) ∧
    length parents = 2 ∧
    heap_extends h h' ∧
    (mol scaffold < length h → the_mol h' (mol scaffold) = the_mol h (mol scaffold)).
Proof.
  eexists _, _. split; [vm_compute; reflexivity|]. split; [reflexivity|].
  eapply (@fragment_keeps_the_store Reference.engine
            (@MurckoRingFragmenter Reference.engine false)
            (Examples.scaffold_at [Examples.biphenyl] 0) [Examples.biphenyl]).
  - right. by exists false.
  - vm_compute. reflexivity.
Defined.

(** * More on the fragmenters: where the parents come from *)

Lemma elem_of_enumerate {A} (l : list A) i x :
  (i, x) ∈ enumerate l → l !! i = Some x.
Proof.
  unfold enumerate. intros (k & Hk)%list_elem_of_lookup.
  apply lookup_zip_with_Some in Hk as (a & b & [= -> ->] & Ha & Hb).
  apply lookup_seq in Ha as [-> _]. done.
Qed.

Section Parents.
Context `{ChemEngine}.

(** A Scaffold the validator returns is the Scaffold of a molecule object it
    has just made. *)
Lemma get_scaffold_frags_new frag h s :
  s ∈ (get_scaffold_frags frag h).2 →
  length h ≤ mol s < length (get_scaffold_frags frag h).1 ∧
  s = new_Scaffold (get_scaffold_frags frag h).1 (mol s).
Proof.
  unfold get_scaffold_frags.
  pose proof (partial_sanitization_edits_at frag h) as [Hlen _].
  destruct (partial_sanitization frag h) as [h1 [[]|]]; simpl in *.
  { by intros ?%elem_of_nil. }
  rewrite alloc_all_spec. unfold Scaffold_set.
  set (components := GetMolFrags (the_mol h1 frag)).
  destruct (Scaffold_set_fold (new_Scaffold (h1 ++ components))
              (seq (length h1) (length components)) []) as (S1 & _).
  intros [[]%elem_of_nil|(x & Hx & ->)]%S1. simpl.
  apply elem_of_seq in Hx. rewrite length_app. split; [lia|done].
Qed.

Lemma parent_of_same h h1 h2 n p :
  length h1 ≤ length h2 → the_mol h2 (mol p) = the_mol h1 (mol p) →
  parent_of h h1 n p → parent_of h h2 n p.
Proof.
  intros Hlen Hm [Hl (rix & Hrix & Hp)]. split; [lia|]. exists rix. split; [done|].
  unfold new_Scaffold in *. by rewrite Hm.
Qed.

Lemma parent_of_extends h h1 h2 n p :
  heap_extends h1 h2 → parent_of h h1 n p → parent_of h h2 n p.
Proof.
  intros He Hp. eapply parent_of_same; [by apply heap_extends_length| |done].
  apply heap_extends_the_mol; [done|]. destruct Hp as [? _]. lia.
Qed.

(** The parents after a round that worked on the copy [h1 ++ [m]]. *)
Lemma add_parents_of count n rix (h h1 h4 : heap) m ps k p :
  length h ≤ length h1 → edits_at (length h1) (h1 ++ [m]) h4 → rix < k →
  (∀ q, q ∈ ps → parent_of h h1 k q) →
  p ∈ foldl (add_parent count n rix) ps (get_scaffold_frags (length h1) h4).2 →
  parent_of h (get_scaffold_frags (length h1) h4).1 k p.
Proof.
  intros Hlen [L4 O4] Hrix Hps [Hp|(f & Hf & -> & _)]%add_parents_spec.
  - destruct (get_scaffold_frags_store (length h1) h4) as (h5 & j & [L5 O5] & E).
    pose proof (Hps p Hp) as Hq. destruct Hq as [[_ Hlt] _].
    rewrite length_app in L4. simpl in L4.
    eapply parent_of_same; [| |by apply Hps].
    + rewrite E, length_app. lia.
    + rewrite E. unfold the_mol.
      destruct (lookup_lt_is_Some_2 h1 (mol p) Hlt) as [x Hx].
      rewrite (list_lookup_total_correct _ _ _ Hx).
      apply list_lookup_total_correct, lookup_app_l_Some.
      rewrite O5, O4 by lia. by apply lookup_app_l_Some.
  - rewrite length_app in L4. simpl in L4.
    apply get_scaffold_frags_new in Hf as [Hl Hf]. split; [simpl; lia|].
    exists rix. split; [done|]. simpl. by rewrite <- Hf.
Qed.

(** One round of either fragmenter: a copy of the scaffold's molecule is made
    and edited, and handed to the validator. *)
Lemma MurckoRingFragmenter_ring_round u scaffold x h parents :
  ∃ h4, edits_at (length h) (h ++ [the_mol h (mol scaffold)]) h4 ∧
    MurckoRingFragmenter_ring u scaffold x (h, parents)
    = Some ((get_scaffold_frags (length h) h4).1,
            foldl (add_parent ring_count (length (rings scaffold)) x.1) parents
                  (get_scaffold_frags (length h) h4).2).
Proof.
  unfold MurckoRingFragmenter_ring, RWMol, alloc. destruct x as [rix ring].
  cbn beta iota. unfold removable_atoms at 1.
  match goal with |- context [for_each ?b ?l ?s] =>
    destruct (for_each_total b l s) as [[h1 ra] Hra]; [apply removable_atom_is_Some|]
  end.
  rewrite Hra. cbn beta iota. simpl mbind.
  pose proof (removable_atoms_edits_at _ _ _ _ _ _ Hra) as E1.
  pose proof (removable_bonds_edits_at scaffold ring (length h) ra h1) as E2.
  destruct (removable_bonds scaffold ring (length h) ra h1) as [h2 rb]. simpl in E2.
  pose proof (scheme_4_edits_at u scaffold ring (length h) h2) as E3.
  pose proof (remove_collected_edits_at (length h) rb ra
                (scheme_4 u scaffold ring (length h) h2)) as E4.
  set (h4 := remove_collected _ _ _ _) in *.
  exists h4. split; [eauto using edits_at_trans|].
  by destruct (get_scaffold_frags (length h) h4).
Qed.

Lemma MurckoRingSystemFragmenter_ring_round scaffold x h parents :
  ∃ h4, edits_at (length h) (h ++ [the_mol h (mol scaffold)]) h4 ∧
    MurckoRingSystemFragmenter_ring scaffold x (h, parents)
    = Some ((get_scaffold_frags (length h) h4).1,
            foldl (add_parent ring_system_count (length (ring_systems scaffold)) x.1)
                  parents (get_scaffold_frags (length h) h4).2).
Proof.
  unfold MurckoRingSystemFragmenter_ring, RWMol, alloc. destruct x as [rix ring].
  cbn beta iota.
  match goal with |- context [for_each ?b ?l ?s] =>
    destruct (for_each_total b l s) as [[h1 ra] Hra]; [apply system_removable_atom_is_Some|]
  end.
  rewrite Hra. cbn beta iota. simpl mbind.
  apply (for_each_edits_at _ fst _ (length h)) in Hra;
    [|intros ???; apply system_removable_atom_edits_at]. simpl in Hra.
  pose proof (remove_atoms_edits_at (length h) (sorted_reverse ra) h1) as E2.
  set (h2 := foldl _ h1 _) in *.
  exists h2. split; [eauto using edits_at_trans|].
  by destruct (get_scaffold_frags (length h) h2).
Qed.

(** A loop of rounds over the enumerated rings. *)
Lemma rounds_parents_of (round : nat * Ring → heap * list Scaffold → option (heap * list Scaffold))
    (count : Scaffold → nat) (n : nat) (rings : list Ring) (h : heap) st :
  (∀ rix f, count (set_removed_ring_idx rix f) = count f) →
  (∀ x (h1 : heap) ps, ∃ m h4, edits_at (length h1) (h1 ++ [m]) h4 ∧
     round x (h1, ps) = Some ((get_scaffold_frags (length h1) h4).1,
                              foldl (add_parent count n x.1) ps
                                    (get_scaffold_frags (length h1) h4).2)) →
  for_each round (enumerate rings) (h, []) = Some st →
  ∀ p, p ∈ st.2 → parent_of h st.1 (length rings) p ∧ Z.of_nat (count p) = (Z.of_nat n - 1)%Z.
Proof.
  intros Hcount Hround Hrun.
  cut (length h ≤ length st.1 ∧
       ∀ p, p ∈ st.2 → parent_of h st.1 (length rings) p
                       ∧ Z.of_nat (count p) = (Z.of_nat n - 1)%Z); [tauto|].
  revert Hrun. apply (for_each_preserves
    (λ st : heap * list Scaffold, length h ≤ length st.1 ∧
       ∀ p, p ∈ st.2 → parent_of h st.1 (length rings) p
                       ∧ Z.of_nat (count p) = (Z.of_nat n - 1)%Z)).
  - intros [rix ring] [h1 ps] st' Hx [Hlen Hps]. simpl in *.
    destruct (Hround (rix, ring) h1 ps) as (m & h4 & Hed & Hr). intros Hst'.
    pose proof (eq_trans (eq_sym Hr) Hst') as [= <-]. simpl.
    apply elem_of_enumerate, lookup_lt_Some in Hx.
    destruct (get_scaffold_frags_store (length h1) h4) as (h5 & j & [L5 _] & E).
    pose proof Hed as [L4 _]. rewrite length_app in L4. simpl in L4.
    split; [rewrite E, length_app; lia|].
    intros p Hp. split.
    + eapply add_parents_of; [exact Hlen|exact Hed|exact Hx| |exact Hp].
      intros q Hq. by apply Hps.
    + apply add_parents_spec in Hp as [Hp|(f & _ & -> & Hc)]; [by apply Hps|by rewrite Hcount].
  - split; [done|]. intros p Hp. by apply elem_of_nil in Hp.
Qed.

Lemma fragment_parents_of (system : bool) u scaffold h :
  let fragmenter := if system then MurckoRingSystemFragmenter else MurckoRingFragmenter u in
  let n := if system then length (ring_systems scaffold) else length (rings scaffold) in
  ∃ h' parents, fragment fragmenter scaffold h = Some (h', parents) ∧
    ∀ p, p ∈ parents → parent_of h h' n p.
Proof.
  destruct system; simpl.
  - destruct (MurckoRingSystemFragmenter_fragment_run scaffold h) as (h' & ps & Hrun & _).
    exists h', ps. split; [done|]. revert Hrun. unfold MurckoRingSystemFragmenter_fragment.
    destruct (_ =? 1); [intros [= <- <-] p Hp; by apply elem_of_nil in Hp|].
    intros Hrun p Hp.
    eapply (rounds_parents_of _ ring_system_count) in Hrun as [Hrun _]; [exact Hrun|done| |exact Hp].
    intros x h1 ps1.
    destruct (MurckoRingSystemFragmenter_ring_round scaffold x h1 ps1) as (h4 & ? & ?). eauto.
  - destruct (MurckoRingFragmenter_fragment_run u scaffold h) as (h' & ps & Hrun & _).
    exists h', ps. split; [done|]. revert Hrun. unfold MurckoRingFragmenter_fragment.
    intros Hrun p Hp.
    eapply (rounds_parents_of _ ring_count) in Hrun as [Hrun _]; [exact Hrun|done| |exact Hp].
    intros x h1 ps1.
    destruct (MurckoRingFragmenter_ring_round u scaffold x h1 ps1) as (h4 & ? & ?). eauto.
Qed.

(** X1. The ring-system fragmenter returns for every scaffold and store, and
    every Scaffold it returns has exactly one ring system less than the input
    (the ring-system counterpart of the ring fragmenter's one ring less). *)
Theorem MurckoRingSystemFragmenter_one_system_less (scaffold : Scaffold) (h : heap) :
  ∃ h' parents,
    fragment MurckoRingSystemFragmenter scaffold h = Some (h', parents) ∧
    ∀ parent, parent ∈ parents →
      Z.of_nat (length (ring_systems parent))
      = (Z.of_nat (length (ring_systems scaffold)) - 1)%Z.
Proof.
  destruct (MurckoRingSystemFragmenter_fragment_run scaffold h)
    as (h' & parents & Hrun & _ & Hcount).
  exists h', parents. split; [exact Hrun|]. intros parent Hp. by apply Hcount.
Qed.

(** X2. A scaffold without rings has no parents: the ring fragmenter returns
    the empty list and leaves the store as it is; and so does the ring-system
    fragmenter on a scaffold without ring systems. *)
Theorem fragment_nothing_to_remove (use_scheme_4 : bool) (scaffold : Scaffold) (h : heap) :
  (rings scaffold = [] →
   fragment (MurckoRingFragmenter use_scheme_4) scaffold h = Some (h, [])) ∧
  (ring_systems scaffold = [] →
   fragment MurckoRingSystemFragmenter scaffold h = Some (h, [])).
Proof.
  split; intros Hnil; simpl.
  - unfold MurckoRingFragmenter_fragment. by rewrite Hnil.
  - unfold MurckoRingSystemFragmenter_fragment. by rewrite Hnil.
Qed.

(** X3. Every parent either fragmenter returns carries the index of the ring
    (ring system) whose removal gave it: [removed_ring_idx] is set, to an
    index below the number of rings (ring systems) of the child. *)
Theorem fragment_removed_ring_idx (ring_system : bool) (use_scheme_4 : bool)
    (scaffold : Scaffold) (h : heap) :
  let fragmenter := if ring_system then MurckoRingSystemFragmenter
                    else MurckoRingFragmenter use_scheme_4 in
  let n := if ring_system then length (ring_systems scaffold)
           else length (rings scaffold) in
  ∃ h' parents, fragment fragmenter scaffold h = Some (h', parents) ∧
    ∀ parent, parent ∈ parents →
      ∃ rix, removed_ring_idx parent = Some rix ∧ rix < n.
Proof.
  intros fragmenter n.
  destruct (fragment_parents_of ring_system use_scheme_4 scaffold h)
    as (h' & parents & Hrun & Hps).
  exists h', parents. split; [exact Hrun|]. intros p Hp.
  destruct (Hps p Hp) as [_ (rix & Hrix & ->)]. by exists rix.
Qed.

(** X4. The parents either fragmenter returns are Scaffolds of molecule
    objects made during the call: the molecule of a parent is none of the
    objects the store had, the child's own among them, and the parent's rings,
    ring systems and key are those of that molecule as the call leaves it. *)
Theorem fragment_parents_are_new_objects (ring_system : bool) (use_scheme_4 : bool)
    (scaffold : Scaffold) (h : heap) :
  let fragmenter := if ring_system then MurckoRingSystemFragmenter
                    else MurckoRingFragmenter use_scheme_4 in
  ∃ h' parents, fragment fragmenter scaffold h = Some (h', parents) ∧
    ∀ parent, parent ∈ parents →
      length h ≤ mol parent < length h' ∧
      rings parent = ring_info (the_mol h' (mol parent)) ∧
      ring_systems parent = GetRingSystems (the_mol h' (mol parent)) ∧
      key parent = CanonicalKey (the_mol h' (mol parent)).
Proof.
  intros fragmenter.
  destruct (fragment_parents_of ring_system use_scheme_4 scaffold h)
    as (h' & parents & Hrun & Hps).
  exists h', parents. split; [exact Hrun|]. intros p Hp.
  destruct (Hps p Hp) as [Hl (rix & Hrix & Heq)]. split; [exact Hl|].
  rewrite Heq at 1 3 5. done.
Qed.
End Parents.

(** A scaffold without rings: five single bonds around one atom. *)
Lemma fragment_nothing_to_remove_witness :
  let h := [Examples.pentavalent] in
  let scaffold := Examples.scaffold_at h 0 in
  (rings scaffold = [] ∧ ring_systems scaffold = []) ∧
  fragment (@MurckoRingFragmenter Reference.engine true) scaffold h = Some (h, []) ∧
  fragment (@MurckoRingSystemFragmenter Reference.engine) scaffold h = Some (h, []).
Proof.
  split; [split; reflexivity|].
  destruct (@fragment_nothing_to_remove Reference.engine true
              (Examples.scaffold_at [Examples.pentavalent] 0) [Examples.pentavalent])
    as [Hr Hs].
  split; [apply Hr|apply Hs]; reflexivity.
Defined.

(** * More on the Linker Collector *)

(** X5. [collect_linker_atoms] returns, for every origin, set and store: the
    recursion of [collect] is never deeper than the number of bonds of the
    molecule plus one, and a larger bound on its depth gives the same result. *)
Theorem collect_linker_atoms_terminates (origin : AtomRef) (remove : gset nat)
    (include_origin : bool) (h : heap) :
  ∃ c result,
    collect_linker_atoms origin remove include_origin h = Some result ∧
    ∀ fuel, S (length (bonds (the_mol h (atom_mol origin)))) ≤ fuel →
      collect fuel origin (mkCollector h remove ∅ ∅) = Some c.
Proof.
  destruct (collect_enough_fuel h origin remove) as [c Hc].
  destruct (collect_linker_atoms_is_Some origin remove include_origin h) as [r Hr].
  exists c, r. split; [exact Hr|]. intros fuel Hfuel.
  eapply collect_fuel_mono; [|exact Hc]. exact Hfuel.
Qed.

(** X6. With [include_origin] false the origin's index is not in the delete
    set when the call returns, also when the caller had put it there. *)
Theorem collect_linker_atoms_exclude_origin (origin : AtomRef) (remove : gset nat)
    (h : heap) :
  ∃ h' remove' attachments,
    collect_linker_atoms origin remove false h = Some (h', remove', attachments) ∧
    atom_idx origin ∉ remove'.
Proof.
  unfold collect_linker_atoms.
  destruct (collect_enough_fuel h origin remove) as [c ->]. simpl.
  eexists _, _, _. split; [done|].
  destruct (Atom_IsInRing _ _); simpl; set_solver.
Qed.

(** X7. The call takes no index out of the caller's delete set, but the
    origin's when [include_origin] is false. *)
Theorem collect_linker_atoms_keeps_indices (origin : AtomRef) (remove : gset nat)
    (include_origin : bool) (h : heap) :
  ∃ h' remove' attachments,
    collect_linker_atoms origin remove include_origin h
      = Some (h', remove', attachments) ∧
    ∀ a, a ∈ remove → include_origin = true ∨ a ≠ atom_idx origin → a ∈ remove'.
Proof.
  unfold collect_linker_atoms.
  destruct (collect_enough_fuel h origin remove) as [c Hc]. rewrite Hc. simpl.
  apply collect_le in Hc as [_ Hr _ _]. simpl in Hr.
  eexists _, _, _. split; [done|]. intros a Ha Hor.
  destruct include_origin; simpl.
  - destruct (Atom_IsInRing _ _); simpl; set_solver.
  - destruct Hor as [?|Hne]; [done|].
    destruct (Atom_IsInRing _ _); simpl; set_solver.
Qed.

(** ** What the collector may change in the store *)

Lemma keeps_graph_refl l h : keeps_graph l h h.
Proof. split; [apply edits_atoms_at_refl|done..]. Qed.

Lemma keeps_graph_trans l h1 h2 h3 :
  keeps_graph l h1 h2 → keeps_graph l h2 h3 → keeps_graph l h1 h3.
Proof.
  intros [E1 A1 K1] [E2 A2 K2]. split; [by eapply edits_atoms_at_trans| |].
  - intros l'. by rewrite A2.
  - intros a. destruct (K1 a), (K2 a). split; congruence.
Qed.

(** * More on the Atom Property Corrector *)

Lemma list_alter_alter {A} (f g : A → A) i (l : list A) :
  alter f i (alter g i l) = alter (f ∘ g) i l.
Proof.
  apply list_eq. intros j. rewrite !list_lookup_alter.
  repeat case_decide; try done. by destruct (l !! i).
Qed.

Lemma list_alter_swap {A} (f g : A → A) i j (l : list A) :
  i ≠ j → alter f i (alter g j l) = alter g j (alter f i l).
Proof.
  intros Hij. apply list_eq. intros k. rewrite !list_lookup_alter.
  repeat case_decide; subst; done.
Qed.

Lemma update_atom_ext a f g h :
  f (the_atom h a) = g (the_atom h a) → update_atom a f h = update_atom a g h.
Proof.
  intros Hfg. unfold update_atom, update_mol.
  apply list_alter_ext; [|done]. intros m Hm. f_equal.
  apply list_alter_ext; [|done]. intros x Hx.
  assert (the_atom h a = x) as <-; [|done].
  unfold the_atom, the_mol. rewrite (list_lookup_total_correct _ _ _ Hm).
  by apply list_lookup_total_correct.
Qed.

Lemma update_atom_compose a f g h :
  update_atom a f (update_atom a g h) = update_atom a (f ∘ g) h.
Proof.
  unfold update_atom, update_mol. etrans; [apply (list_alter_alter (A:=Mol))|].
  apply list_alter_ext; [|done]. intros m _. simpl. f_equal. apply list_alter_alter.
Qed.

Lemma update_atom_id a f h : f (the_atom h a) = the_atom h a → update_atom a f h = h.
Proof.
  intros Hf. rewrite (update_atom_ext a f id h) by done.
  unfold update_atom, update_mol. apply list_alter_id. intros [ats bs rs]. simpl.
  f_equal. by apply list_alter_id.
Qed.

Lemma update_atom_swap a b f g h :
  a ≠ b → update_atom a f (update_atom b g h) = update_atom b g (update_atom a f h).
Proof.
  intros Hab. unfold update_atom, update_mol.
  destruct (decide (atom_mol a = atom_mol b)) as [Hl|Hl].
  - rewrite Hl. etrans; [apply (list_alter_alter (A:=Mol))|].
    etrans; [|symmetry; apply (list_alter_alter (A:=Mol))].
    apply list_alter_ext; [|done]. intros m _. simpl.
    f_equal. apply list_alter_swap. intros Hi. apply Hab.
    destruct a, b; simpl in *; congruence.
  - by apply (list_alter_swap (A:=Mol)).
Qed.

(** The corrector is the in-place update of one atom by [corrected_atom]. *)
Lemma correct_atom_props_update atom h :
  correct_atom_props atom h = update_atom atom corrected_atom h.
Proof.
  unfold correct_atom_props, AtomAPI.GetIsAromatic, AtomAPI.GetAtomicNum,
    AtomAPI.GetNoImplicit, AtomAPI.GetChiralTag, AtomAPI.SetNumExplicitHs,
    AtomAPI.SetChiralTag, AtomAPI.SetNoImplicit.
  destruct (IsAromatic (the_atom h atom) && negb (AtomicNum (the_atom h atom) =? 6)) eqn:E1.
  - apply update_atom_ext. unfold corrected_atom. by rewrite E1.
  - destruct (NoImplicit (the_atom h atom)
              || negb (bool_decide (ChiralTag (the_atom h atom) = CHI_UNSPECIFIED))) eqn:E2.
    + rewrite !update_atom_compose. apply update_atom_ext.
      unfold corrected_atom. rewrite E1, E2. done.
    + symmetry. apply update_atom_id. unfold corrected_atom. by rewrite E1, E2.
Qed.

Lemma corrected_atom_idemp x : corrected_atom (corrected_atom x) = corrected_atom x.
Proof.
  unfold corrected_atom.
  destruct (IsAromatic x && negb (AtomicNum x =? 6)) eqn:E1; simpl; [by rewrite E1|].
  destruct (NoImplicit x || negb (bool_decide (ChiralTag x = CHI_UNSPECIFIED))) eqn:E2;
    simpl; rewrite E1; [done|]. by rewrite E2.
Qed.

(** X8. Correcting an atom twice is correcting it once: the second call
    finds nothing to change. *)
Theorem correct_atom_props_idempotent (atom : AtomRef) (h : heap) :
  correct_atom_props atom (correct_atom_props atom h) = correct_atom_props atom h.
Proof.
  rewrite !correct_atom_props_update, update_atom_compose.
  apply update_atom_ext. apply corrected_atom_idemp.
Qed.

(** X9. Corrections of two atoms do not interfere: made in either order
    they leave the same store. *)
Theorem correct_atom_props_commute (a b : AtomRef) (h : heap) :
  correct_atom_props a (correct_atom_props b h)
  = correct_atom_props b (correct_atom_props a h).
Proof.
  rewrite !correct_atom_props_update.
  destruct (decide (a = b)) as [->|Hab]; [done|]. by apply update_atom_swap.
Qed.

(** The corrector changes neither the element nor the aromaticity of an
    atom, nor the number of atoms. *)
Lemma correct_atom_props_keeps_graph atom h :
  keeps_graph (atom_mol atom) h (correct_atom_props atom h).
Proof.
  split; [apply correct_atom_props_edits| |].
  - intros l. rewrite correct_atom_props_update. unfold update_atom.
    rewrite the_mol_update_mol. case_decide as Hd; [|done].
    destruct Hd as [<- _]. simpl. apply length_alter.
  - intros a. rewrite correct_atom_props_update, the_atom_update_atom.
    case_decide as Hd; [|done]. destruct Hd as [<- _].
    unfold corrected_atom. by repeat case_match.
Qed.

Lemma collect_hub_keeps_graph o other b c :
  keeps_graph (atom_mol other) (c_heap c) (c_heap (collect_hub o other b c)).
Proof.
  unfold collect_hub.
  destruct (negb _); (destruct (Atom_IsInRing _ _); simpl;
    try apply keeps_graph_refl; apply correct_atom_props_keeps_graph).
Qed.

Lemma collect_bond_keeps_graph rec o b c c' :
  bond_mol b = atom_mol o →
  (∀ x s s', atom_mol x = atom_mol o → rec x s = Some s' →
             keeps_graph (atom_mol o) (c_heap s) (c_heap s')) →
  collect_bond rec o b c = Some c' → keeps_graph (atom_mol o) (c_heap c) (c_heap c').
Proof.
  intros Hb Hrec. unfold collect_bond.
  pose proof (GetOtherAtom_owner (c_heap c) b o) as Ho. rewrite Hb in Ho.
  destruct (_ || _); [intros [= <-]; apply keeps_graph_refl|].
  destruct (_ =? 1); [intros [= <-]; simpl; apply correct_atom_props_keeps_graph|].
  destruct (_ =? 2).
  { intros Hc'. by apply (Hrec _ _ _ Ho Hc'). }
  destruct (2 <? _); [|intros [= <-]; apply keeps_graph_refl].
  destruct (_ <? 3).
  { intros Hc'. by apply (Hrec _ _ _ Ho Hc'). }
  intros [= <-]. rewrite <- Ho. apply collect_hub_keeps_graph.
Qed.

Lemma collect_keeps_graph n o c c' :
  collect n o c = Some c' → keeps_graph (atom_mol o) (c_heap c) (c_heap c').
Proof.
  revert o c c'. induction n as [|n IH]; simpl; intros o c c' Hrun; [done|].
  eapply (for_each_inv (λ s s', keeps_graph (atom_mol o) (c_heap s) (c_heap s')));
    [..|exact Hrun].
  - intros. apply keeps_graph_refl.
  - intros ???. apply keeps_graph_trans.
  - intros b s s' Hb. apply collect_bond_keeps_graph.
    + by eapply GetBonds_owner.
    + intros x t t' Hx Ht. rewrite <- Hx. by apply IH.
Qed.

(** X10. The call changes nothing in the store but hydrogen counts,
    suppression flags and chirality tags of atoms of the origin's molecule:
    every molecule keeps its atoms with their elements and aromaticity, the
    origin's molecule keeps its bonds and its ring information, and every
    other molecule is as it was. *)
Theorem collect_linker_atoms_keeps_graph (origin : AtomRef) (remove : gset nat)
    (include_origin : bool) (h : heap) :
  ∃ h' remove' attachments,
    collect_linker_atoms origin remove include_origin h
      = Some (h', remove', attachments) ∧
    keeps_graph (atom_mol origin) h h'.
Proof.
  unfold collect_linker_atoms.
  destruct (collect_enough_fuel h origin remove) as [c Hc]. rewrite Hc. simpl.
  apply collect_keeps_graph in Hc. simpl in Hc.
  eexists _, _, _. split; [done|]. by repeat case_match.
Qed.

(** ** The ring attachments *)

Lemma collect_bond_attachments rec o b c c' info :
  let J := λ s : Collector,
    ring_info (the_mol (c_heap s) (atom_mol o)) = info ∧
    ∀ a, a ∈ ring_attachments s → NumAtomRings info a ≠ 0 in
  bond_mol b = atom_mol o →
  (∀ x s s', atom_mol x = atom_mol o → J s → rec x s = Some s' → J s') →
  J c → collect_bond rec o b c = Some c' → J c'.
Proof.
  intros J Hb Hrec [Hinfo Hatt]. unfold collect_bond.
  pose proof (GetOtherAtom_owner (c_heap c) b o) as Ho. rewrite Hb in Ho.
  set (other := BondAPI.GetOtherAtom (c_heap c) b o) in *.
  destruct (_ || _); [by intros [= <-]|].
  destruct (_ =? 1).
  { intros [= <-]. split; simpl; [|done].
    by rewrite (eaa_rings _ _ _ (correct_atom_props_edits o (c_heap c))). }
  destruct (_ =? 2); [by apply Hrec|].
  destruct (2 <? _); [|by intros [= <-]].
  destruct (_ <? 3); [by apply Hrec|].
  intros [= <-]. unfold collect_hub.
  assert (ring_info (the_mol (correct_atom_props other (c_heap c)) (atom_mol o)) = info)
    as Hinfo'.
  { rewrite <- Ho. rewrite (eaa_rings _ _ _ (correct_atom_props_edits other (c_heap c))).
    by rewrite Ho. }
  destruct (negb _); simpl.
  - destruct (Atom_IsInRing _ other) eqn:Hring; simpl; [|done].
    split; [done|]. intros a [->%elem_of_singleton|?]%elem_of_union; [|by apply Hatt].
    unfold Atom_IsInRing in Hring. rewrite Ho, Hinfo' in Hring.
    by apply negb_true_iff, Nat.eqb_neq in Hring.
  - destruct (Atom_IsInRing _ other) eqn:Hring; simpl; [|done].
    split; [done|]. intros a [->%elem_of_singleton|?]%elem_of_union; [|by apply Hatt].
    unfold Atom_IsInRing in Hring. rewrite Ho, Hinfo in Hring.
    by apply negb_true_iff, Nat.eqb_neq in Hring.
Qed.

Lemma collect_attachments n o c c' info :
  ring_info (the_mol (c_heap c) (atom_mol o)) = info →
  (∀ a, a ∈ ring_attachments c → NumAtomRings info a ≠ 0) →
  collect n o c = Some c' →
  ring_info (the_mol (c_heap c') (atom_mol o)) = info ∧
  ∀ a, a ∈ ring_attachments c' → NumAtomRings info a ≠ 0.
Proof.
  revert o c c'. induction n as [|n IH]; simpl; intros o c c' Hinfo Hatt Hrun; [done|].
  eapply (for_each_preserves (λ s : Collector,
            ring_info (the_mol (c_heap s) (atom_mol o)) = info ∧
            ∀ a, a ∈ ring_attachments s → NumAtomRings info a ≠ 0));
    [|split; [exact Hinfo|exact Hatt]|exact Hrun].
  intros b s s' Hb Hs. apply collect_bond_attachments; [by eapply GetBonds_owner| |done].
  intros x t t' Hx [Ht1 Ht2] Ht. rewrite <- Hx in *. by eapply IH.
Qed.

(** X11. The ring attachments the call returns are ring atoms of the origin's
    molecule, and the origin is among them when it is a ring atom. *)
Theorem collect_linker_atoms_attachments (origin : AtomRef) (remove : gset nat)
    (include_origin : bool) (h : heap) :
  ∃ h' remove' attachments,
    collect_linker_atoms origin remove include_origin h
      = Some (h', remove', attachments) ∧
    (∀ a, a ∈ attachments →
       Atom_IsInRing h (GetAtomWithIdx (atom_mol origin) a) = true) ∧
    (Atom_IsInRing h origin = true → atom_idx origin ∈ attachments).
Proof.
  unfold collect_linker_atoms.
  destruct (collect_enough_fuel h origin remove) as [c Hc]. rewrite Hc. simpl.
  apply collect_attachments with (info := ring_info (the_mol h (atom_mol origin))) in Hc
    as [Hinfo Hatt]; [|done|by intros a ?%elem_of_empty].
  assert (Atom_IsInRing (c_heap c) origin = Atom_IsInRing h origin) as Hsame
    by (unfold Atom_IsInRing; by rewrite Hinfo).
  assert (∀ a, NumAtomRings (ring_info (the_mol h (atom_mol origin))) a ≠ 0 →
            Atom_IsInRing h (GetAtomWithIdx (atom_mol origin) a) = true) as Hin.
  { intros a Ha. unfold Atom_IsInRing. simpl. by apply negb_true_iff, Nat.eqb_neq. }
  eexists _, _, _. split; [done|].
  destruct include_origin; simpl; rewrite Hsame;
    (destruct (Atom_IsInRing h origin) eqn:Hring; simpl; (split; [|set_solver]);
     intros a Ha; apply Hin; [|by apply Hatt];
     apply elem_of_union in Ha as [->%elem_of_singleton|Ha]; [|by apply Hatt];
     unfold Atom_IsInRing in Hring; by apply negb_true_iff, Nat.eqb_neq in Hring).
Qed.

(** ** Bonds the collector passes by, and terminal atoms *)

Lemma for_each_skip {A S : Type} (body : A → S → option S) l s :
  (∀ x, x ∈ l → body x s = Some s) → for_each body l s = Some s.
Proof.
  induction l as [|x l IH]; simpl; intros Hb; [done|].
  rewrite Hb by left. simpl. apply IH. intros y Hy. apply Hb. by right.
Qed.

(** X12. From an origin all of whose bonds are ring bonds (or that has no
    bond) nothing is collected: the store is as it was and, even with
    [include_origin] true, the origin's index is not added to the delete set;
    the origin is the one ring attachment when it is a ring atom. *)
Theorem collect_linker_atoms_only_ring_bonds (origin : AtomRef) (remove : gset nat)
    (include_origin : bool) (h : heap) :
  Forall (λ bond, Bond_IsInRing h bond = true) (GetBonds h origin) →
  collect_linker_atoms origin remove include_origin h
  = Some (h,
          if include_origin then remove else remove ∖ {[atom_idx origin]},
          if Atom_IsInRing h origin then {[atom_idx origin]} else ∅).
Proof.
  intros Hring. unfold collect_linker_atoms, collect_depth. cbn [collect]. simpl c_heap.
  rewrite for_each_skip.
  - simpl. destruct include_origin; simpl;
      (destruct (Atom_IsInRing h origin); simpl; [by rewrite union_empty_r_L|done]).
  - intros b Hb. rewrite Forall_forall in Hring. unfold collect_bond. simpl.
    by rewrite (Hring b Hb), orb_true_r.
Qed.

(** X13. A bond that is neither visited nor in a ring and leads to an atom of
    degree 1 ends a side chain: both atoms go to the delete set, the current
    atom is property-corrected, the bond is marked visited, and the traversal
    does not go on from the terminal atom. *)
Theorem collect_bond_terminal (rec : AtomRef → Collector → option Collector)
    (origin_atom : AtomRef) (bond : BondRef) (c : Collector) :
  let other_atom := BondAPI.GetOtherAtom (c_heap c) bond origin_atom in
  bond_idx bond ∉ visited c →
  Bond_IsInRing (c_heap c) bond = false →
  GetDegree (c_heap c) other_atom = 1 →
  collect_bond rec origin_atom bond c
  = Some (mkCollector (correct_atom_props origin_atom (c_heap c))
            ({[atom_idx other_atom]} ∪ ({[atom_idx origin_atom]} ∪ remove_atoms c))
            ({[bond_idx bond]} ∪ visited c)
            (ring_attachments c)).
Proof.
  intros other_atom Hvis Hnr Hdeg. unfold collect_bond. fold other_atom.
  by rewrite Hnr, orb_false_r, bool_decide_eq_false_2, Hdeg by done.
Qed.

Lemma collect_linker_atoms_only_ring_bonds_witness :
  let h := [Examples.naphthalene] in
  let origin := GetAtomWithIdx 0 0 in
  Forall (λ bond, Bond_IsInRing h bond = true) (GetBonds h origin) ∧
  collect_linker_atoms origin ∅ true h = Some (h, ∅, {[0]}).
Proof.
  assert (Forall (λ bond, Bond_IsInRing [Examples.naphthalene] bond = true)
            (GetBonds [Examples.naphthalene] (GetAtomWithIdx 0 0))) as Hring.
  { apply (bool_decide_unpack _). vm_compute. exact I. }
  split; [exact Hring|].
  apply (collect_linker_atoms_only_ring_bonds (GetAtomWithIdx 0 0) ∅ true
           [Examples.naphthalene] Hring).
Defined.

Lemma collect_bond_terminal_witness :
  let c := mkCollector [Examples.pentavalent] ∅ ∅ ∅ in
  let origin_atom := GetAtomWithIdx 0 0 in
  let bond := GetBondWithIdx 0 0 in
  (bond_idx bond ∉ visited c ∧ Bond_IsInRing (c_heap c) bond = false ∧
   GetDegree (c_heap c) (BondAPI.GetOtherAtom (c_heap c) bond origin_atom) = 1) ∧
  collect_bond (λ _ _, None) origin_atom bond c
  = Some (mkCollector (correct_atom_props origin_atom (c_heap c))
            ({[1]} ∪ ({[0]} ∪ ∅)) ({[0]} ∪ ∅) ∅).
Proof.
  split; [split; [apply not_elem_of_empty|split; reflexivity]|].
  apply (collect_bond_terminal (λ _ _, None) (GetAtomWithIdx 0 0) (GetBondWithIdx 0 0)
           (mkCollector [Examples.pentavalent] ∅ ∅ ∅));
    [apply not_elem_of_empty|reflexivity|reflexivity].
Defined.

(** * More on the validator and the entry points *)

Section Entry_points.
Context `{ChemEngine}.

(** X14. The validator changes no molecule object but the one it is given
    and wraps new objects only: every other object of the store is as it
    was, the molecule of every Scaffold returned is an object made by the
    call, and when the sanitization fails no object is made. *)
Theorem get_scaffold_frags_objects (frag : loc) (h : heap) :
  let result := get_scaffold_frags frag h in
  (∀ l m, l ≠ frag → h !! l = Some m → result.1 !! l = Some m) ∧
  (∀ s, s ∈ result.2 → length h ≤ mol s < length result.1) ∧
  ((partial_sanitization frag h).2 = Some ValueError → length result.1 = length h).
Proof.
  intros result. split; [|split].
  - intros l m Hl Hm. unfold result.
    destruct (get_scaffold_frags_store frag h) as (h1 & k & [_ Ho] & ->).
    apply lookup_app_l_Some. by rewrite Ho.
  - intros s Hs. by apply get_scaffold_frags_new in Hs as [? _].
  - unfold result, get_scaffold_frags.
    pose proof (partial_sanitization_edits_at frag h) as [Hlen _].
    destruct (partial_sanitization frag h) as [h1 [[]|]]; simpl in *; done.
Qed.

(** X15. The operations [partial_sanitization] asks of [SanitizeMol] are all
    of [SANITIZE_ALL] but the cleanup, the chirality cleanup and the search
    for radicals: the exclusive-or of the flags clears exactly these three,
    and the seven other operations stay on. *)
Theorem partial_sanitization_ops (mol : loc) (h : heap) :
  let ops := Z.ldiff SanitizeFlags.SANITIZE_ALL
               (Z.lor (Z.lor SanitizeFlags.SANITIZE_CLEANUP
                             SanitizeFlags.SANITIZE_CLEANUPCHIRALITY)
                      SanitizeFlags.SANITIZE_FINDRADICALS) in
  partial_sanitization mol h
  = match SanitizeMol ops (the_mol h mol) with
    | Sanitized m => (update_mol mol (λ _, m) h, None)
    | SanitizeException m => (update_mol mol (λ _, m) h, Some ValueError)
    end ∧
  Forall (λ flag, Z.land ops flag = flag)
    [SanitizeFlags.SANITIZE_PROPERTIES; SanitizeFlags.SANITIZE_SYMMRINGS;
     SanitizeFlags.SANITIZE_KEKULIZE; SanitizeFlags.SANITIZE_SETAROMATICITY;
     SanitizeFlags.SANITIZE_SETCONJUGATION; SanitizeFlags.SANITIZE_SETHYBRIDIZATION;
     SanitizeFlags.SANITIZE_ADJUSTHS] ∧
  Forall (λ flag, Z.land ops flag = 0%Z)
    [SanitizeFlags.SANITIZE_CLEANUP; SanitizeFlags.SANITIZE_CLEANUPCHIRALITY;
     SanitizeFlags.SANITIZE_FINDRADICALS].
Proof.
  intros ops. split; [reflexivity|]. split; repeat constructor.
Qed.

(** X16. [get_murcko_scaffold] returns a new molecule object and leaves the
    store it found as it was: the object holds the Murcko scaffold of the
    input, made generic when [generic] is set. *)
Theorem get_murcko_scaffold_new_object (mol : loc) (generic : bool) (h : heap) :
  let result := get_murcko_scaffold mol generic h in
  let murcko := GetScaffoldForMol (the_mol h mol) in
  heap_extends h result.1 ∧
  length h ≤ result.2 < length result.1 ∧
  the_mol result.1 result.2 = if generic then MakeScaffoldGeneric murcko else murcko.
Proof.
  intros result murcko. unfold result, get_murcko_scaffold, alloc.
  destruct generic; simpl.
  - rewrite the_mol_alloc. fold murcko. split; [|split].
    + eapply heap_extends_trans; apply heap_extends_app.
    + rewrite !length_app. simpl. lia.
    + apply the_mol_alloc.
  - split; [apply heap_extends_app|]. split; [rewrite length_app; simpl; lia|].
    apply the_mol_alloc.
Qed.

Section Annotated_scaffold.
Context `{DepictionEngine}.

(** X17. [get_annotated_murcko_scaffold] annotates the molecule against the
    template it is given, or against the molecule's Murcko scaffold when it is
    given none.  When the toolkit finds no annotation the function returns
    [None] if a molecule was asked for and the empty string if a SMILES was:
    with [as_mol] false the result is always a string.  Otherwise it returns
    a new object holding the annotated molecule, or that molecule's SMILES.
    The store it found is left as it was. *)
Theorem get_annotated_murcko_scaffold_spec (mol : loc) (scaffold : option loc)
    (as_mol : bool) (h : heap) :
  let result := get_annotated_murcko_scaffold mol scaffold as_mol h in
  let template := match scaffold with
                  | Some template => the_mol h template
                  | None => GetScaffoldForMol (the_mol h mol)
                  end in
  mol < length h →
  (∀ template, scaffold = Some template → template < length h) →
  heap_extends h result.1 ∧
  match ReplaceSidechains (the_mol h mol) template with
  | None => result.2 = if as_mol then AsNone else AsSmiles EmptyString
  | Some m =>
      if as_mol
      then ∃ annotated, result.2 = AsMol annotated ∧ length h ≤ annotated
                        ∧ the_mol result.1 annotated = m
      else result.2 = AsSmiles (MolToSmiles m)
  end.
Proof.
  intros result template Hmol Hscaffold.
  unfold result, get_annotated_murcko_scaffold, alloc.
  destruct scaffold as [l|]; simpl in *.
  - fold template.
    destruct (ReplaceSidechains (the_mol h mol) template) as [m|];
      destruct as_mol; simpl; (split; [try apply heap_extends_app; apply heap_extends_refl|]);
      try done.
    + exists (length h). by rewrite the_mol_alloc.
    + by rewrite the_mol_alloc.
  - rewrite the_mol_alloc.
    rewrite (heap_extends_the_mol h (h ++ [GetScaffoldForMol (the_mol h mol)]) mol)
      by (done || apply heap_extends_app).
    fold template.
    destruct (ReplaceSidechains (the_mol h mol) template) as [m|];
      destruct as_mol; simpl;
      (split; [try (eapply heap_extends_trans; apply heap_extends_app);
               apply heap_extends_app|]); try done.
    + eexists. split; [done|]. split; [rewrite length_app; lia|apply the_mol_alloc].
    + by rewrite the_mol_alloc.
Qed.
End Annotated_scaffold.
End Entry_points.

Lemma get_annotated_murcko_scaffold_spec_witness :
  let h := [Examples.biphenyl] in
  let result := @get_annotated_murcko_scaffold Reference.engine Examples.no_match
                  0 None false h in
  (0 < length h ∧ ∀ template : loc, @None loc = Some template → template < length h) ∧
  heap_extends h result.1 ∧ result.2 = AsSmiles EmptyString.
Proof.
  split; [split; [simpl; lia|intros template [=]]|].
  apply (@get_annotated_murcko_scaffold_spec Reference.engine Examples.no_match
           0 None false [Examples.biphenyl]); [simpl; lia|intros template [=]].
Defined.

Section Hierarchy.
Context `{ChemEngine}.

(** X18. [get_next_murcko_fragments] returns for every molecule; the list
    holds the molecules of the parents its fragmenter gives, one for each
    distinct parent: no two of the Scaffolds kept are equal, and every parent
    is equal to one that is kept.  The store it found is left as it was. *)
Theorem get_next_murcko_fragments_distinct (murcko_scaffold : loc)
    (break_fused_rings : bool) (h : heap) :
  let fragmenter := if break_fused_rings then MurckoRingFragmenter false
                    else MurckoRingSystemFragmenter in
  ∃ h' parents kept,
    fragment fragmenter (new_Scaffold h murcko_scaffold) h = Some (h', parents) ∧
    get_next_murcko_fragments murcko_scaffold break_fused_rings h
      = Some (h', mol <$> kept) ∧
    (∀ p, p ∈ kept → p ∈ parents) ∧
    (∀ p, p ∈ parents → key p ∈ key <$> kept) ∧
    NoDup (key <$> kept) ∧
    heap_extends h h'.
Proof.
  intros fragmenter.
  destruct (fragmenter_hierarchical break_fused_rings (new_Scaffold h murcko_scaffold) h)
    as (h' & parents & Hrun & He & _). fold fragmenter in Hrun.
  exists h', parents, (to_Scaffold_set parents).
  split; [exact Hrun|]. split.
  { unfold get_next_murcko_fragments. fold fragmenter. by rewrite Hrun. }
  destruct (Scaffold_set_fold id parents []) as (S1 & S2 & _ & S4).
  unfold to_Scaffold_set. repeat split.
  - intros p [[]%elem_of_nil|(x & Hx & ->)]%S1. done.
  - intros p Hp. by apply (S2 p).
  - apply S4. simpl. apply NoDup_nil_2.
  - exact He.
Qed.

(** X19. [get_all_murcko_fragments] does not touch the molecule it is given,
    nor any other object of the store it found: the stereochemistry is removed
    from the new scaffold object. *)
Theorem get_all_murcko_fragments_keeps_the_store (mol_ : loc)
    (break_fused_rings : bool) (h : heap) :
  ∃ bound, ∀ fuel, bound ≤ fuel →
    ∃ h' result,
      get_all_murcko_fragments fuel mol_ break_fused_rings h = Some (h', result) ∧
      heap_extends h h'.
Proof.
  destruct (get_all_murcko_fragments_run mol_ break_fused_rings h)
    as (h' & k & He & _ & Hrun).
  exists (S ((if break_fused_rings then ring_count else ring_system_count)
               (new_Scaffold (update_mol (length h) RemoveStereochemistry
                  (h ++ [GetScaffoldForMol (the_mol h mol_)])) (length h)))).
  intros fuel Hfuel. destruct (Hrun fuel) as [_ Hall]; [lia|].
  eexists h', _. split; [exact Hall|].
  eapply heap_extends_trans; [|exact He].
  eapply heap_extends_edits_at; [reflexivity|apply heap_extends_app|].
  apply update_mol_edits_at.
Qed.

(** X20. Without breaking fused rings, a molecule whose scaffold is a single
    ring system has no other fragment than that scaffold: the list returned
    is the seed alone, at any depth of recursion allowed. *)
Theorem get_all_murcko_fragments_single_system (mol_ : loc) (h : heap) (fuel : nat) :
  let seed := RemoveStereochemistry (GetScaffoldForMol (the_mol h mol_)) in
  length (GetRingSystems seed) = 1 →
  ∃ h', get_all_murcko_fragments (S fuel) mol_ false h = Some (h', [length h]) ∧
        the_mol h' (length h) = seed ∧ length h' = S (length h).
Proof.
  intros seed Hone.
  unfold get_all_murcko_fragments, get_murcko_scaffold, alloc. cbn beta iota.
  set (h0 := update_mol (length h) RemoveStereochemistry
               (h ++ [GetScaffoldForMol (the_mol h mol_)])).
  assert (the_mol h0 (length h) = seed) as Hseed.
  { unfold h0. rewrite the_mol_update_mol, decide_True;
      [|split; [done|rewrite length_app; simpl; lia]].
    by rewrite the_mol_alloc. }
  cbn [recursive_generation fragment MurckoRingSystemFragmenter].
  unfold MurckoRingSystemFragmenter_fragment.
  assert (length (ring_systems (new_Scaffold h0 (length h))) = 1) as ->.
  { unfold new_Scaffold. simpl. by rewrite Hseed. }
  simpl. exists h0. split; [done|]. split; [done|].
  unfold h0. rewrite length_update_mol, length_app. simpl. lia.
Qed.
End Hierarchy.

Lemma get_all_murcko_fragments_single_system_witness :
  let h := [Examples.naphthalene] in
  length (@GetRingSystems Reference.engine
            (@RemoveStereochemistry Reference.engine
               (@GetScaffoldForMol Reference.engine (the_mol h 0)))) = 1 ∧
  ∃ h', @get_all_murcko_fragments Reference.engine 1 0 false h = Some (h', [length h]) ∧
        the_mol h' (length h)
        = @RemoveStereochemistry Reference.engine
            (@GetScaffoldForMol Reference.engine (the_mol h 0)) ∧
        length h' = S (length h).
Proof.
  split; [vm_compute; reflexivity|].
  apply (@get_all_murcko_fragments_single_system Reference.engine 0
           [Examples.naphthalene] 0).
  vm_compute. reflexivity.
Defined.

(** * More on a round of the ring fragmenter *)

Lemma scheme_4_cases u scaffold ring edit h :
  scheme_4 u scaffold ring edit h = h ∨
  u = true ∧ length (aix ring) = 3 ∧
  ∃ x, x ∈ shared_bonds (rings scaffold) ring ∧
       scheme_4 u scaffold ring edit h
       = BondAPI.SetBondType (GetBondWithIdx edit x) BondType.DOUBLE h.
Proof.
  unfold scheme_4.
  destruct u; simpl; [|by left].
  destruct (length (aix ring) =? 3) eqn:E3; [|by left]. apply Nat.eqb_eq in E3.
  destruct (_ =? 1); [|by left].
  destruct (size _ =? 1); [|by left].
  destruct (elements (shared_bonds (rings scaffold) ring)) as [|x k] eqn:Hel; [by left|].
  right. split; [done|]. split; [done|]. exists x. split; [|done].
  apply elem_of_elements. rewrite Hel. left.
Qed.

(** X21. Whatever the flag and the ring, the small-ring rule changes at most
    the type of one bond: no two bond objects of the store differ from what
    they were, and a bond whose type differs is a bond of the edit copy that
    the ring shares with another ring, and has become a double bond.  Atoms,
    the ends of bonds and the ring information are as they were; and with the
    rule disabled, or on a ring that does not have three atoms, the store is
    as it was. *)
Theorem scheme_4_changes_one_bond_type (use_scheme_4 : bool) (scaffold : Scaffold)
    (ring : Ring) (edit : loc) (h : heap) :
  let h' := scheme_4 use_scheme_4 scaffold ring edit h in
  (use_scheme_4 = false ∨ length (aix ring) ≠ 3 → h' = h) ∧
  (∀ a, the_atom h' a = the_atom h a) ∧
  (∀ l, ring_info (the_mol h' l) = ring_info (the_mol h l)) ∧
  (∀ b, BeginAtomIdx (the_bond h' b) = BeginAtomIdx (the_bond h b) ∧
        EndAtomIdx (the_bond h' b) = EndAtomIdx (the_bond h b)) ∧
  (∀ b, Type_ (the_bond h' b) ≠ Type_ (the_bond h b) →
        bond_mol b = edit ∧ bond_idx b ∈ shared_bonds (rings scaffold) ring ∧
        Type_ (the_bond h' b) = BondType.DOUBLE) ∧
  (∀ b b', the_bond h' b ≠ the_bond h b → the_bond h' b' ≠ the_bond h b' → b = b').
Proof.
  intros h'. unfold h'.
  destruct (scheme_4_cases use_scheme_4 scaffold ring edit h)
    as [->|(Hu & Hlen & x & Hx & ->)].
  { repeat split; try done. }
  unfold BondAPI.SetBondType. split; [intros [?|?]; congruence|].
  split; [intros a; apply the_atom_update_bond|]. split; [|split; [|split]].
  - intros l. unfold update_bond. rewrite the_mol_update_mol.
    case_decide as Hd; [|done]. by destruct Hd as [<- _].
  - intros b. rewrite the_bond_update_bond. case_decide as Hd; [|done].
    by destruct Hd as [<- _].
  - intros b. rewrite the_bond_update_bond. case_decide as Hd; [|done].
    destruct Hd as [<- _]. done.
  - intros b b'. rewrite !the_bond_update_bond.
    case_decide as Hd; [|done]. case_decide as Hd'; [|done].
    destruct Hd as [<- _], Hd' as [<- _]. done.
Qed.

(** ** The bonds and atoms collected for removal *)

Lemma removable_bond_spec edit ra h0 rb bix x y :
  (x, y) ∈ (removable_bond edit ra (h0, rb) bix).2 ↔
  (x, y) ∈ rb ∨
  x = BondAPI.GetBeginAtomIdx h0 (GetBondWithIdx edit bix) ∧
  y = BondAPI.GetEndAtomIdx h0 (GetBondWithIdx edit bix) ∧ x ∉ ra ∧ y ∉ ra.
Proof.
  unfold removable_bond.
  destruct (bool_decide _ && bool_decide _) eqn:E; simpl.
  - apply andb_true_iff in E as [E1%bool_decide_eq_true E2%bool_decide_eq_true].
    rewrite elem_of_union, elem_of_singleton. split.
    + intros [[= -> ->]|?]; auto.
    + intros [?|(-> & -> & _)]; auto.
  - split; [auto|]. intros [?|(-> & -> & E1 & E2)]; [done|].
    rewrite !bool_decide_eq_true_2 in E by done. done.
Qed.

Lemma removable_bonds_fold edit ra h l h0 rb :
  edits_atoms_at edit h h0 →
  let result := foldl (removable_bond edit ra) (h0, rb) l in
  edits_atoms_at edit h result.1 ∧
  ∀ x y, (x, y) ∈ result.2 ↔
    (x, y) ∈ rb ∨
    ∃ bix, bix ∈ l ∧ x = BondAPI.GetBeginAtomIdx h (GetBondWithIdx edit bix) ∧
           y = BondAPI.GetEndAtomIdx h (GetBondWithIdx edit bix) ∧ x ∉ ra ∧ y ∉ ra.
Proof.
  revert h0 rb. induction l as [|bix l IH]; intros h0 rb Hed; cbn [foldl]; cbv zeta.
  { simpl. split; [done|]. intros x y. split; [auto|].
    intros [?|(b & []%elem_of_nil & _)]. done. }
  assert (edits_atoms_at edit h (removable_bond edit ra (h0, rb) bix).1) as Hed'.
  { unfold removable_bond. case_match; simpl; [|done].
    set (x := GetAtomWithIdx edit (BondAPI.GetBeginAtomIdx h0 (GetBondWithIdx edit bix))).
    set (y := GetAtomWithIdx edit (BondAPI.GetEndAtomIdx h0 (GetBondWithIdx edit bix))).
    eapply edits_atoms_at_trans; [exact Hed|].
    eapply edits_atoms_at_trans;
      [apply (correct_atom_props_edits x)|apply (correct_atom_props_edits y)]. }
  pose proof (removable_bond_spec edit ra h0 rb bix) as Hstep.
  destruct (removable_bond edit ra (h0, rb) bix) as [h1 rb1]. simpl in Hed', Hstep.
  destruct (IH h1 rb1 Hed') as [Hed2 Hall]. split; [exact Hed2|].
  intros x y. rewrite Hall, Hstep.
  unfold BondAPI.GetBeginAtomIdx, BondAPI.GetEndAtomIdx.
  rewrite (the_bond_edits _ _ _ Hed) by done.
  split.
  - intros [[?|?]|(b & Hb & ?)]; [by left|right..].
    + exists bix. split; [left|done].
    + exists b. split; [by right|done].
  - intros [?|(b & [->|Hb]%elem_of_cons & ?)]; [by left; left|by left; right|].
    right. by exists b.
Qed.

(** X22. The bonds the ring fragmenter collects for removal are the bonds of
    the ring that are in no other ring and have neither end among the atoms
    collected for deletion, each as the pair of its ends; collecting them
    changes nothing in the store but properties of atoms of the edit copy. *)
Theorem removable_bonds_spec (scaffold : Scaffold) (ring : Ring) (edit : loc)
    (remove_atoms : gset nat) (h : heap) :
  let result := removable_bonds scaffold ring edit remove_atoms h in
  edits_atoms_at edit h result.1 ∧
  ∀ x y, (x, y) ∈ result.2 ↔
    ∃ b, b ∈ bix ring ∧ NumBondRings (rings scaffold) b = 1 ∧
         x = BondAPI.GetBeginAtomIdx h (GetBondWithIdx edit b) ∧
         y = BondAPI.GetEndAtomIdx h (GetBondWithIdx edit b) ∧
           x ∉ remove_atoms ∧ y ∉ remove_atoms.
Proof.
  intros result. unfold result, removable_bonds.
  destruct (removable_bonds_fold edit remove_atoms h
              (elements (unshared_bonds (rings scaffold) ring)) h ∅
              (edits_atoms_at_refl edit h)) as [Hed Hall].
  split; [exact Hed|]. intros x y. rewrite Hall. split.
  - intros [[]%elem_of_empty|(b & Hb & ?)]. exists b.
    apply elem_of_elements in Hb. unfold unshared_bonds in Hb.
    apply elem_of_list_to_set, list_elem_of_filter in Hb as [? ?]. tauto.
  - intros (b & Hb & H1 & ?). right. exists b. split; [|done].
    apply elem_of_elements. unfold unshared_bonds.
    by apply elem_of_list_to_set, list_elem_of_filter.
Qed.

Lemma collect_linker_atoms_added origin remove h h' remove' att :
  ring_info_wf (the_mol h (atom_mol origin)) → GetDegree h origin ≠ 1 →
  collect_linker_atoms origin remove true h = Some (h', remove', att) →
  ∀ a, a ∈ remove' →
    a ∈ remove ∨ a = atom_idx origin
    ∨ NumAtomRings (ring_info (the_mol h (atom_mol origin))) a = 0.
Proof.
  intros Hwf Hdeg. unfold collect_linker_atoms.
  destruct (collect _ _ _) as [c|] eqn:Hc; simpl; [|done].
  apply (collect_spares_rings _ origin (mkCollector h remove ∅ ∅) c Hwf Hdeg) in Hc
    as [_ Ha _].
  intros [= _ <- _] a Hin. apply Ha. revert Hin. by case_match.
Qed.

Lemma zip_ring_atoms scaffold ring index atom :
  (index, atom) ∈ zip (aix ring) (ring_atoms scaffold ring) → index ∈ aix ring.
Proof.
  intros (k & Hk)%list_elem_of_lookup.
  apply lookup_zip_with_Some in Hk as (a & b & [= -> ->] & Ha & _).
  by eapply list_elem_of_lookup_2.
Qed.

(** A call of the collector from a ring atom, in the loop over the atoms of
    a ring: the atoms collected so far are of the kind [P], which holds of
    that atom and of the atoms of no ring. *)
Lemma collect_linker_atoms_step (P : nat → Prop) info edit index h h0 ra h1 ra1 att :
  info = ring_info (the_mol h edit) → ring_info_wf (the_mol h edit) →
  edits_atoms_at edit h h0 →
  NumAtomRings info index = 1 → P index → (∀ a, NumAtomRings info a = 0 → P a) →
  (∀ a, a ∈ ra → P a) →
  collect_linker_atoms (GetAtomWithIdx edit index) ra true h0 = Some (h1, ra1, att) →
  edits_atoms_at edit h h1 ∧ ∀ a, a ∈ ra1 → P a.
Proof.
  intros Hinfo Hwf Hed E1 Hindex Hnone Hra Hc.
  pose proof (collect_linker_atoms_edits _ _ _ _ _ _ _ Hc) as Hed1. simpl in Hed1.
  split; [by eapply edits_atoms_at_trans|].
  assert (ring_info (the_mol h0 edit) = info) as Hinfo0
    by (by rewrite (eaa_rings _ _ _ Hed)).
  assert (ring_info_wf (the_mol h0 edit)) as Hwf0 by (by eapply ring_info_wf_edits).
  intros a Ha.
  assert (GetDegree h0 (GetAtomWithIdx edit index) ≠ 1) as Hdeg.
  { assert (2 ≤ GetDegree h0 (GetAtomWithIdx edit index)); [|lia].
    apply ring_atom_GetDegree; [done|].
    unfold Atom_IsInRing. simpl. by rewrite Hinfo0, E1. }
  destruct (collect_linker_atoms_added (GetAtomWithIdx edit index) ra h0 h1 ra1 att
              Hwf0 Hdeg Hc a Ha) as [?|[->|H0]].
  - by apply Hra.
  - done.
  - apply Hnone. simpl in H0. by rewrite Hinfo0 in H0.
Qed.

(** The atoms a round of the ring fragmenter collects: atoms of the ring in
    no other ring, and atoms of no ring. *)
Lemma removable_atoms_collected (scaffold : Scaffold) (ring : Ring)
    (edit : loc) (h : heap) :
  rings scaffold = ring_info (the_mol h edit) →
  ring_info_wf (the_mol h edit) →
  ∃ h' remove_atoms,
    removable_atoms scaffold ring edit h = Some (h', remove_atoms) ∧
    edits_atoms_at edit h h' ∧
    ∀ a, a ∈ remove_atoms →
      (a ∈ aix ring ∧ NumAtomRings (rings scaffold) a = 1)
      ∨ NumAtomRings (rings scaffold) a = 0.
Proof.
  intros Hinfo Hwf. unfold removable_atoms.
  set (P := λ a, (a ∈ aix ring ∧ NumAtomRings (rings scaffold) a = 1)
                 ∨ NumAtomRings (rings scaffold) a = 0).
  match goal with |- context [for_each ?b ?l ?s] =>
    destruct (for_each_total b l s) as [[h' ra] Hrun]; [apply removable_atom_is_Some|]
  end.
  exists h', ra. split; [exact Hrun|]. revert Hrun.
  apply (for_each_preserves
    (λ st : heap * gset nat, edits_atoms_at edit h st.1 ∧ ∀ a, a ∈ st.2 → P a)).
  - intros [index atom] [h0 ra0] st' Hx%zip_ring_atoms [Hed Hra]. simpl in Hed, Hra.
    unfold removable_atom.
    destruct (NumAtomRings (rings scaffold) index =? 1) eqn:E1.
    + apply Nat.eqb_eq in E1. destruct (2 <? GetDegree h0 atom).
      * destruct (collect_linker_atoms _ _ _ _) as [[[h1 ra1] att]|] eqn:Hc; simpl; [|done].
        intros [= <-]. simpl.
        apply (collect_linker_atoms_step P (rings scaffold) edit index h h0 ra0 h1 ra1 att
                 Hinfo Hwf Hed E1); [by left|intros a ?; by right|done|exact Hc].
      * intros [= <-]. simpl. split; [done|].
        intros a [->%elem_of_singleton|?]%elem_of_union; [by left|auto].
    + intros [= <-]. simpl. split; [|done].
      eapply edits_atoms_at_trans; [exact Hed|].
      apply (correct_atom_props_edits (GetAtomWithIdx edit index)).
  - split; [apply edits_atoms_at_refl|]. by intros a ?%elem_of_empty.
Qed.

(** X23. The atoms the ring fragmenter collects for deletion in the round of
    a ring are atoms of that ring that are in no other ring, and atoms of no
    ring: an atom the ring shares with another ring, and an atom of any other
    ring, is never collected.  (The ring information is the edit copy's, and
    fits its graph.) *)
Theorem removable_atoms_spares_other_rings (scaffold : Scaffold) (ring : Ring)
    (edit : loc) (h : heap) :
  rings scaffold = ring_info (the_mol h edit) →
  ring_info_wf (the_mol h edit) →
  ∃ h' remove_atoms,
    removable_atoms scaffold ring edit h = Some (h', remove_atoms) ∧
    edits_atoms_at edit h h' ∧
    ∀ a, a ∈ remove_atoms →
      (a ∈ aix ring ∧ NumAtomRings (rings scaffold) a = 1)
      ∨ NumAtomRings (rings scaffold) a = 0.
Proof. intros Hinfo Hwf. by apply removable_atoms_collected. Qed.

(** X24. The atoms the ring-system fragmenter collects for deletion in the
    round of a ring system are atoms of that ring system and atoms of no
    ring: no atom of another ring system is collected. *)
Theorem system_removable_atoms_spare_other_systems (info : list Ring)
    (scaffold : Scaffold) (ring : Ring) (edit : loc) (h : heap) :
  info = ring_info (the_mol h edit) →
  ring_info_wf (the_mol h edit) →
  ∃ h' remove_atoms,
    for_each (system_removable_atom info edit)
             (zip (aix ring) (ring_atoms scaffold ring)) (h, ∅)
      = Some (h', remove_atoms) ∧
    edits_atoms_at edit h h' ∧
    ∀ a, a ∈ remove_atoms → a ∈ aix ring ∨ NumAtomRings info a = 0.
Proof.
  intros Hinfo Hwf.
  set (P := λ a, a ∈ aix ring ∨ NumAtomRings info a = 0).
  match goal with |- context [for_each ?b ?l ?s] =>
    destruct (for_each_total b l s) as [[h' ra] Hrun]; [apply system_removable_atom_is_Some|]
  end.
  exists h', ra. split; [exact Hrun|]. revert Hrun.
  apply (for_each_preserves
    (λ st : heap * gset nat, edits_atoms_at edit h st.1 ∧ ∀ a, a ∈ st.2 → P a)).
  - intros [index atom] [h0 ra0] st' Hx%zip_ring_atoms [Hed Hra]. simpl in Hed, Hra.
    unfold system_removable_atom.
    destruct (NumAtomRings info index =? 1) eqn:E1.
    + apply Nat.eqb_eq in E1. destruct (2 <? GetDegree h0 atom).
      * destruct (collect_linker_atoms _ _ _ _) as [[[h1 ra1] att]|] eqn:Hc; simpl; [|done].
        intros [= <-]. simpl.
        apply (collect_linker_atoms_step P info edit index h h0 ra0 h1 ra1 att
                 Hinfo Hwf Hed E1); [by left|intros a ?; by right|done|exact Hc].
      * intros [= <-]. simpl. split; [done|].
        intros a [->%elem_of_singleton|?]%elem_of_union; [by left|auto].
    + intros [= <-]. simpl. split; [done|].
      intros a [->%elem_of_singleton|?]%elem_of_union; [by left|auto].
  - split; [apply edits_atoms_at_refl|]. by intros a ?%elem_of_empty.
Qed.

(** The round of the first ring of biphenyl, on the edit copy at 1. *)
Lemma removable_atoms_spares_other_rings_witness :
  let h := [Examples.biphenyl; Examples.biphenyl] in
  let scaffold := Examples.scaffold_at h 0 in
  let ring := mkRing [0; 1; 2; 3; 4; 5] [0; 1; 2; 3; 4; 5] in
  (rings scaffold = ring_info (the_mol h 1) ∧ ring_info_wf (the_mol h 1)) ∧
  ∃ h' remove_atoms,
    removable_atoms scaffold ring 1 h = Some (h', remove_atoms) ∧
    edits_atoms_at 1 h h' ∧
    ∀ a, a ∈ remove_atoms →
      (a ∈ aix ring ∧ NumAtomRings (rings scaffold) a = 1)
      ∨ NumAtomRings (rings scaffold) a = 0.
Proof.
  assert (ring_info_wf (the_mol [Examples.biphenyl; Examples.biphenyl] 1)) as Hwf.
  { apply (bool_decide_unpack _). vm_compute. exact I. }
  split; [split; [reflexivity|exact Hwf]|].
  apply (removable_atoms_spares_other_rings
           (Examples.scaffold_at [Examples.biphenyl; Examples.biphenyl] 0)
           (mkRing [0; 1; 2; 3; 4; 5] [0; 1; 2; 3; 4; 5]) 1
           [Examples.biphenyl; Examples.biphenyl]); [reflexivity|exact Hwf].
Defined.

(** The round of the first ring system of biphenyl, on the edit copy at 1. *)
Lemma system_removable_atoms_spare_other_systems_witness :
  let h := [Examples.biphenyl; Examples.biphenyl] in
  let scaffold := Examples.scaffold_at h 0 in
  let info := rings scaffold in
  let ring := mkRing [0; 1; 2; 3; 4; 5] [0; 1; 2; 3; 4; 5] in
  (info = ring_info (the_mol h 1) ∧ ring_info_wf (the_mol h 1)) ∧
  ∃ h' remove_atoms,
    for_each (system_removable_atom info 1)
             (zip (aix ring) (ring_atoms scaffold ring)) (h, ∅)
      = Some (h', remove_atoms) ∧
    edits_atoms_at 1 h h' ∧
    ∀ a, a ∈ remove_atoms → a ∈ aix ring ∨ NumAtomRings info a = 0.
Proof.
  assert (ring_info_wf (the_mol [Examples.biphenyl; Examples.biphenyl] 1)) as Hwf.
  { apply (bool_decide_unpack _). vm_compute. exact I. }
  split; [split; [reflexivity|exact Hwf]|].
  apply (system_removable_atoms_spare_other_systems
           (rings (Examples.scaffold_at [Examples.biphenyl; Examples.biphenyl] 0))
           (Examples.scaffold_at [Examples.biphenyl; Examples.biphenyl] 0)
           (mkRing [0; 1; 2; 3; 4; 5] [0; 1; 2; 3; 4; 5]) 1
           [Examples.biphenyl; Examples.biphenyl]); [reflexivity|exact Hwf].
Defined.

(** * More on the enumeration: what the list holds *)

Section Results.
Context `{ChemEngine}.

Lemma Scaffold_of_extends h h' p :
  heap_extends h h' → Scaffold_of h p → Scaffold_of h' p.
Proof.
  intros He (Hl & Hr & Hs & Hk). pose proof (heap_extends_length _ _ He).
  unfold Scaffold_of. rewrite (heap_extends_the_mol _ _ _ He Hl).
  split; [lia|done].
Qed.

Lemma parent_of_Scaffold_of h h' n p : parent_of h h' n p → Scaffold_of h' p.
Proof. intros [[_ Hl] (rix & _ & Hp)]. split; [done|]. by rewrite Hp at 1 3 5. Qed.

Context (break_fused_rings : bool).
#[local] Notation fragmenter :=
  (if break_fused_rings then MurckoRingFragmenter false else MurckoRingSystemFragmenter).
#[local] Notation level :=
  (if break_fused_rings then ring_count else ring_system_count).

(** What a fragmenter of the entry points gives. *)
Lemma fragment_parents child h :
  ∃ h' parents, fragment fragmenter child h = Some (h', parents) ∧ heap_extends h h' ∧
    ∀ p, p ∈ parents → level p < level child ∧ Scaffold_of h' p ∧ length h ≤ mol p.
Proof.
  destruct (fragmenter_hierarchical break_fused_rings child h) as (h' & ps & Hrun & He & Hlt).
  destruct (fragment_parents_of (negb break_fused_rings) false child h)
    as (h2 & ps2 & Hrun2 & Hof).
  assert ((if negb break_fused_rings then MurckoRingSystemFragmenter
           else MurckoRingFragmenter false) = fragmenter) as Hf
    by (by destruct break_fused_rings).
  rewrite Hf in Hrun2.
  rewrite Hrun in Hrun2. injection Hrun2 as <- <-.
  exists h', ps. split; [done|]. split; [done|]. intros p Hp.
  split; [by apply Hlt|]. pose proof (Hof p Hp) as Hpo.
  split; [by eapply parent_of_Scaffold_of|]. by destruct Hpo as [[? _] _].
Qed.

(** The members of the set a run of [recursive_generation] leaves: those it
    found, and Scaffolds below the child of molecule objects made since. *)
Lemma recursive_generation_members fuel child st st' :
  recursive_generation fragmenter fuel child st = Some st' →
  heap_extends st.1 st'.1 ∧
  ∀ p, p ∈ st'.2 →
    p ∈ st.2 ∨ level p < level child ∧ Scaffold_of st'.1 p ∧ length st.1 ≤ mol p.
Proof.
  revert child st st'. induction fuel as [|fuel IH]; intros child [h ps] st'; [done|].
  cbn [recursive_generation].
  destruct (fragment_parents child h) as (h1 & next & -> & He & Hnext). simpl mbind.
  intros Hrun.
  cut (heap_extends h1 st'.1 ∧
       ∀ p, p ∈ st'.2 →
         p ∈ ps ∨ level p < level child ∧ Scaffold_of st'.1 p ∧ length h ≤ mol p).
  { intros [He2 Hmem]. split; [by eapply heap_extends_trans|]. simpl in *.
    intros p Hp. destruct (Hmem p Hp) as [?|(? & ? & ?)]; auto. }
  revert Hrun.
  apply (for_each_preserves
    (λ s : heap * list Scaffold, heap_extends h1 s.1 ∧
       ∀ p, p ∈ s.2 → p ∈ ps ∨ level p < level child ∧ Scaffold_of s.1 p ∧ length h ≤ mol p)).
  - intros p [h2 ps2] s' Hp [He2 Hps2]. simpl in He2, Hps2. unfold visit_parent.
    destruct (Scaffold_in p ps2); [by intros [= <-]|].
    intros Hrec. apply IH in Hrec as [He3 Hmem]. simpl in He3, Hmem.
    split; [by eapply heap_extends_trans|].
    destruct (Hnext p Hp) as (Hlt & Hof & Hlo).
    pose proof (heap_extends_length _ _ He2) as L2.
    intros q Hq. destruct (Hmem q Hq) as [[Hq2| ->%list_elem_of_singleton]%elem_of_app|(Hq1 & Hq2 & Hq3)].
    + destruct (Hps2 q Hq2) as [?|(? & ? & ?)]; [by left|right].
      split; [done|]. split; [by eapply Scaffold_of_extends|done].
    + right. split; [done|]. split; [|done].
      eapply Scaffold_of_extends; [|exact Hof]. by eapply heap_extends_trans.
    + right. split; [lia|]. split; [done|].
      pose proof (heap_extends_length _ _ He). lia.
  - simpl. split; [apply heap_extends_refl|]. auto.
Qed.


(** X25. The molecules [get_all_murcko_fragments] returns are objects made
    by the call, in the store it leaves; no two of them have the same
    canonical key; and every one but the seed has fewer rings than the seed,
    or fewer ring systems when fused rings are not broken. *)
Theorem get_all_murcko_fragments_result (mol_ : loc) (h : heap) :
  let count := λ m, if break_fused_rings then length (ring_info m)
                    else length (GetRingSystems m) in
  let seed := length h in
  ∃ bound, ∀ fuel, bound ≤ fuel →
    ∃ h' result,
      get_all_murcko_fragments fuel mol_ break_fused_rings h = Some (h', result) ∧
      (∀ l, l ∈ result → length h ≤ l < length h') ∧
      NoDup ((λ l, CanonicalKey (the_mol h' l)) <$> result) ∧
      (∀ l, l ∈ result → l = seed ∨ count (the_mol h' l) < count (the_mol h' seed)).
Proof.
  intros count seed.
  destruct (get_all_murcko_fragments_run mol_ break_fused_rings h)
    as (h' & k & He & Hnd & Hrun).
  set (h0 := update_mol (length h) RemoveStereochemistry
               (h ++ [GetScaffoldForMol (the_mol h mol_)])) in *.
  set (scaffold := new_Scaffold h0 (length h)) in *.
  exists (S (level scaffold)). intros fuel Hfuel.
  destruct (Hrun fuel) as [Hrg Hall]; [lia|].
  exists h', (mol <$> scaffold :: k). split; [exact Hall|].
  apply recursive_generation_members in Hrg as [_ Hmem]. simpl in Hmem.
  assert (length h0 = S (length h)) as L0.
  { unfold h0. rewrite length_update_mol, length_app. simpl. lia. }
  assert (Scaffold_of h' scaffold) as Hseed.
  { apply (Scaffold_of_extends h0); [done|]. split; [simpl; lia|done]. }
  assert (∀ p, p ∈ scaffold :: k → Scaffold_of h' p ∧ length h ≤ mol p) as Hof.
  { intros p Hp. destruct (Hmem p Hp) as [->%list_elem_of_singleton|(_ & ? & ?)].
    - split; [done|]. simpl. lia.
    - split; [done|]. lia. }
  assert (∀ p, Scaffold_of h' p → level p = count (the_mol h' (mol p))) as Hlevel.
  { intros p (_ & Hr & Hs & _). unfold count, ring_count, ring_system_count.
    destruct break_fused_rings; congruence. }
  split; [|split].
  - intros l (p & -> & Hp)%list_elem_of_fmap. destruct (Hof p Hp) as [(? & _) ?]. lia.
  - rewrite <- list_fmap_compose.
    rewrite <- (list_fmap_ext key _ (scaffold :: k)); [exact Hnd|].
    intros i p Hp%list_elem_of_lookup_2. simpl.
    by destruct (Hof p Hp) as [(_ & _ & _ & ?) _].
  - intros l (p & -> & Hp)%list_elem_of_fmap.
    destruct (Hmem p Hp) as [->%list_elem_of_singleton|(Hlt & Hp' & _)]; [by left|right].
    rewrite (Hlevel p Hp'), (Hlevel scaffold Hseed) in Hlt. exact Hlt.
Qed.

(** X26. Every molecule [get_next_murcko_fragments] returns is an object
    made by the call, with exactly one ring less than the molecule given, or
    one ring system less when fused rings are not broken. *)
Theorem get_next_murcko_fragments_one_less (murcko_scaffold : loc) (h : heap) :
  let count := λ m, if break_fused_rings then length (ring_info m)
                    else length (GetRingSystems m) in
  ∃ h' result,
    get_next_murcko_fragments murcko_scaffold break_fused_rings h = Some (h', result) ∧
    ∀ l, l ∈ result →
      length h ≤ l < length h' ∧
      Z.of_nat (count (the_mol h' l))
      = (Z.of_nat (count (the_mol h murcko_scaffold)) - 1)%Z.
Proof.
  intros count. set (child := new_Scaffold h murcko_scaffold).
  destruct (fragment_parents_of (negb break_fused_rings) false child h)
    as (h' & parents & Hrun & Hof).
  assert (∀ p, p ∈ parents → Z.of_nat (level p) = (Z.of_nat (level child) - 1)%Z) as Hone.
  { destruct break_fused_rings; simpl in Hrun.
    - destruct (MurckoRingFragmenter_fragment_run false child h) as (h2 & ps & Hr & _ & Hc).
      rewrite Hrun in Hr. by injection Hr as <- <-.
    - destruct (MurckoRingSystemFragmenter_fragment_run child h) as (h2 & ps & Hr & _ & Hc).
      rewrite Hrun in Hr. by injection Hr as <- <-. }
  exists h', (mol <$> to_Scaffold_set parents). split.
  { unfold get_next_murcko_fragments. fold child.
    destruct break_fused_rings; simpl in Hrun |- *; by rewrite Hrun. }
  intros l (p & -> & Hp)%list_elem_of_fmap.
  destruct (Scaffold_set_fold id parents []) as (S1 & _).
  apply S1 in Hp as [[]%elem_of_nil|(x & Hx & ->)]. simpl.
  pose proof (Hof x Hx) as Hpo. split; [by destruct Hpo as [? _]|].
  apply parent_of_Scaffold_of in Hpo as (_ & Hr & Hs & _).
  specialize (Hone x Hx). unfold count, child, new_Scaffold in *.
  unfold ring_count, ring_system_count in Hone.
  destruct break_fused_rings; simpl in Hone; congruence.
Qed.
End Results.

(** * The small-ring rule in the round of a ring *)

Lemma add_parents_iff (count : Scaffold → nat) n rix parents frags p :
  p ∈ foldl (add_parent count n rix) parents frags ↔
  p ∈ parents ∨
  ∃ f, f ∈ frags ∧ p = set_removed_ring_idx rix f
       ∧ Z.of_nat (count f) = (Z.of_nat n - 1)%Z.
Proof.
  split; [apply add_parents_spec|].
  revert parents. induction frags as [|f frags IH]; intros parents; simpl.
  { intros [?|(f & []%elem_of_nil & _)]. done. }
  intros [Hp|(g & [->|Hg]%elem_of_cons & -> & Hc)]; apply IH.
  - left. unfold add_parent. case_bool_decide; [apply elem_of_app|]; auto.
  - left. unfold add_parent. rewrite bool_decide_eq_true_2 by done.
    apply elem_of_app. right. left.
  - right. by exists g.
Qed.

(** A bond in two rings or more joins atoms in two rings or more. *)
Lemma shared_bond_ends m x :
  ring_info_wf m → 1 < NumBondRings (ring_info m) x →
  1 < NumAtomRings (ring_info m) (BeginAtomIdx (bonds m !!! x)) ∧
  1 < NumAtomRings (ring_info m) (EndAtomIdx (bonds m !!! x)).
Proof.
  intros Hwf Hx. unfold NumBondRings, NumAtomRings in *.
  split; (eapply Nat.lt_le_trans; [exact Hx|]); apply length_filter_mono;
    intros r Hr Hxr; by destruct (ring_bond_in_ring m r x Hwf Hr Hxr).
Qed.

Section Small_ring_rule.
Context `{ChemEngine}.

(** The Scaffolds the validator returns are of the components of the graph
    it has sanitized. *)
Lemma get_scaffold_frags_components frag h f :
  f ∈ (get_scaffold_frags frag h).2 →
  the_mol (get_scaffold_frags frag h).1 (mol f)
  ∈ GetMolFrags (the_mol (partial_sanitization frag h).1 frag).
Proof.
  unfold get_scaffold_frags.
  destruct (partial_sanitization frag h) as [h1 [[]|]]; simpl.
  { by intros ?%elem_of_nil. }
  rewrite alloc_all_spec. unfold Scaffold_set.
  set (components := GetMolFrags (the_mol h1 frag)).
  destruct (Scaffold_set_fold (new_Scaffold (h1 ++ components))
              (seq (length h1) (length components)) []) as (S1 & _).
  intros [[]%elem_of_nil|(x & Hx & ->)]%S1. simpl.
  apply elem_of_seq in Hx.
  destruct (lookup_lt_is_Some_2 components (x - length h1)) as [c Hc]; [lia|].
  assert (the_mol (h1 ++ components) x = c) as ->.
  { unfold the_mol. apply list_lookup_total_correct. by rewrite lookup_app_r by lia. }
  by eapply list_elem_of_lookup_2.
Qed.

(** C6 (amended). With the small-ring rule enabled, in the round of a ring
    with exactly three atoms, exactly one atom that is neither hydrogen nor
    carbon, and exactly one bond [x] shared with another ring, the Ring
    Fragmenter converts that shared bond to a double bond instead of deleting
    it: the graph from which the round removes what it has collected is the
    edit copy with the bond [x] made double and nothing else changed by the
    rule; neither end of the bond is among the atoms collected for deletion,
    which are atoms of the ring in no other ring and atoms of no ring, so no
    atom of the fused partner; and every bond collected for removal is
    another bond, one of the ring that is in no other ring.  The parents the round adds are the Scaffolds
    the validator makes of that graph that have one ring less than the
    scaffold, each of a connected component of the graph as sanitized: when
    the round produces a parent, it is a component of the graph with the
    added double bond.  (The scaffold's ring information is its molecule's
    and fits the graph.) *)
Theorem MurckoRingFragmenter_ring_scheme_4 (scaffold : Scaffold) (rix : nat)
    (ring : Ring) (h : heap) (parents : list Scaffold) (x : nat) :
  let m := the_mol h (mol scaffold) in
  let edit := length h in
  let bond := GetBondWithIdx edit x in
  mol scaffold < length h →
  rings scaffold = ring_info m →
  ring_info_wf m →
  length (aix ring) = 3 →
  length (filter (λ a, a ≠ 1 ∧ a ≠ 6)
                 (AtomAPI.GetAtomicNum h <$> ring_atoms scaffold ring)) = 1 →
  size (shared_bonds (rings scaffold) ring) = 1 →
  x ∈ shared_bonds (rings scaffold) ring →
  x < length (bonds m) →
  ∃ h1 h2 remove_atoms remove_bonds,
    let h3 := BondAPI.SetBondType bond BondType.DOUBLE h2 in
    let h4 := remove_collected edit remove_bonds remove_atoms h3 in
    let validated := get_scaffold_frags edit h4 in
    let parents' := foldl (add_parent ring_count (length (rings scaffold)) rix)
                          parents validated.2 in
    removable_atoms scaffold ring edit (h ++ [m]) = Some (h1, remove_atoms) ∧
    removable_bonds scaffold ring edit remove_atoms h1 = (h2, remove_bonds) ∧
    scheme_4 true scaffold ring edit h2 = h3 ∧
    the_bond h3 bond
    = mkBond (BeginAtomIdx (bonds m !!! x)) (EndAtomIdx (bonds m !!! x)) BondType.DOUBLE ∧
    (∀ b, b ≠ bond → the_bond h3 b = the_bond h2 b) ∧
    (∀ a, the_atom h3 a = the_atom h2 a) ∧
    BeginAtomIdx (bonds m !!! x) ∉ remove_atoms ∧
    EndAtomIdx (bonds m !!! x) ∉ remove_atoms ∧
    (∀ a, a ∈ remove_atoms →
       (a ∈ aix ring ∧ NumAtomRings (rings scaffold) a = 1)
       ∨ NumAtomRings (rings scaffold) a = 0) ∧
    (∀ b_x b_y, (b_x, b_y) ∈ remove_bonds →
       ∃ b, b ≠ x ∧ b ∈ bix ring ∧ NumBondRings (rings scaffold) b = 1 ∧
            b_x = BeginAtomIdx (bonds m !!! b) ∧ b_y = EndAtomIdx (bonds m !!! b)) ∧
    MurckoRingFragmenter_ring true scaffold (rix, ring) (h, parents)
    = Some (validated.1, parents') ∧
    (∀ p, p ∈ parents' ↔
       p ∈ parents ∨
       ∃ f, f ∈ validated.2 ∧ p = set_removed_ring_idx rix f ∧
            Z.of_nat (length (rings f)) = (Z.of_nat (length (rings scaffold)) - 1)%Z) ∧
    (∀ f, f ∈ validated.2 →
       the_mol validated.1 (mol f)
       ∈ GetMolFrags (the_mol (partial_sanitization edit h4).1 edit)).
Proof.
  intros m edit bond Hmol Hinfo Hwf Hlen Hhet Hsize Hin Hx.
  set (h0 := h ++ [m]).
  assert (the_mol h0 edit = m) as Hcopy by apply the_mol_alloc.
  destruct (removable_atoms_collected scaffold ring edit h0)
    as (h1 & ra & Hra & Hed1 & Hkind); [by rewrite Hcopy..|].
  assert (∀ a, a ∈ ra → NumAtomRings (rings scaffold) a ≤ 1) as Hone.
  { intros a Ha. destruct (Hkind a Ha) as [[_ ?]|?]; lia. }
  destruct (removable_bonds_fold edit ra h0
              (elements (unshared_bonds (rings scaffold) ring)) h1 ∅ Hed1) as [Hed2 Hrb].
  fold (removable_bonds scaffold ring edit ra h1) in Hed2, Hrb.
  destruct (removable_bonds scaffold ring edit ra h1) as [h2 rb] eqn:Hbonds.
  simpl in Hed2, Hrb.
  assert (bonds (the_mol h2 edit) = bonds m) as Hb2
    by (by rewrite (eaa_bonds _ _ _ Hed2), Hcopy).
  assert (length h2 = S (length h)) as L2.
  { rewrite (eaa_length _ _ _ Hed2). unfold h0. rewrite length_app. simpl. lia. }
  assert (the_mol h2 (mol scaffold) = m) as Hm2.
  { destruct (lookup_lt_is_Some_2 h (mol scaffold) Hmol) as [y Hy].
    unfold m, the_mol. rewrite (list_lookup_total_correct _ _ _ Hy).
    apply list_lookup_total_correct.
    rewrite (eaa_others _ _ _ Hed2) by (unfold edit; lia).
    by apply lookup_app_l_Some. }
  assert (AtomAPI.GetAtomicNum h2 <$> ring_atoms scaffold ring
          = AtomAPI.GetAtomicNum h <$> ring_atoms scaffold ring) as Hnums.
  { apply list_fmap_ext. intros i a Ha. unfold ring_atoms in Ha.
    apply list_lookup_fmap_Some in Ha as (k & -> & _).
    unfold AtomAPI.GetAtomicNum, the_atom. simpl. by rewrite Hm2. }
  destruct (scheme_4_sets_double scaffold ring edit h2 x)
    as (E3 & _ & _ & _ & Hothers & Hatoms & _);
    [done|by rewrite Hnums|done|done|lia|by rewrite Hb2|].
  assert (1 < NumBondRings (ring_info m) x) as Hshared.
  { rewrite <- Hinfo. unfold shared_bonds in Hin.
    by apply elem_of_list_to_set, list_elem_of_filter in Hin as [? _]. }
  destruct (shared_bond_ends m x Hwf Hshared) as [Hbegin Hend]. rewrite <- Hinfo in Hbegin, Hend.
  cbv zeta in E3, Hothers, Hatoms. rewrite E3 in Hothers, Hatoms.
  exists h1, h2, ra, rb. cbv zeta.
  split; [exact Hra|]. split; [done|]. split; [exact E3|]. split; [|split; [|split]].
  - unfold BondAPI.SetBondType. rewrite the_bond_update_bond, decide_True.
    + unfold the_bond. simpl. by rewrite Hb2.
    + split; [done|]. simpl. rewrite Hb2. split; [lia|done].
  - exact Hothers.
  - exact Hatoms.
  - split; [intros Ha; specialize (Hone _ Ha); lia|].
    split; [intros Ha; specialize (Hone _ Ha); lia|].
    split; [exact Hkind|].
    split; [|split; [|split]].
    + intros b_x b_y [[]%elem_of_empty|(b & Hb & -> & -> & _)]%Hrb.
      apply elem_of_elements in Hb. unfold unshared_bonds in Hb.
      apply elem_of_list_to_set, list_elem_of_filter in Hb as [Hb1 Hb].
      exists b. split; [|split; [done|split; [done|]]].
      * intros ->. rewrite Hinfo in Hb1. lia.
      * unfold BondAPI.GetBeginAtomIdx, BondAPI.GetEndAtomIdx, the_bond. simpl.
        by rewrite Hcopy.
    + unfold MurckoRingFragmenter_ring, RWMol, alloc. cbn beta iota.
      fold m. fold h0. fold edit. rewrite Hra. cbn beta iota. simpl mbind.
      rewrite Hbonds. cbn beta iota. rewrite E3.
      by destruct (get_scaffold_frags edit _).
    + intros p. apply add_parents_iff.
    + intros f. apply get_scaffold_frags_components.
Qed.
End Small_ring_rule.

(** The round of the epoxide ring of cyclohexene oxide (7-oxabicyclo[4.1.0]
    heptane), whose bond 2 is shared with the six-membered ring: the oxygen
    is collected, the atoms 1 and 2 of the shared bond are not, and the one
    parent is cyclohexene, with the double bond where the rings were fused. *)
Lemma MurckoRingFragmenter_ring_scheme_4_witness :
  let h := [Examples.cyclohexene_oxide] in
  let scaffold := Examples.scaffold_at h 0 in
  let ring := mkRing [0; 1; 2] [0; 2; 1] in
  let m := the_mol h 0 in
  let bond := GetBondWithIdx 1 2 in
  (0 < length h ∧ rings scaffold = ring_info m ∧ ring_info_wf m ∧
   length (aix ring) = 3 ∧
   length (filter (λ a, a ≠ 1 ∧ a ≠ 6)
                  (AtomAPI.GetAtomicNum h <$> ring_atoms scaffold ring)) = 1 ∧
   size (shared_bonds (rings scaffold) ring) = 1 ∧
   2 ∈ shared_bonds (rings scaffold) ring ∧
   2 < length (bonds m)) ∧
  (∃ h1 h2 remove_atoms remove_bonds,
     let h3 := BondAPI.SetBondType bond BondType.DOUBLE h2 in
     let validated :=
       @get_scaffold_frags Reference.engine 1
         (@remove_collected Reference.engine 1 remove_bonds remove_atoms h3) in
     removable_atoms scaffold ring 1 (h ++ [m]) = Some (h1, remove_atoms) ∧
     removable_bonds scaffold ring 1 remove_atoms h1 = (h2, remove_bonds) ∧
     the_bond h3 bond = mkBond 1 2 BondType.DOUBLE ∧
     1 ∉ remove_atoms ∧ 2 ∉ remove_atoms ∧
     @MurckoRingFragmenter_ring Reference.engine true scaffold (0, ring) (h, [])
     = Some (validated.1,
             foldl (add_parent ring_count (length (rings scaffold)) 0) [] validated.2)) ∧
  (∃ h' parent,
     @MurckoRingFragmenter_ring Reference.engine true scaffold (0, ring) (h, [])
     = Some (h', [parent]) ∧
     removed_ring_idx parent = Some 0 ∧
     the_mol h' (mol parent)
     = mkMol (replicate 6 Examples.C_)
         [Examples.double 0 1; Examples.single 1 2; Examples.single 2 3;
          Examples.single 3 4; Examples.single 4 5; Examples.single 5 0]
         [mkRing [0; 1; 2; 3; 4; 5] [0; 1; 2; 3; 4; 5]]).
Proof.
  assert (ring_info_wf (the_mol [Examples.cyclohexene_oxide] 0)) as Hwf.
  { apply (bool_decide_unpack _). vm_compute. exact I. }
  assert (2 ∈ shared_bonds (rings (Examples.scaffold_at [Examples.cyclohexene_oxide] 0))
            (mkRing [0; 1; 2] [0; 2; 1])) as Hin.
  { apply (bool_decide_unpack _). vm_compute. exact I. }
  split; [|split].
  - split; [simpl; lia|]. split; [reflexivity|]. split; [exact Hwf|].
    split; [reflexivity|]. split; [vm_compute; reflexivity|].
    split; [vm_compute; reflexivity|]. split; [exact Hin|]. vm_compute. lia.
  - destruct (@MurckoRingFragmenter_ring_scheme_4 Reference.engine
                (Examples.scaffold_at [Examples.cyclohexene_oxide] 0) 0
                (mkRing [0; 1; 2] [0; 2; 1]) [Examples.cyclohexene_oxide] [] 2)
      as (h1 & h2 & ra & rb & Hra & Hrb & _ & Hbond & _ & _ & Hb & He & _ & _ & Hround & _);
      [simpl; lia|reflexivity|exact Hwf|reflexivity|vm_compute; reflexivity
      |vm_compute; reflexivity|exact Hin|vm_compute; lia|].
    exists h1, h2, ra, rb. cbv zeta. repeat split; assumption.
  - eexists _, _. split; [vm_compute; reflexivity|]. split; reflexivity.
Defined.

